(** * cshs.py: the C## lexer, parser and tree-walking evaluator

    A shallow embedding of [src/cshs.py].  Python [str] values are lists of
    Unicode code points, Python [int] is [Z], Python [float] is a binary64
    primitive float, dictionaries are [gmap]s, and the mutable objects that
    the interpreter shares by reference (environments and lists) live in an
    explicit store that every evaluation step threads through.

    Recursion and loops of the source run on a step budget; the limits of
    the host (recursion depth, memory) are not part of the model.  Where
    the source relies on host behaviour that is not described here (the
    attributes every Python object has, float arithmetic beyond exact
    conversions, comparison of non-empty lists), the outcome says so
    instead of guessing. *)

From Stdlib Require Import ZArith NArith String Ascii List Lia.
From Stdlib Require Import Floats.PrimFloat Numbers.Cyclic.Int63.Uint63.
From stdpp Require Import gmap strings list sorting.

Set Warnings "-register-all,-notation-for-abbreviation".

Local Open Scope N_scope.

(** ** Python strings *)

(** A Python [str] is a sequence of code points. *)
Notation pystr := (list N).

(** The code points of an ASCII literal, used to write source text. *)
Definition cps (s : string) : pystr :=
  map N_of_ascii (list_ascii_of_string s).

Definition between (lo hi c : N) : bool := (lo <=? c) && (c <=? hi).

(** The Rocq string of an ASCII [str]. *)
Definition ascii_string (v : pystr) : string :=
  string_of_list_ascii (map ascii_of_N v).

Definition pystr_eqb (a b : pystr) : bool := bool_decide (a = b).

Definition pystr_in (v : pystr) (l : list pystr) : bool := existsb (pystr_eqb v) l.

(** ** Runtime values, exceptions and results *)

(** The callables of [load_stdlib]. *)
Inductive builtin := WriteLine | ReadLine | List_ctor.

(** A runtime value.  A list is a reference into the store of list objects;
    [VConsole] is the [ConsoleNS] instance. *)
Inductive value :=
  | VInt (z : Z)
  | VFloat (f : float)
  | VStr (s : pystr)
  | VBool (b : bool)
  | VNone
  | VList (a : nat)
  | VBuiltin (b : builtin)
  | VConsole.

(** The exceptions that can be raised; [ParseError], with the offset of the
    offending token, and [ReturnSignal] are the interpreter's own. *)
Inductive exn :=
  | ParseError (pos : nat)
  | NameError (name : string)
  | TypeError
  | AttributeError (name : string)
  | ZeroDivisionError
  | IndexError
  | UnicodeEncodeError
  | UnicodeDecodeError
  | ReturnSignal (v : value).

(** The outcome of running a piece of the program: a value, a raised
    exception, an exhausted step budget, or a step into host behaviour that
    this development does not describe ([what] names it). *)
Inductive res (A : Type) :=
  | Val (a : A)
  | Exc (e : exn)
  | OutOfFuel
  | Unmodelled (what : string).
Arguments Val {A} a.
Arguments Exc {A} e.
Arguments OutOfFuel {A}.
Arguments Unmodelled {A} what.

Definition res_bind {A B} (r : res A) (k : A → res B) : res B :=
  match r with
  | Val a => k a
  | Exc e => Exc e
  | OutOfFuel => OutOfFuel
  | Unmodelled w => Unmodelled w
  end.

Definition res_map {A B} (f : A → B) (r : res A) : res B :=
  res_bind r (λ a, Val (f a)).

(** Integers up to 2^53 in magnitude have an exact binary64 value; the
    conversion of larger ones is left out. *)
Definition float_of_Z (z : Z) : option float :=
  if (Z.abs z <=? 2 ^ 53)%Z then
    Some (if (z <? 0)%Z then PrimFloat.opp (PrimFloat.of_uint63 (Uint63.of_Z (- z)))
          else PrimFloat.of_uint63 (Uint63.of_Z z))
  else None.

(** ** Computations on a state

    A computation takes the state of a mutable object, may change it, and
    ends with an outcome; the state reached is kept also when it raises. *)

Definition ST (S A : Type) : Type := S → res A * S.

Section Monad.
Context {S : Type}.

Definition ret {A} (a : A) : ST S A := λ st, (Val a, st).
Definition raise {A} (e : exn) : ST S A := λ st, (Exc e, st).
Definition out_of_fuel {A} : ST S A := λ st, (OutOfFuel, st).
Definition unmodelled {A} (what : string) : ST S A := λ st, (Unmodelled what, st).
Definition lift {A} (r : res A) : ST S A := λ st, (r, st).

Definition bind {A B} (m : ST S A) (k : A → ST S B) : ST S B :=
  λ st,
    match m st with
    | (Val a, st') => k a st'
    | (Exc e, st') => (Exc e, st')
    | (OutOfFuel, st') => (OutOfFuel, st')
    | (Unmodelled w, st') => (Unmodelled w, st')
    end.

Definition gets {A} (f : S → A) : ST S A := λ st, (Val (f st), st).
Definition modify (f : S → S) : ST S unit := λ st, (Val tt, f st).

End Monad.

Notation "'let*' x := m 'in' k" := (bind m (λ x, k))
  (at level 10, x name, m at level 100, k at level 200).
Notation "m ;; k" := (bind m (λ _, k))
  (at level 100, k at level 200, right associativity).

Section MonadLoops.
Context {S : Type}.

(** A list comprehension over a computation, left to right. *)
Fixpoint mapM {A B} (f : A → ST S B) (l : list A) : ST S (list B) :=
  match l with
  | [] => ret []
  | a :: l' => let* b := f a in let* bs := mapM f l' in ret (b :: bs)
  end.

(** A [for] loop over an immutable sequence. *)
Fixpoint forM_ {A} (l : list A) (f : A → ST S unit) : ST S unit :=
  match l with
  | [] => ret tt
  | a :: l' => f a ;; forM_ l' f
  end.

End MonadLoops.

(** ** Lexer *)

Module Lexer.

(** The named groups of [TOKEN_SPEC], in the order of the alternation. *)
Inductive group := NUMBER | STRING | ID | OP | WS | COMMENT.

Definition group_name (g : group) : string :=
  match g with
  | NUMBER => "NUMBER" | STRING => "STRING" | ID => "ID"
  | OP => "OP" | WS => "WS" | COMMENT => "COMMENT"
  end.

(** Length of the longest prefix whose code points all satisfy [p]: a greedy
    [p*]. *)
Fixpoint span (p : N → bool) (s : pystr) : nat :=
  match s with
  | c :: r => if p c then S (span p r) else O
  | [] => O
  end.

Definition is_id_start (c : N) : bool :=
  between 65 90 c || between 97 122 c || (c =? 95).

Definition is_id_char (c : N) : bool :=
  is_id_start c || between 48 57 c.

(** [ \t\r\n] *)
Definition is_ws (c : N) : bool :=
  (c =? 32) || (c =? 9) || (c =? 13) || (c =? 10).

Definition not_lf (c : N) : bool := negb (c =? 10).

(** [+\-*/%<>=!.,;:{}()[\]] *)
Definition op_chars : pystr := cps "+-*/%<>=!.,;:{}()[]".

(** ==|!=|<=|>=|&&|\|\| *)
Definition op_pairs : list (N * N) :=
  [(61, 61); (33, 61); (60, 61); (62, 61); (38, 38); (124, 124)].

Definition pair_in (a b : N) (l : list (N * N)) : bool :=
  existsb (λ p, (fst p =? a) && (snd p =? b)) l.

Definition is_op_char (c : N) : bool := existsb (N.eqb c) op_chars.

(** The rest of the STRING pattern after the opening quote: any number of
    items, each a backslash followed by [.] (any code point but the line
    feed) or one code point that is neither a quote nor a backslash, then the
    closing quote.  The two kinds of item start with different code points,
    so giving back an iteration never lets the closing quote match: the
    greedy scan decides. *)
Fixpoint string_body (s : pystr) : option nat :=
  match s with
  | [] => None
  | c :: r =>
      if c =? 34 then Some 1%nat
      else if c =? 92 then
        match r with
        | d :: r' => if d =? 10 then None else (λ n, S (S n)) <$> string_body r'
        | [] => None
        end
      else S <$> string_body r
  end.

Section Master.

(** [\d] in a [str] pattern is every code point of Unicode category Nd;
    the table belongs to the host's Unicode database. *)
Variable unicode_Nd : N → bool.

(** \d+(?:\.\d+)? *)
Definition match_NUMBER (s : pystr) : option nat :=
  let n1 := span unicode_Nd s in
  if (n1 =? 0)%nat then None
  else match drop n1 s with
       | c :: r =>
           let n2 := span unicode_Nd r in
           if (c =? 46) && negb (n2 =? 0)%nat then Some (n1 + 1 + n2)%nat
           else Some n1
       | [] => Some n1
       end.

(** STRING: a quote (code point 34), then [string_body]. *)
Definition match_STRING (s : pystr) : option nat :=
  match s with
  | c :: r => if c =? 34 then S <$> string_body r else None
  | [] => None
  end.

(** [A-Za-z_][A-Za-z0-9_]* *)
Definition match_ID (s : pystr) : option nat :=
  match s with
  | c :: r => if is_id_start c then Some (S (span is_id_char r)) else None
  | [] => None
  end.

(** The two-character operators first, then the one-character class. *)
Definition match_OP (s : pystr) : option nat :=
  match s with
  | a :: r =>
      match r with
      | b :: _ =>
          if pair_in a b op_pairs then Some 2%nat
          else if is_op_char a then Some 1%nat
          else None
      | [] => if is_op_char a then Some 1%nat else None
      end
  | [] => None
  end.

(** [ \t\r\n]+ *)
Definition match_WS (s : pystr) : option nat :=
  let n := span is_ws s in if (n =? 0)%nat then None else Some n.

(** //[^\n]* *)
Definition match_COMMENT (s : pystr) : option nat :=
  match s with
  | a :: b :: r =>
      if (a =? 47) && (b =? 47) then Some (2 + span not_lf r)%nat
      else None
  | _ => None
  end.

Definition TOKEN_SPEC : list (group * (pystr → option nat)) :=
  [ (NUMBER, match_NUMBER); (STRING, match_STRING); (ID, match_ID);
    (OP, match_OP); (WS, match_WS); (COMMENT, match_COMMENT) ].

(** The alternation: the first group, in order, that matches at the head
    of [s], with the length of its match. *)
Fixpoint first_match (spec : list (group * (pystr → option nat))) (s : pystr)
  : option (group * nat) :=
  match spec with
  | [] => None
  | (g, m) :: spec' =>
      match m s with
      | Some n => Some (g, n)
      | None => first_match spec' s
      end
  end.

Definition MASTER (s : pystr) : option (group * nat) := first_match TOKEN_SPEC s.

(** One match object of [MASTER.finditer(src)]. *)
Record rmatch := Match { lastgroup : group; mgroup : pystr; mstart : nat }.

(** [MASTER.finditer]: scan from left to right; at an offset where the
    pattern matches, yield the match and resume after it; at an offset
    where nothing matches, move on by one code point.  [skip] counts the
    code points still covered by the last match. *)
Fixpoint finditer_from (skip pos : nat) (s : pystr) : list rmatch :=
  match s with
  | [] => []
  | _ :: rest =>
      match skip with
      | S k => finditer_from k (S pos) rest
      | O =>
          match MASTER s with
          | Some (g, n) => Match g (take n s) pos :: finditer_from (n - 1) (S pos) rest
          | None => finditer_from 0 (S pos) rest
          end
      end
  end.

Definition finditer (src : pystr) : list rmatch := finditer_from 0 0 src.

Definition KEYWORDS : list pystr :=
  map cps [ "if"; "else"; "while"; "for"; "foreach"; "in"; "return"; "namespace";
            "using"; "var"; "int"; "float"; "string"; "bool"; "List";
            "true"; "false" ]%string.

(** [str.upper], applied by [lex] to reserved words only, all ASCII. *)
Definition upper (v : pystr) : pystr :=
  map (λ c, if between 97 122 c then c - 32 else c) v.

Record Token := mkToken { type : string; val : pystr; pos : nat }.

Definition is_skipped (g : group) : bool :=
  match g with WS | COMMENT => true | _ => false end.

Definition is_ID (g : group) : bool :=
  match g with ID => true | _ => false end.

(** The loop body of [lex] over the matches. *)
Fixpoint lex_loop (ms : list rmatch) : list Token :=
  match ms with
  | [] => []
  | m :: ms' =>
      let k := lastgroup m in
      let v := mgroup m in
      if is_skipped k then lex_loop ms'
      else
        let k' := if is_ID k && pystr_in v KEYWORDS then ascii_string (upper v)
                  else group_name k in
        mkToken k' v (mstart m) :: lex_loop ms'
  end.

Definition lex (src : pystr) : list Token :=
  lex_loop (finditer src) ++ [mkToken "EOF" [] (length src)].

End Master.

(** The ASCII part of category Nd, on which every Unicode database agrees. *)
Definition ascii_Nd (c : N) : bool := between 48 57 c.

End Lexer.

(** ** String literals *)

Module Literal.

(** [t.val[1:-1]] *)
Definition strip_quotes (v : pystr) : pystr := removelast (tail v).

(** [bytes(s, 'utf-8')] for one code point; a surrogate cannot be encoded. *)
Definition utf8_encode_cp (c : N) : res (list N) :=
  if c <? 128 then Val [c]
  else if c <? 2048 then Val [192 + c / 64; 128 + c mod 64]
  else if between 55296 57343 c then Exc UnicodeEncodeError
  else if c <? 65536 then
    Val [224 + c / 4096; 128 + (c / 64) mod 64; 128 + c mod 64]
  else if c <? 1114112 then
    Val [240 + c / 262144; 128 + (c / 4096) mod 64; 128 + (c / 64) mod 64;
         128 + c mod 64]
  else Unmodelled "not a code point".

Fixpoint utf8_encode (s : pystr) : res (list N) :=
  match s with
  | [] => Val []
  | c :: r =>
      res_bind (utf8_encode_cp c) (λ bs, res_map (app bs) (utf8_encode r))
  end.

Definition hexval (c : N) : option N :=
  if between 48 57 c then Some (c - 48)
  else if between 97 102 c then Some (c - 87)
  else if between 65 70 c then Some (c - 55)
  else None.

(** The hexadecimal digits of an x, u or U escape: exactly [count] of them. *)
Fixpoint hexescape (count : nat) (ch : N) (s : list N) : res (N * list N) :=
  match count with
  | O => Val (ch, s)
  | S k =>
      match s with
      | [] => Exc UnicodeDecodeError
      | c :: r =>
          match hexval c with
          | Some d => hexescape k (ch * 16 + d) r
          | None => Exc UnicodeDecodeError
          end
      end
  end.

Definition is_octal (c : N) : bool := between 48 55 c.

(** One to three octal digits, the first being [c]. *)
Definition octalescape (c : N) (s : list N) : N * list N :=
  let ch := c - 48 in
  match s with
  | d1 :: r1 =>
      if is_octal d1 then
        let ch := ch * 8 + (d1 - 48) in
        match r1 with
        | d2 :: r2 => if is_octal d2 then (ch * 8 + (d2 - 48), r2) else (ch, r1)
        | [] => (ch, r1)
        end
      else (ch, s)
  | [] => (ch, s)
  end.

(** The escapes with a fixed one-character value. *)
Definition simple_escape (c : N) : option N :=
  if c =? 92 then Some 92        (* backslash *)
  else if c =? 39 then Some 39   (* single quote *)
  else if c =? 34 then Some 34   (* double quote *)
  else if c =? 98 then Some 8    (* b *)
  else if c =? 102 then Some 12  (* f *)
  else if c =? 116 then Some 9   (* t *)
  else if c =? 110 then Some 10  (* n *)
  else if c =? 114 then Some 13  (* r *)
  else if c =? 118 then Some 11  (* v *)
  else if c =? 97 then Some 7    (* a *)
  else None.

Section Decode.

(** The host's table of Unicode character names, consulted by the N
    escape: the code point of a name, when there is one. *)
Variable ucd_getcode : list N → option N.

(** [bytes.decode('unicode_escape')] with strict errors: a byte that is
    not a backslash is the code point of the same number; a backslash
    starts an escape.  Every round consumes a byte, so a budget of the
    number of bytes is enough. *)
Fixpoint decode_loop (fuel : nat) (s : list N) : res pystr :=
  match s with
  | [] => Val []
  | c :: r =>
      match fuel with
      | O => OutOfFuel
      | S fuel =>
          if negb (c =? 92) then res_map (cons c) (decode_loop fuel r)
          else
            match r with
            | [] => Exc UnicodeDecodeError
            | e :: r' =>
                if e =? 10 then decode_loop fuel r'
                else
                  match simple_escape e with
                  | Some x => res_map (cons x) (decode_loop fuel r')
                  | None =>
                      if is_octal e then
                        let '(ch, r'') := octalescape e r' in
                        res_map (cons ch) (decode_loop fuel r'')
                      else if (e =? 120) || (e =? 117) || (e =? 85) then
                        let count :=
                          if e =? 120 then 2%nat
                          else if e =? 117 then 4%nat else 8%nat in
                        res_bind (hexescape count 0 r') (λ '(ch, r''),
                          if 1114111 <? ch then Exc UnicodeDecodeError
                          else res_map (cons ch) (decode_loop fuel r''))
                      else if e =? 78 then
                        match r' with
                        | b :: r'' =>
                            if b =? 123 then
                              let namelen := Lexer.span (λ x, negb (x =? 125)) r'' in
                              match drop namelen r'' with
                              | [] => Exc UnicodeDecodeError
                              | _ :: r3 =>
                                  if (namelen =? 0)%nat then Exc UnicodeDecodeError
                                  else
                                    match ucd_getcode (take namelen r'') with
                                    | Some ch => res_map (cons ch) (decode_loop fuel r3)
                                    | None => Exc UnicodeDecodeError
                                    end
                              end
                            else Exc UnicodeDecodeError
                        | [] => Exc UnicodeDecodeError
                        end
                      else res_map (λ t, 92 :: e :: t) (decode_loop fuel r')
                  end
            end
      end
  end.

Definition unicode_escape_decode (bs : list N) : res pystr :=
  decode_loop (length bs) bs.

(** The value [parse_primary] gives a STRING token:
    [bytes(t.val[1:-1],'utf-8').decode('unicode_escape')]. *)
Definition string_value (tval : pystr) : res pystr :=
  res_bind (utf8_encode (strip_quotes tval)) unicode_escape_decode.

End Decode.

(** A table without names: enough for literals that have no N escape. *)
Definition no_names (_ : list N) : option N := None.

End Literal.

(** ** Abstract syntax *)

Module Ast.

(** The value of a number node: [int(t.val)], or [float(t.val)] when the
    lexeme has a dot. *)
Inductive num := Int (z : Z) | Float (f : float).

(** UNARY_OPS *)
Inductive unop := Neg | Not | Pos.

(** The keys of PRECEDENCE. *)
Inductive binop :=
  | Add | Sub | Mul | Div | Mod
  | Eq | Ne | Lt | Gt | Le | Ge
  | And | Or.

(** Expression nodes, by [kind]; dotted names are kept joined, as the parser
    builds them. *)
Inductive expr :=
  | ENumber (value : num)
  | EString (value : pystr)
  | EBool (value : bool)
  | EVar (name : string)
  | ECall (callee : string) (args : list expr)
  | EIndex (target : string) (index : expr)
  | EUnary (op : unop) (e : expr)
  | EBin (op : binop) (lhs rhs : expr).

(** The target of an assignment: a var node or an index node. *)
Inductive target :=
  | TVar (name : string)
  | TIndex (target : string) (index : expr).

(** The init slot of a for statement: a vardecl node or an expression. *)
Inductive for_init :=
  | InitDecl (type : pystr) (name : string) (init : option expr)
  | InitExpr (e : expr).

(** Statement nodes, by [kind]. *)
Inductive stmt :=
  | SBlock (body : list stmt)
  | SVarDecl (type : pystr) (name : string) (init : option expr)
  | SAssign (tgt : target) (value : expr)
  | SExpr (e : expr)
  | SIf (cond : expr) (then_ : stmt) (otherwise : option stmt)
  | SWhile (cond : expr) (body : stmt)
  | SFor (init : option for_init) (cond post : option expr) (body : stmt)
  | SForeach (name seq : string) (body : stmt)
  | SReturn (value : option expr)
  | SFunc (name : string) (params : list string) (body : list stmt) (rettype : pystr).

(** A func node as the function table keeps it; [f_body] is the body of its
    block. *)
Record funcdecl := mkFunc {
  f_name : string;
  f_params : list string;
  f_body : list stmt;
  f_rettype : pystr
}.

Definition is_func (s : stmt) : bool :=
  match s with SFunc _ _ _ _ => true | _ => false end.

(** Arguments handed to [node]. *)
Inductive pyarg :=
  | AStr (s : string)
  | AExprs (l : list expr).

Record astnode := mkNode { kind : pyarg; fields : list (string * pyarg) }.

(** [def node(kind, **kw)]: one positional parameter; every other field
    has to be passed by keyword.  The host rejects a call with any other
    number of positional arguments before the body runs. *)
Definition node (positional : list pyarg) (kw : list (string * pyarg)) : res astnode :=
  match positional with
  | [kind] => Val (mkNode kind kw)
  | _ => Exc TypeError
  end.

(** Reading a call node back as an expression. *)
Definition expr_of_node (d : astnode) : option expr :=
  match kind d, fields d with
  | AStr "call", [("callee", AStr callee); ("args", AExprs args)] =>
      Some (ECall callee args)
  | _, _ => None
  end.

End Ast.

(** ** Parser *)

Module Parser.
Import Lexer Ast.

(** What the parser takes from the host's Unicode database: the code
    points of category Nd, their digit values, and the names of
    characters. *)
Record host := mkHost {
  unicode_Nd : N → bool;
  digit_value : N → Z;
  ucd_getcode : list N → option N
}.

(** The ASCII part of the database. *)
Definition ascii_host : host :=
  mkHost ascii_Nd (λ c, Z.of_N (c - 48)) Literal.no_names.

(** PRECEDENCE *)
Definition PRECEDENCE : list (pystr * (nat * binop)) :=
  [ (cps "||", (1, Or)); (cps "&&", (2, And));
    (cps "==", (3, Eq)); (cps "!=", (3, Ne));
    (cps "<", (4, Lt)); (cps ">", (4, Gt)); (cps "<=", (4, Le)); (cps ">=", (4, Ge));
    (cps "+", (5, Add)); (cps "-", (5, Sub));
    (cps "*", (6, Mul)); (cps "/", (6, Div)); (cps "%", (6, Mod)) ]%nat.

(** UNARY_OPS *)
Definition UNARY_OPS : list (pystr * unop) :=
  [ (cps "-", Neg); (cps "!", Not); (cps "+", Pos) ].

Definition assoc {A} (k : pystr) (l : list (pystr * A)) : option A :=
  snd <$> find (λ p, pystr_eqb (fst p) k) l.

Definition type_in (t : Token) (types : list string) : bool :=
  existsb (String.eqb (type t)) types.

(** The token types that may start a declaration. *)
Definition DECL_TYPES : list string :=
  [ "VAR"; "INT"; "FLOAT"; "STRING"; "BOOL"; "LIST"; "ID" ]%string.

(** ['.'.join(parts)] *)
Fixpoint join_dot (parts : list pystr) : pystr :=
  match parts with
  | [] => []
  | [x] => x
  | x :: rest => x ++ 46 :: join_dot rest
  end.

(** A name of the program as the syntax tree keeps it; names are made of
    identifier tokens, which are ASCII. *)
Definition name_of (v : pystr) : string := ascii_string v.

Section Parse.
Variable h : host.

(** [int(v)] on a run of decimal digits. *)
Definition int_of_digits (v : pystr) : Z :=
  foldl (λ acc c, acc * 10 + digit_value h c)%Z 0%Z v.

(** The value of a number token: [float(v)] if the lexeme has a dot,
    [int(v)] otherwise.  A decimal with at most 15 fractional digits whose
    digits, read as one integer, stay within 2^53 is the correctly rounded
    quotient of two exact floats; other decimals, and integer lexemes
    beyond the host's limit of 4300 digits, are left out. *)
Definition number_value (v : pystr) : res num :=
  if existsb (N.eqb 46) v then
    let whole := take (span (λ c, negb (c =? 46)) v) v in
    let frac := drop (S (length whole)) v in
    match float_of_Z (int_of_digits (whole ++ frac)) with
    | Some m =>
        if (length frac <=? 15)%nat then
          Val (Float (PrimFloat.div m
                 (PrimFloat.of_uint63 (Uint63.of_Z (10 ^ Z.of_nat (length frac))))))
        else Unmodelled "float literal with more than 15 fractional digits"
    | None => Unmodelled "float literal with digits beyond 2^53"
    end
  else if (4300 <? length v)%nat then
    Unmodelled "integer literal beyond the host's digit limit"
  else Val (Int (int_of_digits v)).

(** [self.toks] *)
Variable toks : list Token.

(** A method of [Parser] or a parsing function: a computation on
    [self.i]. *)
Definition P (A : Type) : Type := ST nat A.

(** [self.toks[j]] *)
Definition tok_at (j : nat) : P Token :=
  match toks !! j with
  | Some t => ret t
  | None => raise IndexError
  end.

Definition peek : P Token :=
  let* i := gets id in tok_at i.

(** [eat(typ, val)]; an argument left out is None. *)
Definition eat (typ : option string) (v : option pystr) : P Token :=
  let* t := peek in
  if match typ with
     | Some ty => negb (String.eqb (type t) ty)
     | None => false
     end
  then raise (ParseError (pos t))
  else if match v with
          | Some x => negb (pystr_eqb (val t) x)
          | None => false
          end
  then raise (ParseError (pos t))
  else modify S ;; ret t.

(** [match(typ, val)] *)
Definition match_ (typ : string) (v : option pystr) : P bool :=
  let* t := peek in
  if String.eqb (type t) typ
     && match v with
        | Some x => pystr_eqb (val t) x
        | None => true
        end
  then modify S ;; ret true
  else ret false.

Definition OP (s : string) : option pystr := Some (cps s).

(** [parse_expression()], as the functions nested in [parse_expression]
    call it: the name is the module-level function, whose parameter p is
    required, and the host rejects the call. *)
Definition parse_expression_no_arg : P expr := raise TypeError.

(** [while p.match('OP','.'): parts.append(p.eat('ID').val)] *)
Fixpoint dotted_tail (n : nat) (parts : list pystr) : P (list pystr) :=
  match n with
  | O => out_of_fuel
  | S n =>
      let* m := match_ "OP" (OP ".") in
      if m then
        let* t := eat (Some "ID"%string) None in
        dotted_tail n (parts ++ [val t])
      else ret parts
  end.

(** The loop that collects the arguments of a call. *)
Fixpoint call_args (n : nat) (args : list expr) : P (list expr) :=
  match n with
  | O => out_of_fuel
  | S n =>
      let* a := parse_expression_no_arg in
      let* m := match_ "OP" (OP ")") in
      if m then ret (args ++ [a])
      else eat (Some "OP"%string) (OP ",") ;; call_args n (args ++ [a])
  end.

Definition parse_primary (n : nat) : P expr :=
  let* t := peek in
  if String.eqb (type t) "NUMBER" then
    eat None None ;;
    let* v := lift (number_value (val t)) in
    ret (ENumber v)
  else if String.eqb (type t) "STRING" then
    eat None None ;;
    let* s := lift (Literal.string_value (ucd_getcode h) (val t)) in
    ret (EString s)
  else if type_in t ["TRUE"; "FALSE"]%string then
    eat None None ;;
    ret (EBool (String.eqb (type t) "TRUE"))
  else if String.eqb (type t) "ID" || type_in t ["CONSOLE"; "LIST"]%string then
    let* t0 := eat None None in
    let* parts := dotted_tail n [val t0] in
    let* call := match_ "OP" (OP "(") in
    if call then
      let* closed := match_ "OP" (OP ")") in
      let* args := if closed then ret [] else call_args n [] in
      ret (ECall (name_of (join_dot parts)) args)
    else
      let* index := match_ "OP" (OP "[") in
      if index then
        let* idx := parse_expression_no_arg in
        eat (Some "OP"%string) (OP "]") ;;
        ret (EIndex (name_of (join_dot parts)) idx)
      else ret (EVar (name_of (join_dot parts)))
  else
    let* paren := match_ "OP" (OP "(") in
    if paren then
      let* e := parse_expression_no_arg in
      eat (Some "OP"%string) (OP ")") ;;
      ret e
    else
      match (if String.eqb (type t) "OP" then assoc (val t) UNARY_OPS else None) with
      | Some op =>
          eat (Some "OP"%string) None ;;
          let* e := parse_expression_no_arg in
          ret (EUnary op e)
      | None => raise (ParseError (pos t))
      end.

Fixpoint parse_unary (n : nat) : P expr :=
  match n with
  | O => out_of_fuel
  | S n =>
      let* t := peek in
      match (if String.eqb (type t) "OP" then assoc (val t) UNARY_OPS else None) with
      | Some op =>
          eat (Some "OP"%string) None ;;
          let* e := parse_unary n in
          ret (EUnary op e)
      | None => parse_primary n
      end
  end.

(** The precedence of the operator token [t], if it is one. *)
Definition binary_op (t : Token) : option (nat * binop) :=
  if String.eqb (type t) "OP" then assoc (val t) PRECEDENCE else None.

(** [parse_binop(minp, left)] and its inner loop, which gives the right
    operand to the operators that bind tighter. *)
Fixpoint parse_binop (n : nat) (minp : nat) (lhs : expr) {struct n} : P expr :=
  match n with
  | O => out_of_fuel
  | S n =>
      let* t := peek in
      match binary_op t with
      | None => ret lhs
      | Some (prec, op) =>
          if (prec <? minp)%nat then ret lhs
          else
            eat (Some "OP"%string) None ;;
            let* rhs := parse_unary n in
            let* rhs := tighter n prec rhs in
            parse_binop n minp (EBin op lhs rhs)
      end
  end

with tighter (n : nat) (prec : nat) (rhs : expr) {struct n} : P expr :=
  match n with
  | O => out_of_fuel
  | S n =>
      let* t2 := peek in
      match binary_op t2 with
      | Some (prec2, _) =>
          if (prec <? prec2)%nat then
            let* rhs := parse_binop n prec2 rhs in
            tighter n prec rhs
          else ret rhs
      | None => ret rhs
      end
  end.

Definition parse_expression (n : nat) : P expr :=
  let* lhs := parse_unary n in
  parse_binop n 1 lhs.

(** [while not p.match('OP','>'): p.eat()] *)
Fixpoint skip_generic (n : nat) : P unit :=
  match n with
  | O => out_of_fuel
  | S n =>
      let* m := match_ "OP" (OP ">") in
      if m then ret tt else eat None None ;; skip_generic n
  end.

(** The fields of a vardecl node. *)
Definition parse_var_decl_fields (n : nat) : P (pystr * string * option expr) :=
  let* var := match_ "VAR" None in
  let* typ :=
    if var then ret (cps "var")
    else
      let* t := peek in
      if type_in t ["INT"; "FLOAT"; "STRING"; "BOOL"; "LIST"; "ID"]%string then
        let* t' := eat None None in
        (if pystr_eqb (val t') (cps "List") then
           let* lt := match_ "OP" (OP "<") in
           if lt then skip_generic n else ret tt
         else ret tt) ;;
        ret (val t')
      else ret (cps "var") in
  let* name := eat (Some "ID"%string) None in
  let* eq := match_ "OP" (OP "=") in
  let* init :=
    if eq then let* e := parse_expression n in ret (Some e) else ret None in
  eat (Some "OP"%string) (OP ";") ;;
  ret (typ, name_of (val name), init).

Definition parse_var_decl (n : nat) : P stmt :=
  let* d := parse_var_decl_fields n in
  ret (SVarDecl (fst (fst d)) (snd (fst d)) (snd d)).

Definition parse_stmt_or_expr (n : nat) : P stmt :=
  let* e := parse_expression n in
  let assign (tgt : target) : P stmt :=
    let* eq := match_ "OP" (OP "=") in
    if eq then
      let* v := parse_expression n in
      eat (Some "OP"%string) (OP ";") ;;
      ret (SAssign tgt v)
    else eat (Some "OP"%string) (OP ";") ;; ret (SExpr e) in
  match e with
  | EVar name => assign (TVar name)
  | EIndex tgt idx => assign (TIndex tgt idx)
  | _ => eat (Some "OP"%string) (OP ";") ;; ret (SExpr e)
  end.

(** The loop over the parameters of a function declaration. *)
Fixpoint parse_params (n : nat) (params : list string) : P (list string) :=
  match n with
  | O => out_of_fuel
  | S n =>
      let* t := peek in
      (if type_in t DECL_TYPES then eat None None ;; ret tt else ret tt) ;;
      let* pid := eat (Some "ID"%string) None in
      let params := params ++ [name_of (val pid)] in
      let* m := match_ "OP" (OP ")") in
      if m then ret params
      else eat (Some "OP"%string) (OP ",") ;; parse_params n params
  end.

(** [try: m  except Exception: pass]: the outcome of [m] if it returns,
    nothing if it raises; what [m] did to the parser stays done. *)
Definition try_pass {A} (m : P (option A)) : P (option A) :=
  λ i,
    match m i with
    | (Exc _, i') => (Val None, i')
    | other => other
    end.

Fixpoint parse_statement (n : nat) {struct n} : P stmt :=
  match n with
  | O => out_of_fuel
  | S n =>
      let* t := peek in
      if String.eqb (type t) "OP" && pystr_eqb (val t) (cps "{") then parse_block n
      else if String.eqb (type t) "IF" then parse_if n
      else if String.eqb (type t) "WHILE" then
        eat (Some "WHILE"%string) None ;;
        eat (Some "OP"%string) (OP "(") ;;
        let* cond := parse_expression n in
        eat (Some "OP"%string) (OP ")") ;;
        let* body := parse_statement n in
        ret (SWhile cond body)
      else if String.eqb (type t) "FOR" then parse_for n
      else if String.eqb (type t) "FOREACH" then parse_foreach n
      else if String.eqb (type t) "RETURN" then
        eat (Some "RETURN"%string) None ;;
        let* t' := peek in
        if String.eqb (type t') "OP" && pystr_eqb (val t') (cps ";") then
          eat (Some "OP"%string) (OP ";") ;; ret (SReturn None)
        else
          let* v := parse_expression n in
          eat (Some "OP"%string) (OP ";") ;;
          ret (SReturn (Some v))
      else if type_in t DECL_TYPES then
        let* j := gets id in
        let* f :=
          try_pass
            (let* tok1 := tok_at j in
             let* tok2 := tok_at (j + 1) in
             let* tok3 := tok_at (j + 2) in
             if String.eqb (type tok2) "ID" && String.eqb (type tok3) "OP"
                && pystr_eqb (val tok3) (cps "(")
             then let* s := parse_function n in ret (Some s)
             else ret None) in
        match f with
        | Some s => ret s
        | None =>
            let* i := gets id in
            let* next := tok_at (i + 1) in
            if String.eqb (type next) "ID" then parse_var_decl n
            else parse_stmt_or_expr n
        end
      else parse_stmt_or_expr n
  end

with parse_block (n : nat) {struct n} : P stmt :=
  match n with
  | O => out_of_fuel
  | S n =>
      eat (Some "OP"%string) (OP "{") ;;
      let* items := block_items n [] in
      ret (SBlock items)
  end

(** [while not p.match('OP','}'): items.append(parse_statement(p))] *)
with block_items (n : nat) (items : list stmt) {struct n} : P (list stmt) :=
  match n with
  | O => out_of_fuel
  | S n =>
      let* m := match_ "OP" (OP "}") in
      if m then ret items
      else
        let* s := parse_statement n in
        block_items n (items ++ [s])
  end

with parse_if (n : nat) {struct n} : P stmt :=
  match n with
  | O => out_of_fuel
  | S n =>
      eat (Some "IF"%string) None ;;
      eat (Some "OP"%string) (OP "(") ;;
      let* cond := parse_expression n in
      eat (Some "OP"%string) (OP ")") ;;
      let* then_ := parse_statement n in
      let* e := match_ "ELSE" None in
      let* otherwise :=
        if e then let* s := parse_statement n in ret (Some s) else ret None in
      ret (SIf cond then_ otherwise)
  end

with parse_for (n : nat) {struct n} : P stmt :=
  match n with
  | O => out_of_fuel
  | S n =>
      eat (Some "FOR"%string) None ;;
      eat (Some "OP"%string) (OP "(") ;;
      let* no_init := match_ "OP" (OP ";") in
      let* init :=
        if no_init then ret None
        else
          let* t := peek in
          let* decl :=
            if type_in t DECL_TYPES then
              let* i := gets id in
              let* next := tok_at (i + 1) in
              ret (String.eqb (type next) "ID")
            else ret false in
          if decl then
            let* d := parse_var_decl_fields n in
            ret (Some (InitDecl (fst (fst d)) (snd (fst d)) (snd d)))
          else
            let* e := parse_expression n in
            eat (Some "OP"%string) (OP ";") ;;
            ret (Some (InitExpr e)) in
      let* no_cond := match_ "OP" (OP ";") in
      let* cond :=
        if no_cond then ret None
        else
          let* e := parse_expression n in
          eat (Some "OP"%string) (OP ";") ;;
          ret (Some e) in
      let* no_post := match_ "OP" (OP ")") in
      let* post :=
        if no_post then ret None
        else
          let* e := parse_expression n in
          eat (Some "OP"%string) (OP ")") ;;
          ret (Some e) in
      let* body := parse_statement n in
      ret (SFor init cond post body)
  end

with parse_foreach (n : nat) {struct n} : P stmt :=
  match n with
  | O => out_of_fuel
  | S n =>
      eat (Some "FOREACH"%string) None ;;
      eat (Some "OP"%string) (OP "(") ;;
      let* t := peek in
      (if type_in t DECL_TYPES then eat None None ;; ret tt else ret tt) ;;
      let* name := eat (Some "ID"%string) None in
      eat (Some "IN"%string) None ;;
      let* seq := eat (Some "ID"%string) None in
      eat (Some "OP"%string) (OP ")") ;;
      let* body := parse_statement n in
      ret (SForeach (name_of (val name)) (name_of (val seq)) body)
  end

with parse_function (n : nat) {struct n} : P stmt :=
  match n with
  | O => out_of_fuel
  | S n =>
      let* t := peek in
      let* rettype :=
        if type_in t DECL_TYPES then let* t' := eat None None in ret (val t')
        else ret (cps "void") in
      let* name := eat (Some "ID"%string) None in
      eat (Some "OP"%string) (OP "(") ;;
      let* closed := match_ "OP" (OP ")") in
      let* params := if closed then ret [] else parse_params n [] in
      let* body := parse_block n in
      match body with
      | SBlock items => ret (SFunc (name_of (val name)) params items rettype)
      | _ => unmodelled "a block that is no block"
      end
  end.

(** [while p.match('OP','.'): p.eat('ID')] of a using line. *)
Fixpoint using_dots (n : nat) : P unit :=
  match n with
  | O => out_of_fuel
  | S n =>
      let* m := match_ "OP" (OP ".") in
      if m then eat (Some "ID"%string) None ;; using_dots n else ret tt
  end.

(** The loop of [parse_program]. *)
Fixpoint program_items (n : nat) (items : list stmt) : P (list stmt) :=
  match n with
  | O => out_of_fuel
  | S n =>
      let* t := peek in
      if String.eqb (type t) "EOF" then ret items
      else if String.eqb (type t) "USING" then
        eat (Some "USING"%string) None ;;
        eat (Some "ID"%string) None ;;
        using_dots n ;;
        eat (Some "OP"%string) (OP ";") ;;
        program_items n items
      else if String.eqb (type t) "NAMESPACE" then
        eat (Some "NAMESPACE"%string) None ;;
        eat (Some "ID"%string) None ;;
        let* b := parse_block n in
        program_items n (items ++ [b])
      else
        let* s := parse_statement n in
        program_items n (items ++ [s])
  end.

End Parse.

(** [parse_program(src)]: the body of the program node. *)
Definition parse_program (h : host) (n : nat) (src : pystr) : res (list stmt) :=
  fst (program_items h (lex (unicode_Nd h) src) n [] 0%nat).

End Parser.

(** ** Evaluator *)

Module Interp.
Import Ast.

(** *** The runtime state *)

(** An environment is a dictionary object passed by reference: either
    [rt.globals] itself or the dictionary created for one call. *)
Inductive envref := Globals | Frame (i : nat).

(** [rt.globals], the dictionaries of the calls, [rt.functions], the list
    objects, what was handed to [print], and the lines left on standard
    input. *)
Record state := mkState {
  globals : gmap string value;
  frames : list (gmap string value);
  functions : gmap string funcdecl;
  lists : list (list value);
  stdout : list (list value);
  stdin : list pystr
}.

Definition set_globals (g : gmap string value) (st : state) : state :=
  mkState g (frames st) (functions st) (lists st) (stdout st) (stdin st).
Definition set_frames (fr : list (gmap string value)) (st : state) : state :=
  mkState (globals st) fr (functions st) (lists st) (stdout st) (stdin st).
Definition set_functions (fs : gmap string funcdecl) (st : state) : state :=
  mkState (globals st) (frames st) fs (lists st) (stdout st) (stdin st).
Definition set_lists (ls : list (list value)) (st : state) : state :=
  mkState (globals st) (frames st) (functions st) ls (stdout st) (stdin st).
Definition set_stdout (o : list (list value)) (st : state) : state :=
  mkState (globals st) (frames st) (functions st) (lists st) o (stdin st).
Definition set_stdin (i : list pystr) (st : state) : state :=
  mkState (globals st) (frames st) (functions st) (lists st) (stdout st) i.

(** [Runtime()] *)
Definition Runtime (input : list pystr) : state :=
  mkState ∅ [] ∅ [] [] input.

(** *** Computations on the state *)

Definition M (A : Type) : Type := ST state A.

(** [try: m  except ReturnSignal as r: return r.value], then [return None]. *)
Definition catch_return (m : M unit) : M value :=
  λ st,
    match m st with
    | (Val _, st') => (Val VNone, st')
    | (Exc (ReturnSignal v), st') => (Val v, st')
    | (Exc e, st') => (Exc e, st')
    | (OutOfFuel, st') => (OutOfFuel, st')
    | (Unmodelled w, st') => (Unmodelled w, st')
    end.

(** *** Dictionaries and list objects *)

Definition env_dict (env : envref) (st : state) : gmap string value :=
  match env with
  | Globals => globals st
  | Frame i => default ∅ (frames st !! i)
  end.

(** [env[name] = v] *)
Definition env_set (env : envref) (name : string) (v : value) : M unit :=
  modify (λ st,
    match env with
    | Globals => set_globals (<[name := v]> (globals st)) st
    | Frame i => set_frames (alter (<[name := v]>) i (frames st)) st
    end).

(** [dict(self.globals)]: a new dictionary with the bindings of the global
    one at this moment. *)
Definition copy_globals : M envref :=
  λ st, (Val (Frame (length (frames st))), set_frames (frames st ++ [globals st]) st).

(** The list object at an address. *)
Definition list_obj (a : nat) : M (list value) :=
  λ st,
    match lists st !! a with
    | Some l => (Val l, st)
    | None => (Unmodelled "dangling list reference", st)
    end.

(** A new list object. *)
Definition new_list (l : list value) : M value :=
  λ st, (Val (VList (length (lists st))), set_lists (lists st ++ [l]) st).

Definition list_write (a : nat) (l : list value) : M unit :=
  modify (λ st, set_lists (<[a := l]> (lists st)) st).

(** *** The host's operations on values *)

(** [bool(v)] *)
Definition truthy (v : value) : M bool :=
  match v with
  | VInt z => ret (negb (z =? 0)%Z)
  | VFloat f => ret (negb (PrimFloat.eqb f PrimFloat.zero))
  | VStr s => ret (negb (bool_decide (s = [])))
  | VBool b => ret b
  | VNone => ret false
  | VList a => let* l := list_obj a in ret (negb (bool_decide (l = [])))
  | VBuiltin _ => ret true
  | VConsole => ret true
  end.

(** [callable(v)] *)
Definition callable (v : value) : bool :=
  match v with VBuiltin _ => true | _ => false end.

(** Numbers: [bool] is a subclass of [int]. *)
Inductive numv := NInt (z : Z) | NFloat (f : float).

Definition as_num (v : value) : option numv :=
  match v with
  | VInt z => Some (NInt z)
  | VBool b => Some (NInt (Z.b2z b))
  | VFloat f => Some (NFloat f)
  | _ => None
  end.

Definition to_float (a : numv) : option float :=
  match a with
  | NInt z => float_of_Z z
  | NFloat f => Some f
  end.

Definition big_int : string := "conversion of an integer beyond 2^53 to float".

Definition with_floats {A} (a b : numv) (k : float → float → res A) : res A :=
  match to_float a, to_float b with
  | Some x, Some y => k x y
  | _, _ => Unmodelled big_int
  end.

Definition arith (iop : Z → Z → Z) (fop : float → float → float) (a b : numv)
  : res value :=
  match a, b with
  | NInt x, NInt y => Val (VInt (iop x y))
  | _, _ => with_floats a b (λ x y, Val (VFloat (fop x y)))
  end.

(** [a / b]: true division. *)
Definition true_div (a b : numv) : res value :=
  match a, b with
  | NInt x, NInt y =>
      if (y =? 0)%Z then Exc ZeroDivisionError
      else with_floats a b (λ x y, Val (VFloat (PrimFloat.div x y)))
  | _, _ =>
      with_floats a b (λ x y,
        if PrimFloat.eqb y PrimFloat.zero then Exc ZeroDivisionError
        else Val (VFloat (PrimFloat.div x y)))
  end.

(** [a % b]: the remainder has the sign of the divisor. *)
Definition modulo (a b : numv) : res value :=
  match a, b with
  | NInt x, NInt y =>
      if (y =? 0)%Z then Exc ZeroDivisionError else Val (VInt (x mod y)%Z)
  | _, _ =>
      with_floats a b (λ x y,
        if PrimFloat.eqb y PrimFloat.zero then Exc ZeroDivisionError
        else Unmodelled "float modulo")
  end.

Inductive cmpop := CEq | CLt | CGt | CLe | CGe.

Definition cmp_Z (c : cmpop) (x y : Z) : bool :=
  match c with
  | CEq => (x =? y)%Z | CLt => (x <? y)%Z | CGt => (y <? x)%Z
  | CLe => (x <=? y)%Z | CGe => (y <=? x)%Z
  end.

Definition cmp_float (c : cmpop) (x y : float) : bool :=
  match c with
  | CEq => PrimFloat.eqb x y | CLt => PrimFloat.ltb x y | CGt => PrimFloat.ltb y x
  | CLe => PrimFloat.leb x y | CGe => PrimFloat.leb y x
  end.

Definition cmp_num (c : cmpop) (a b : numv) : res bool :=
  match a, b with
  | NInt x, NInt y => Val (cmp_Z c x y)
  | _, _ => with_floats a b (λ x y, Val (cmp_float c x y))
  end.

(** Strings compare by code point, a proper prefix being smaller. *)
Fixpoint pystr_ltb (a b : pystr) : bool :=
  match a, b with
  | _, [] => false
  | [], _ :: _ => true
  | x :: a', y :: b' => (x <? y) || ((x =? y) && pystr_ltb a' b')
  end.

Definition cmp_str (c : cmpop) (a b : pystr) : bool :=
  match c with
  | CEq => pystr_eqb a b
  | CLt => pystr_ltb a b
  | CGt => pystr_ltb b a
  | CLe => negb (pystr_ltb b a)
  | CGe => negb (pystr_ltb a b)
  end.

Definition cmp_nat (c : cmpop) (x y : nat) : bool :=
  cmp_Z c (Z.of_nat x) (Z.of_nat y).

Definition builtin_eqb (a b : builtin) : bool :=
  match a, b with
  | WriteLine, WriteLine | ReadLine, ReadLine | List_ctor, List_ctor => true
  | _, _ => false
  end.

Definition list_cmp : string := "element-wise comparison of lists".

(** [l == r] *)
Definition equal (l r : value) : M bool :=
  match as_num l, as_num r with
  | Some a, Some b => lift (cmp_num CEq a b)
  | _, _ =>
      match l, r with
      | VStr a, VStr b => ret (pystr_eqb a b)
      | VNone, VNone => ret true
      | VConsole, VConsole => ret true
      | VBuiltin a, VBuiltin b => ret (builtin_eqb a b)
      | VList a, VList b =>
          if (a =? b)%nat then ret true
          else
            let* x := list_obj a in
            let* y := list_obj b in
            if negb (length x =? length y)%nat then ret false
            else if (length x =? 0)%nat then ret true
            else unmodelled list_cmp
      | _, _ => ret false
      end
  end.

(** [l < r], [l > r], [l <= r], [l >= r] *)
Definition order (c : cmpop) (l r : value) : M bool :=
  match as_num l, as_num r with
  | Some a, Some b => lift (cmp_num c a b)
  | _, _ =>
      match l, r with
      | VStr a, VStr b => ret (cmp_str c a b)
      | VList a, VList b =>
          let* x := list_obj a in
          let* y := list_obj b in
          if (length x =? 0)%nat || (length y =? 0)%nat
          then ret (cmp_nat c (length x) (length y))
          else unmodelled list_cmp
      | _, _ => raise TypeError
      end
  end.

(** [s * n] on sequences. *)
Definition repeat_seq {A} (l : list A) (n : Z) : list A :=
  mjoin (replicate (Z.to_nat n) l).

Definition as_int (v : value) : option Z :=
  match v with
  | VInt z => Some z
  | VBool b => Some (Z.b2z b)
  | _ => None
  end.

Definition op_add (l r : value) : M value :=
  match as_num l, as_num r with
  | Some a, Some b => lift (arith Z.add PrimFloat.add a b)
  | _, _ =>
      match l, r with
      | VStr a, VStr b => ret (VStr (a ++ b))
      | VList a, VList b =>
          let* x := list_obj a in
          let* y := list_obj b in
          new_list (x ++ y)
      | _, _ => raise TypeError
      end
  end.

Definition op_sub (l r : value) : M value :=
  match as_num l, as_num r with
  | Some a, Some b => lift (arith Z.sub PrimFloat.sub a b)
  | _, _ => raise TypeError
  end.

Definition op_mul (l r : value) : M value :=
  match as_num l, as_num r with
  | Some a, Some b => lift (arith Z.mul PrimFloat.mul a b)
  | _, _ =>
      match l, r with
      | VStr s, _ =>
          match as_int r with
          | Some n => ret (VStr (repeat_seq s n))
          | None => raise TypeError
          end
      | _, VStr s =>
          match as_int l with
          | Some n => ret (VStr (repeat_seq s n))
          | None => raise TypeError
          end
      | VList a, _ =>
          match as_int r with
          | Some n => let* x := list_obj a in new_list (repeat_seq x n)
          | None => raise TypeError
          end
      | _, VList a =>
          match as_int l with
          | Some n => let* x := list_obj a in new_list (repeat_seq x n)
          | None => raise TypeError
          end
      | _, _ => raise TypeError
      end
  end.

Definition op_div (l r : value) : M value :=
  match as_num l, as_num r with
  | Some a, Some b => lift (true_div a b)
  | _, _ => raise TypeError
  end.

(** [a % b]: the remainder of two numbers.  With a string on the left it
    is the host's printf-style formatting, which is left out. *)
Definition op_mod (l r : value) : M value :=
  match as_num l, as_num r with
  | Some a, Some b => lift (modulo a b)
  | _, _ =>
      match l with
      | VStr _ => unmodelled "printf-style string formatting"
      | _ => raise TypeError
      end
  end.

(** The table [ops] of [eval_expr], applied to the two operand values. *)
Definition ops (op : binop) (a b : value) : M value :=
  match op with
  | Add => op_add a b
  | Sub => op_sub a b
  | Mul => op_mul a b
  | Div => op_div a b
  | Mod => op_mod a b
  | Eq => let* c := equal a b in ret (VBool c)
  | Ne => let* c := equal a b in ret (VBool (negb c))
  | Lt => let* c := order CLt a b in ret (VBool c)
  | Gt => let* c := order CGt a b in ret (VBool c)
  | Le => let* c := order CLe a b in ret (VBool c)
  | Ge => let* c := order CGe a b in ret (VBool c)
  | And =>
      let* x := truthy a in
      if x then let* y := truthy b in ret (VBool y) else ret (VBool false)
  | Or =>
      let* x := truthy a in
      if x then ret (VBool true) else let* y := truthy b in ret (VBool y)
  end.

(** The table of unary operators of [eval_expr]. *)
Definition unary (op : unop) (v : value) : M value :=
  match op with
  | Neg =>
      match as_num v with
      | Some (NInt z) => ret (VInt (- z))
      | Some (NFloat f) => ret (VFloat (PrimFloat.opp f))
      | None => raise TypeError
      end
  | Not => let* b := truthy v in ret (VBool (negb b))
  | Pos =>
      match as_num v with
      | Some (NInt z) => ret (VInt z)
      | Some (NFloat f) => ret (VFloat f)
      | None => raise TypeError
      end
  end.

(** The position an index denotes in a sequence of length [n]: a negative
    index counts from the end. *)
Definition norm_index (n : nat) (i : Z) : option nat :=
  let j := if (i <? 0)%Z then (i + Z.of_nat n)%Z else i in
  if (0 <=? j)%Z && (j <? Z.of_nat n)%Z then Some (Z.to_nat j) else None.

(** [seq[i]] on the items of a sequence. *)
Definition seq_item {A} (l : list A) (i : Z) : res A :=
  match norm_index (length l) i with
  | Some k =>
      match l !! k with
      | Some x => Val x
      | None => Exc IndexError
      end
  | None => Exc IndexError
  end.

(** [tgt[idx]] *)
Definition getitem (tgt idx : value) : M value :=
  match tgt with
  | VList a =>
      match as_int idx with
      | Some i => let* l := list_obj a in lift (seq_item l i)
      | None => raise TypeError
      end
  | VStr s =>
      match as_int idx with
      | Some i => lift (res_map (λ c, VStr [c]) (seq_item s i))
      | None => raise TypeError
      end
  | _ => raise TypeError
  end.

(** [arr[idx] = v] *)
Definition setitem (arr idx v : value) : M unit :=
  match arr with
  | VList a =>
      match as_int idx with
      | Some i =>
          let* l := list_obj a in
          match norm_index (length l) i with
          | Some k => list_write a (<[k := v]> l)
          | None => raise IndexError
          end
      | None => raise TypeError
      end
  | _ => raise TypeError
  end.

(** *** The standard library *)

(** The dictionary that [load_stdlib] returns. *)
Definition load_stdlib : list (string * value) :=
  [ ("Console", VConsole); ("List", VBuiltin List_ctor) ]%string.

(** [self.stdlib.get(name, None)] *)
Definition stdlib_get (name : string) : option value :=
  snd <$> find (λ p, String.eqb (fst p) name) load_stdlib.

(** The methods that [load_stdlib] gives the class [CSList] of the lists
    that [List_ctor] makes. *)
Definition push_back (a : nat) (x : value) : M value :=
  let* l := list_obj a in list_write a (l ++ [x]) ;; ret VNone.

Definition add (a : nat) (x : value) : M value :=
  let* l := list_obj a in list_write a (l ++ [x]) ;; ret VNone.

Definition size (a : nat) : M value :=
  let* l := list_obj a in ret (VInt (Z.of_nat (length l))).

Definition starts_with_underscore (s : string) : bool :=
  match s with
  | String c _ => Ascii.eqb c "_"
  | EmptyString => false
  end.

Definition host_attr : string := "attribute the host gives every object".

(** [getattr(obj, part)]: the instance of [ConsoleNS] has the attributes
    WriteLine and ReadLine; the other attributes of the objects reachable
    from the standard library are the host's and all start with an
    underscore.  What the host answers for a name that starts with an
    underscore (an object for __dir__, __dict__ or __globals__,
    AttributeError for a name it does not know) is left out. *)
Definition getattr (obj : value) (part : string) : M value :=
  if starts_with_underscore part then unmodelled host_attr
  else
    match obj with
    | VConsole =>
        if String.eqb part "WriteLine" then ret (VBuiltin WriteLine)
        else if String.eqb part "ReadLine" then ret (VBuiltin ReadLine)
        else raise (AttributeError part)
    | VBuiltin _ => raise (AttributeError part)
    | _ => unmodelled host_attr
    end.

(** [input()], with the empty string at end of input. *)
Definition read_line : M value :=
  λ st,
    match stdin st with
    | line :: rest => (Val (VStr line), set_stdin rest st)
    | [] => (Val (VStr []), st)
    end.

(** Calling one of the callables of the standard library. *)
Definition call_builtin (b : builtin) (args : list value) : M value :=
  match b with
  | WriteLine => modify (λ st, set_stdout (stdout st ++ [args]) st) ;; ret VNone
  | ReadLine =>
      match args with
      | [] => read_line
      | _ => raise TypeError
      end
  | List_ctor =>
      match args with
      | [] => new_list []
      | _ => raise TypeError
      end
  end.

(** Calling the value [fn] with the evaluated arguments. *)
Definition call_value (fn : value) (args : list value) : M value :=
  match fn with
  | VBuiltin b => call_builtin b args
  | _ => raise TypeError
  end.

(** *** Names *)

Definition has_dot (s : string) : bool :=
  existsb (Ascii.eqb ".") (list_ascii_of_string s).

(** [s.split('.')] *)
Fixpoint split_dot (s : string) : list string :=
  match s with
  | EmptyString => [EmptyString]
  | String c r =>
      if Ascii.eqb c "." then EmptyString :: split_dot r
      else
        match split_dot r with
        | h :: t => String c h :: t
        | [] => [String c EmptyString]
        end
  end.

(** [for part in parts[1:]: obj = getattr(obj, part)] *)
Fixpoint getattr_chain (obj : value) (parts : list string) : M value :=
  match parts with
  | [] => ret obj
  | part :: parts' => let* o := getattr obj part in getattr_chain o parts'
  end.

(** The [var] case of [eval_expr]. *)
Definition lookup_var (env : envref) (name : string) : M value :=
  let* d := gets (env_dict env) in
  match d !! name with
  | Some v => ret v
  | None =>
      let* g := gets globals in
      match g !! name with
      | Some v => ret v
      | None =>
          if has_dot name then
            let parts := split_dot name in
            match stdlib_get (hd EmptyString parts) with
            | None => raise (NameError name)
            | Some obj => getattr_chain obj (tail parts)
            end
          else
            match stdlib_get name with
            | Some v => ret v
            | None => raise (NameError name)
            end
      end
  end.

(** [for name, val in zip(f['params'], args): new_env[name] = val] *)
Definition bind_params (new_env : envref) (params : list string) (args : list value)
  : M unit :=
  forM_ (zip params args) (λ p, env_set new_env (fst p) (snd p)).

(** [exec_block]: the statements of a block in order, in one environment. *)
Definition exec_block_with (exec : stmt → M unit) (body : list stmt) : M unit :=
  forM_ body exec.

(** *** The interpreter

    [eval_expr], [exec_stmt] and the three loops of [exec_stmt], with a
    budget that every call and every loop round lowers by one. *)
Fixpoint eval_expr (n : nat) (env : envref) (e : expr) {struct n} : M value :=
  match n with
  | O => out_of_fuel
  | S n =>
      match e with
      | ENumber (Int z) => ret (VInt z)
      | ENumber (Float f) => ret (VFloat f)
      | EString s => ret (VStr s)
      | EBool b => ret (VBool b)
      | EVar name => lookup_var env name
      | ECall callee args =>
          if has_dot callee && String.eqb (hd EmptyString (split_dot callee)) "Console"
          then
            let* fn := getattr VConsole (nth 1 (split_dot callee) EmptyString) in
            let* vs := mapM (eval_expr n env) args in
            call_value fn vs
          else if String.eqb callee "List" then call_builtin List_ctor []
          else
            let* fs := gets functions in
            match fs !! callee with
            | Some f =>
                let* vs := mapM (eval_expr n env) args in
                let* new_env := copy_globals in
                bind_params new_env (f_params f) vs ;;
                catch_return (exec_block_with (exec_stmt n new_env) (f_body f))
            | None =>
                let* d := gets (env_dict env) in
                match d !! callee with
                | Some fn =>
                    if callable fn then
                      let* vs := mapM (eval_expr n env) args in
                      call_value fn vs
                    else raise (NameError callee)
                | None => raise (NameError callee)
                end
            end
      | EIndex target index =>
          let* tgt := eval_expr n env (EVar target) in
          let* idx := eval_expr n env index in
          getitem tgt idx
      | EUnary op e1 =>
          let* v := eval_expr n env e1 in
          unary op v
      | EBin op lhs rhs =>
          let* l := eval_expr n env lhs in
          let* r := eval_expr n env rhs in
          ops op l r
      end
  end

with exec_stmt (n : nat) (env : envref) (s : stmt) {struct n} : M unit :=
  match n with
  | O => out_of_fuel
  | S n =>
      match s with
      | SBlock body => exec_block_with (exec_stmt n env) body
      | SVarDecl _ name init =>
          let* val :=
            match init with
            | Some e => eval_expr n env e
            | None => ret VNone
            end in
          env_set env name val
      | SAssign (TVar name) value =>
          let* d := gets (env_dict env) in
          if bool_decide (is_Some (d !! name)) then
            let* v := eval_expr n env value in env_set env name v
          else
            let* g := gets globals in
            if bool_decide (is_Some (g !! name)) then
              let* v := eval_expr n env value in env_set Globals name v
            else
              let* v := eval_expr n env value in env_set env name v
      | SAssign (TIndex target index) value =>
          let* arr := eval_expr n env (EVar target) in
          let* idx := eval_expr n env index in
          let* v := eval_expr n env value in
          setitem arr idx v
      | SExpr e => eval_expr n env e ;; ret tt
      | SIf cond then_ otherwise =>
          let* c := eval_expr n env cond in
          let* b := truthy c in
          if b then exec_stmt n env then_
          else
            match otherwise with
            | Some s' => exec_stmt n env s'
            | None => ret tt
            end
      | SWhile cond body => while_loop n env cond body
      | SFor init cond post body =>
          match init with
          | Some (InitDecl ty name i) => exec_stmt n env (SVarDecl ty name i)
          | Some (InitExpr e) => eval_expr n env e ;; ret tt
          | None => ret tt
          end ;;
          for_loop n env cond post body
      | SForeach name seq body =>
          let* d := gets (env_dict env) in
          let* g := gets globals in
          match default (default VNone (g !! seq)) (d !! seq) with
          | VList a => foreach_loop n env name a 0 body
          | VStr s =>
              forM_ s (λ c, env_set env name (VStr [c]) ;; exec_stmt n env body)
          | _ => raise TypeError
          end
      | SReturn value =>
          let* val :=
            match value with
            | Some e => eval_expr n env e
            | None => ret VNone
            end in
          raise (ReturnSignal val)
      | SFunc name params body rettype =>
          modify (λ st,
            set_functions (<[name := mkFunc name params body rettype]> (functions st)) st)
      end
  end

(** [while self.eval_expr(env, cond): self.exec_stmt(env, body)] *)
with while_loop (n : nat) (env : envref) (cond : expr) (body : stmt) {struct n}
  : M unit :=
  match n with
  | O => out_of_fuel
  | S n =>
      let* c := eval_expr n env cond in
      let* b := truthy c in
      if b then exec_stmt n env body ;; while_loop n env cond body
      else ret tt
  end

(** The [while True] loop of a for statement. *)
with for_loop (n : nat) (env : envref) (cond post : option expr) (body : stmt)
  {struct n} : M unit :=
  match n with
  | O => out_of_fuel
  | S n =>
      let* b :=
        match cond with
        | None => ret true
        | Some c => let* v := eval_expr n env c in truthy v
        end in
      if b then
        exec_stmt n env body ;;
        match post with
        | Some p => eval_expr n env p ;; ret tt
        | None => ret tt
        end ;;
        for_loop n env cond post body
      else ret tt
  end

(** [for val in seq] over a list object: the iterator reads the list at
    each round, position after position, whatever the body did to it. *)
with foreach_loop (n : nat) (env : envref) (name : string) (a i : nat) (body : stmt)
  {struct n} : M unit :=
  match n with
  | O => out_of_fuel
  | S n =>
      let* l := list_obj a in
      match l !! i with
      | Some val =>
          env_set env name val ;;
          exec_stmt n env body ;;
          foreach_loop n env name a (S i) body
      | None => ret tt
      end
  end.

Definition exec_block (n : nat) (env : envref) (body : list stmt) : M unit :=
  exec_block_with (exec_stmt n env) body.

(** The first loop of [run_source]: the func items. *)
Definition register_funcs (n : nat) (prog : list stmt) : M unit :=
  forM_ prog (λ item, if is_func item then exec_stmt n Globals item else ret tt).

(** The second loop of [run_source]: the other items. *)
Definition run_items (n : nat) (prog : list stmt) : M unit :=
  forM_ prog (λ item, if negb (is_func item) then exec_stmt n Globals item else ret tt).

(** The call of Main at the end of [run_source]: the call node is built
    with three positional arguments. *)
Definition call_Main (n : nat) : M value :=
  catch_return
    (let* call := lift (node [AStr "call"; AStr "Main"; AExprs []] []) in
     match expr_of_node call with
     | Some e => exec_stmt n Globals (SExpr e)
     | None => unmodelled "malformed node"
     end).

(** The rest of [run_source] once [parse_program] has returned the
    program: the two loops and the call of Main. *)
Definition run_program (n : nat) (prog : list stmt) : M value :=
  register_funcs n prog ;;
  run_items n prog ;;
  let* fs := gets functions in
  if bool_decide (is_Some (fs !! "Main")) then call_Main n else ret VNone.

(** [run_source(src)], with the lines of standard input; the budget [n]
    bounds the parser and the evaluation. *)
Definition run_source (h : Parser.host) (n : nat) (src : pystr) (input : list pystr)
  : res value * state :=
  match Parser.parse_program h n src with
  | Val prog => run_program n prog (Runtime input)
  | Exc e => (Exc e, Runtime input)
  | OutOfFuel => (OutOfFuel, Runtime input)
  | Unmodelled w => (Unmodelled w, Runtime input)
  end.

End Interp.

(** * Vocabulary of the statements *)

(** ** Lexer *)

(** A code point at which no alternative of the pattern can start, whatever
    follows it: not a decimal digit, not a quote, not the start of an
    identifier, not an operator character, not an ampersand or a bar (the
    only other starts of a two-character operator), not white space. *)
Definition starts_no_token (Nd : N → bool) (c : N) : bool :=
  negb (Nd c) && negb (c =? 34) && negb (Lexer.is_id_start c)
  && negb (Lexer.is_op_char c) && negb (c =? 38) && negb (c =? 124)
  && negb (Lexer.is_ws c).

Definition shift_match (m : Lexer.rmatch) : Lexer.rmatch :=
  Lexer.Match (Lexer.lastgroup m) (Lexer.mgroup m) (S (Lexer.mstart m)).

(** The same token, one offset further. *)
Definition shift_token (t : Lexer.Token) : Lexer.Token :=
  Lexer.mkToken (Lexer.type t) (Lexer.val t) (S (Lexer.pos t)).

(** ** String literals *)

(** The decoding the specification describes: a backslash followed by n, t,
    r, a backslash or a double quote stands for the conventional
    character. *)
Definition conventional_escape (e : N) : option N :=
  if e =? 110 then Some 10
  else if e =? 116 then Some 9
  else if e =? 114 then Some 13
  else if e =? 92 then Some 92
  else if e =? 34 then Some 34
  else None.

(** Written from the specification: exactly the five conventional escapes
    are decoded, every other code point is kept. *)
Fixpoint spec_unescape (s : pystr) : pystr :=
  match s with
  | [] => []
  | c :: r =>
      if c =? 92 then
        match r with
        | e :: r' =>
            match conventional_escape e with
            | Some x => x :: spec_unescape r'
            | None => 92 :: e :: spec_unescape r'
            end
        | [] => [92]
        end
      else c :: spec_unescape r
  end.

(** The characters that the host's decoder gives a meaning after a
    backslash. *)
Definition host_escape (e : N) : bool :=
  (e =? 10) || bool_decide (is_Some (Literal.simple_escape e)) || Literal.is_octal e
  || (e =? 120) || (e =? 117) || (e =? 85) || (e =? 78).

(** Every backslash is followed by one of the five conventional escape
    characters, or by a character that is no escape for the host. *)
Fixpoint conventional_only (s : pystr) : bool :=
  match s with
  | [] => true
  | c :: r =>
      if c =? 92 then
        match r with
        | e :: r' =>
            (bool_decide (is_Some (conventional_escape e)) || negb (host_escape e))
            && conventional_only r'
        | [] => false
        end
      else conventional_only r
  end.

(** ** Evaluator *)

Module Samples.
Import Ast Interp.

Definition main_src : string := "int Main() { return 7; }".

(** The program of [main_src]. *)
Definition main_returns_7 : list stmt :=
  [ SFunc "Main" [] [SReturn (Some (ENumber (Int 7)))] (cps "int") ].

Definition size_src : string := "var xs = List(); xs.size();".

(** The program of [size_src]. *)
Definition list_size : list stmt :=
  [ SVarDecl (cps "var") "xs" (Some (ECall "List" []));
    SExpr (ECall "xs.size" []) ].

(** The round trip of the specification. *)
Definition round_trip_src : string := "var xs = List(); xs.add(10); xs.add(20);".

(** The state after the declaration of xs. *)
Definition xs_declared : state :=
  mkState {[ "xs" := VList 0 ]} [] ∅ [[]] [] [].

Definition short_circuit_src : string :=
  "false && Console.WriteLine(); true || Console.WriteLine();".

(** false && Console.WriteLine() *)
Definition false_and_write : expr :=
  EBin And (EBool false) (ECall "Console.WriteLine" []).

(** true || Console.WriteLine() *)
Definition true_or_write : expr :=
  EBin Or (EBool true) (ECall "Console.WriteLine" []).

(** The program of [short_circuit_src]. *)
Definition short_circuit : list stmt :=
  [ SExpr false_and_write; SExpr true_or_write ].

Definition seven_src : string := "int seven(int a) { return 7; } seven();".

(** The program of [seven_src]. *)
Definition seven_called : list stmt :=
  [ SFunc "seven" ["a"] [SReturn (Some (ENumber (Int 7)))] (cps "int");
    SExpr (ECall "seven" []) ].

(** The function table with seven and with
    int first(int a) { return a; } *)
Definition first_declared : state :=
  mkState ∅ []
    (<[ "seven" := mkFunc "seven" ["a"] [SReturn (Some (ENumber (Int 7)))] (cps "int") ]>
       {[ "first" := mkFunc "first" ["a"] [SReturn (Some (EVar "a"))] (cps "int") ]})
    [] [] [].

(** A state in which xs is bound to a list of the two items 10 and 20. *)
Definition xs_10_20 : state :=
  mkState {[ "xs" := VList 0 ]} [] ∅ [[VInt 10; VInt 20]] [] [].

Definition hello_src : string := "Hello(); void Hello() { Console.WriteLine(); }".

(** The program of [hello_src]: the call stands above the declaration. *)
Definition call_before_decl : list stmt :=
  [ SExpr (ECall "Hello" []);
    SFunc "Hello" [] [SExpr (ECall "Console.WriteLine" [])] (cps "void") ].

Definition assign_src : string := "var x = 1; x = 2;".

(** The program of [assign_src]. *)
Definition assign_twice : list stmt :=
  [ SVarDecl (cps "var") "x" (Some (ENumber (Int 1)));
    SAssign (TVar "x") (ENumber (Int 2)) ].

(** At top level, after the declaration of x. *)
Definition x_is_1 : state :=
  mkState {[ "x" := VInt 1 ]} [] ∅ [] [] [].

(** In a call whose dictionary, number 0, is a copy of the global one. *)
Definition x_in_call : state :=
  mkState {[ "x" := VInt 1 ]} [{[ "x" := VInt 1 ]}] ∅ [] [] [].

(** void put(i, v) { xs[i] = v; }, with the global xs bound to the list of
    10 and 20. *)
Definition xs_with_put : state :=
  mkState {[ "xs" := VList 0 ]} []
    {[ "put" := mkFunc "put" ["i"; "v"]
                  [SAssign (TIndex "xs" (EVar "i")) (EVar "v")] (cps "void") ]}
    [[VInt 10; VInt 20]] [] [].

(** The same state inside the call put(1, 5), before the assignment. *)
Definition xs_in_put : state :=
  set_frames [<["v" := VInt 5]> (<["i" := VInt 1]> {[ "xs" := VList 0 ]})] xs_with_put.

(** void dup() { xs = xs + xs; xs[0] = 5; }, with the global xs bound to
    the list of 10 and 20. *)
Definition xs_with_dup : state :=
  mkState {[ "xs" := VList 0 ]} []
    {[ "dup" := mkFunc "dup" []
                  [SAssign (TVar "xs") (EBin Add (EVar "xs") (EVar "xs"));
                   SAssign (TIndex "xs" (ENumber (Int 0))) (ENumber (Int 5))]
                  (cps "void") ]}
    [[VInt 10; VInt 20]] [] [].

(** void store(xs) { xs[0] = 5; }, with the global xs bound to the list of
    10 and 20. *)
Definition xs_with_store : state :=
  mkState {[ "xs" := VList 0 ]} []
    {[ "store" := mkFunc "store" ["xs"]
                    [SAssign (TIndex "xs" (ENumber (Int 0))) (ENumber (Int 5))]
                    (cps "void") ]}
    [[VInt 10; VInt 20]] [] [].

Definition surplus_src : string :=
  "var a = 5; int first(int a) { return a; } var b = first();".

(** The program of [surplus_src]. *)
Definition surplus_param : list stmt :=
  [ SVarDecl (cps "var") "a" (Some (ENumber (Int 5)));
    SFunc "first" ["a"] [SReturn (Some (EVar "a"))] (cps "int");
    SVarDecl (cps "var") "b" (Some (ECall "first" [])) ].

End Samples.

(** The dictionary of a call: the bindings of the global dictionary,
    overwritten with the pairs of [zip(params, args)] in order. *)
Definition bound_env (params : list string) (vs : list value) (g : gmap string value)
  : gmap string value :=
  foldl (λ m p, <[fst p := snd p]> m) g (zip params vs).

(** The indices a sequence of length [len] accepts, and the position an
    accepted index denotes. *)
Definition index_ok (len : nat) (i : Z) : Prop :=
  (- Z.of_nat len ≤ i < Z.of_nat len)%Z.

Definition index_pos (len : nat) (i : Z) : nat :=
  Z.to_nat (if (i <? 0)%Z then i + Z.of_nat len else i)%Z.

(** The function table after the func items of a program, in order. *)
Definition register_item (fs : gmap string Ast.funcdecl) (item : Ast.stmt)
  : gmap string Ast.funcdecl :=
  match item with
  | Ast.SFunc name params body rettype =>
      <[name := Ast.mkFunc name params body rettype]> fs
  | _ => fs
  end.

(** ** What a run leaves alone *)

(** Every run of [m] from a state that satisfies [P] ends, normally or
    not, in a state related to the first one by [R]. *)
Definition pres (P : Interp.state → Prop) (R : Interp.state → Interp.state → Prop)
    {A} (m : Interp.M A) : Prop :=
  ∀ st r st', P st → m st = (r, st') → R st st'.

Definition any_state (_ : Interp.state) : Prop := True.

(** No name leaves the function table. *)
Definition functions_grow (st st' : Interp.state) : Prop :=
  dom (Interp.functions st) ⊆ dom (Interp.functions st').

(** What the evaluation of an expression leaves alone: the global
    dictionary and every dictionary of a call that exists already. *)
Definition expr_frame (st st' : Interp.state) : Prop :=
  Interp.globals st' = Interp.globals st
  ∧ (length (Interp.frames st) ≤ length (Interp.frames st'))%nat
  ∧ ∀ j, (j < length (Interp.frames st))%nat → Interp.frames st' !! j = Interp.frames st !! j.

(** A dictionary of a call holds every name of the global dictionary, as
    it does from its creation as a copy. *)
Definition covers_globals (env : Interp.envref) (st : Interp.state) : Prop :=
  match env with
  | Interp.Globals => True
  | Interp.Frame k =>
      ∃ d, Interp.frames st !! k = Some d ∧ dom (Interp.globals st) ⊆ dom d
  end.

(** What a statement run in the dictionary of a call leaves alone: the
    global dictionary and the other dictionaries; its own only gains
    names. *)
Definition stmt_frame (env : Interp.envref) (st st' : Interp.state) : Prop :=
  match env with
  | Interp.Globals => True
  | Interp.Frame k =>
      Interp.globals st' = Interp.globals st
      ∧ (length (Interp.frames st) ≤ length (Interp.frames st'))%nat
      ∧ (∀ j, j ≠ k → (j < length (Interp.frames st))%nat →
           Interp.frames st' !! j = Interp.frames st !! j)
      ∧ (∀ d, Interp.frames st !! k = Some d →
           ∃ d', Interp.frames st' !! k = Some d' ∧ dom d ⊆ dom d')
  end.

(** The environment is a dictionary that exists. *)
Definition env_valid (env : Interp.envref) (st : Interp.state) : Prop :=
  match env with
  | Interp.Globals => True
  | Interp.Frame k => (k < length (Interp.frames st))%nat
  end.

(** * Vocabulary of the further properties *)

(** ** Lexer *)

(** The token is the slice of the source at its offset, and lies within
    the source. *)
Definition token_at_source (src : pystr) (t : Lexer.Token) : Prop :=
  take (length (Lexer.val t)) (drop (Lexer.pos t) src) = Lexer.val t
  ∧ (Lexer.pos t + length (Lexer.val t) ≤ length src)%nat.

(** The token ends where the next one starts, or before. *)
Definition token_before (t t' : Lexer.Token) : Prop :=
  (Lexer.pos t + length (Lexer.val t) ≤ Lexer.pos t')%nat.

(** The token types that [lex] gives a reserved word. *)
Definition KEYWORD_TYPES : list string :=
  map (λ v, ascii_string (Lexer.upper v)) Lexer.KEYWORDS.

(** ** Parser *)

(** The token is the operator [s]. *)
Definition is_op (s : string) (t : Lexer.Token) : bool :=
  String.eqb (Lexer.type t) "OP" && pystr_eqb (Lexer.val t) (cps s).

(** From offset [i] on, [k] times a dot and an identifier. *)
Fixpoint dotted_at (toks : list Lexer.Token) (i k : nat) : Prop :=
  match k with
  | O => True
  | S k =>
      (∃ d x, toks !! i = Some d ∧ is_op "." d = true
              ∧ toks !! S i = Some x ∧ Lexer.type x = "ID"%string)
      ∧ dotted_at toks (S (S i)) k
  end.

(** A token at which a name ends: no dot, no opening parenthesis, no
    opening bracket. *)
Definition ends_name (t : Lexer.Token) : bool :=
  negb (is_op "." t) && negb (is_op "(" t) && negb (is_op "[" t).

(** An expression without an index and without a call that has
    arguments. *)
Fixpoint flat_expr (e : Ast.expr) : bool :=
  match e with
  | Ast.ENumber _ | Ast.EString _ | Ast.EBool _ | Ast.EVar _ => true
  | Ast.ECall _ args => match args with [] => true | _ :: _ => false end
  | Ast.EIndex _ _ => false
  | Ast.EUnary _ e1 => flat_expr e1
  | Ast.EBin _ a b => flat_expr a && flat_expr b
  end.

Definition flat_opt (o : option Ast.expr) : bool :=
  match o with Some e => flat_expr e | None => true end.

(** A statement whose expressions are all flat and that assigns to no
    index. *)
Fixpoint flat_stmt (s : Ast.stmt) : bool :=
  match s with
  | Ast.SBlock body => forallb flat_stmt body
  | Ast.SVarDecl _ _ init => flat_opt init
  | Ast.SAssign (Ast.TVar _) v => flat_expr v
  | Ast.SAssign (Ast.TIndex _ _) _ => false
  | Ast.SExpr e => flat_expr e
  | Ast.SIf c t o =>
      flat_expr c && flat_stmt t
      && match o with Some s' => flat_stmt s' | None => true end
  | Ast.SWhile c b => flat_expr c && flat_stmt b
  | Ast.SFor init c p b =>
      match init with
      | Some (Ast.InitDecl _ _ i) => flat_opt i
      | Some (Ast.InitExpr e) => flat_expr e
      | None => true
      end
      && flat_opt c && flat_opt p && flat_stmt b
  | Ast.SForeach _ _ b => flat_stmt b
  | Ast.SReturn v => flat_opt v
  | Ast.SFunc _ _ body _ => forallb flat_stmt body
  end.

(** Every value that the parsing step [m] returns satisfies [Q]. *)
Definition returns {A} (Q : A → Prop) (m : ST nat A) : Prop :=
  ∀ i a i', m i = (Val a, i') → Q a.

(** ** Evaluator *)

(** The elementary updates of the runtime state: a dictionary bound anew,
    a function registered, a list object made (empty, or from the items of
    lists that exist), an item of a list replaced, a line printed, a line of
    input consumed. *)
Inductive update : Interp.state → Interp.state → Prop :=
  | update_globals st g : update st (Interp.set_globals g st)
  | update_frames st fr : update st (Interp.set_frames fr st)
  | update_functions st fs : update st (Interp.set_functions fs st)
  | update_new_empty st :
      update st (Interp.set_lists (Interp.lists st ++ [[]]) st)
  | update_new_concat st x y :
      x ∈ Interp.lists st → y ∈ Interp.lists st →
      update st (Interp.set_lists (Interp.lists st ++ [x ++ y]) st)
  | update_new_repeat st x n :
      x ∈ Interp.lists st →
      update st (Interp.set_lists (Interp.lists st ++ [Interp.repeat_seq x n]) st)
  | update_item st a l k v :
      Interp.lists st !! a = Some l → (k < length l)%nat →
      update st (Interp.set_lists (<[a := <[k := v]> l]> (Interp.lists st)) st)
  | update_print st args :
      update st (Interp.set_stdout (Interp.stdout st ++ [args]) st)
  | update_read st line rest :
      Interp.stdin st = line :: rest → update st (Interp.set_stdin rest st).

(** No list object holds an item. *)
Definition all_empty (st : Interp.state) : Prop :=
  Forall (λ l, l = []) (Interp.lists st).

(** What was printed stays printed, and input is consumed from the front. *)
Definition io_grows (st st' : Interp.state) : Prop :=
  Interp.stdout st `prefix_of` Interp.stdout st'
  ∧ Interp.stdin st' `suffix_of` Interp.stdin st.

(** Every list object is still there, with as many items. *)
Definition lists_keep_length (st st' : Interp.state) : Prop :=
  ∀ a l, Interp.lists st !! a = Some l →
    ∃ l', Interp.lists st' !! a = Some l' ∧ length l' = length l.

(** Every line printed is empty: each came from a call of WriteLine
    without arguments. *)
Definition blank_output (st : Interp.state) : Prop :=
  Forall (λ line, line = []) (Interp.stdout st).

(** Every registered function has a flat body. *)
Definition flat_funcs (st : Interp.state) : Prop :=
  map_Forall (λ _ f, forallb flat_stmt (Ast.f_body f) = true) (Interp.functions st).

(** A run from a state with blank output and flat functions ends in such a
    state. *)
Definition prints_blank (st st' : Interp.state) : Prop :=
  blank_output st ∧ flat_funcs st → blank_output st' ∧ flat_funcs st'.


(** void set() { x = 2; }, with the global x bound to 1. *)
Definition x_with_set : Interp.state :=
  Interp.mkState {[ "x" := VInt 1 ]} []
    {[ "set" := Ast.mkFunc "set" []
                  [Ast.SAssign (Ast.TVar "x") (Ast.ENumber (Ast.Int 2))] (cps "void") ]}
    [] [] [].

(** A run of the parsing step [m] from offset [i] of [L] tokens moves the
    offset forward only and not past the end; when it returns, the offset
    is at least [lo]; and under the step budget that [E] states it does not
    stop for want of steps. *)
Definition within {A} (L : nat) (E : Prop) (lo : nat) (m : ST nat A) (i : nat) : Prop :=
  ∀ r i', m i = (r, i') →
    (i ≤ i')%nat ∧ (i' ≤ L)%nat ∧ (∀ a, r = Val a → (lo ≤ i')%nat) ∧ (E → r ≠ OutOfFuel).

(** 1 if the token at offset [i] is a binary operator that [parse_binop]
    takes at the level [minp], 0 otherwise. *)
Definition opens (toks : list Lexer.Token) (minp i : nat) : nat :=
  match toks !! i with
  | Some t =>
      match Parser.binary_op t with
      | Some (p, _) => if (p <? minp)%nat then 0%nat else 1%nat
      | None => 0%nat
      end
  | None => 0%nat
  end.
(** The host's steps that the evaluator leaves out, each answered with
    [Unmodelled]: reading an attribute whose name starts with an underscore
    (the attributes the host gives every object, such as __dir__ or
    __globals__), [%] with a string on the left (string formatting) or on
    floats, float arithmetic and comparison on an integer beyond 2^53, and
    the element-wise comparison of two lists that have items.  A statement
    about every run covers a run that takes such a step up to that step:
    the state it speaks of is the one in which the step is taken. *)

(** A number, a boolean, None, one of the library's functions or the
    Console object: the values that are neither a list nor a string. *)
Definition no_sequence (v : value) : bool :=
  match v with
  | VInt _ | VFloat _ | VBool _ | VNone | VBuiltin _ | VConsole => true
  | VStr _ | VList _ => false
  end.

(** A number, a boolean, None, a list, one of the library's functions or
    the Console object: the values that are no string. *)
Definition no_string (v : value) : bool :=
  match v with
  | VInt _ | VFloat _ | VBool _ | VNone | VList _ | VBuiltin _ | VConsole => true
  | VStr _ => false
  end.

(** A function statement whose name is the lexeme of an identifier token
    of [toks]; any other statement. *)
Definition named_by_ID (toks : list Lexer.Token) (s : Ast.stmt) : Prop :=
  match s with
  | Ast.SFunc name _ _ _ =>
      ∃ t, t ∈ toks ∧ Lexer.type t = "ID"%string ∧ name = Parser.name_of (Lexer.val t)
  | _ => True
  end.

(** * Properties *)

(** ** The lexer *)

Section LexerFacts.
Import Lexer.
Variable Nd : N → bool.

Lemma finditer_from_shift s : ∀ skip p,
  finditer_from Nd skip (S p) s = map shift_match (finditer_from Nd skip p s).
Proof.
  induction s as [|c s IH]; intros skip p; [reflexivity|].
  destruct skip as [|k]; simpl.
  - destruct (MASTER Nd (c :: s)) as [[g n]|]; simpl; rewrite IH; reflexivity.
  - apply IH.
Qed.

Lemma lex_loop_shift ms :
  lex_loop (map shift_match ms) = map shift_token (lex_loop ms).
Proof.
  induction ms as [|m ms IH]; [reflexivity|].
  simpl. destruct (is_skipped (lastgroup m)); simpl; rewrite IH; reflexivity.
Qed.

Lemma pair_in_op_pairs a b :
  pair_in a b op_pairs = true → is_op_char a = true ∨ a = 38 ∨ a = 124.
Proof.
  unfold pair_in, op_pairs. cbv [existsb fst snd]. intros H.
  repeat (apply orb_prop in H; destruct H as [H|H]);
    try discriminate;
    apply andb_prop in H; destruct H as [H _]; apply N.eqb_eq in H; subst a;
    auto.
Qed.


Lemma MASTER_none c rest :
  starts_no_token Nd c = true → MASTER Nd (c :: rest) = None.
Proof.
  unfold starts_no_token. intros H.
  apply andb_prop in H as [H Hws]. apply andb_prop in H as [H Hbar].
  apply andb_prop in H as [H Hamp]. apply andb_prop in H as [H Hop].
  apply andb_prop in H as [H Hid]. apply andb_prop in H as [Hnd Hq].
  apply negb_true_iff in Hws, Hbar, Hamp, Hop, Hid, Hnd, Hq.
  assert (Hp : ∀ b, pair_in c b op_pairs = false).
  { intros b. destruct (pair_in c b op_pairs) eqn:E; [|reflexivity].
    apply pair_in_op_pairs in E. destruct E as [E|[E|E]].
    - congruence.
    - subst c. discriminate.
    - subst c. discriminate. }
  assert (Hnum : match_NUMBER Nd (c :: rest) = None).
  { unfold match_NUMBER. cbn [span]. rewrite Hnd. reflexivity. }
  assert (Hstr : match_STRING (c :: rest) = None).
  { unfold match_STRING. rewrite Hq. reflexivity. }
  assert (Hident : match_ID (c :: rest) = None).
  { unfold match_ID. rewrite Hid. reflexivity. }
  assert (Hoper : match_OP (c :: rest) = None).
  { unfold match_OP. destruct rest as [|b r]; [|rewrite Hp]; rewrite Hop; reflexivity. }
  assert (Hspace : match_WS (c :: rest) = None).
  { unfold match_WS. cbn [span]. rewrite Hws. reflexivity. }
  assert (Hc : match_COMMENT (c :: rest) = None).
  { unfold match_COMMENT. destruct rest as [|b r]; [reflexivity|].
    destruct (c =? 47) eqn:E; [|reflexivity].
    apply N.eqb_eq in E. subst c. discriminate. }
  unfold MASTER, TOKEN_SPEC. cbn [first_match].
  rewrite Hnum, Hstr, Hident, Hoper, Hspace, Hc. reflexivity.
Qed.

Lemma lex_cons_unmatched c rest :
  MASTER Nd (c :: rest) = None →
  lex Nd (c :: rest) = map shift_token (lex Nd rest).
Proof.
  intros H. unfold lex, finditer. cbn [finditer_from]. rewrite H.
  rewrite finditer_from_shift, lex_loop_shift, map_app. reflexivity.
Qed.

End LexerFacts.

(** C4, as the claim states it, fails: in the source [a $ b] no token can
    start at the dollar sign (offset 2), yet [lex] reports nothing and
    returns the tokens on both sides of it. *)
Lemma lex_skips_dollar :
  Lexer.MASTER Lexer.ascii_Nd (cps "$ b") = None ∧
  Lexer.lex Lexer.ascii_Nd (cps "a $ b") =
    [ Lexer.mkToken "ID" (cps "a") 0; Lexer.mkToken "ID" (cps "b") 4;
      Lexer.mkToken "EOF" [] 5 ].
Proof. split; vm_compute; reflexivity. Qed.

(** C4, amended: [lex] has no error outcome.  For every table of decimal
    digits, at an offset where the pattern does not match, the scan yields
    no match and resumes at the next offset, so a source that begins with
    such a code point lexes to the tokens of the rest, one offset further;
    this is the case of every code point that can start no token.  Every
    source lexes to a token list that ends with the EOF token at the length
    of the source. *)
Theorem lex_never_reports (Nd : N → bool) (c : N) (rest : pystr) (p : nat) :
  Lexer.MASTER Nd (c :: rest) = None →
  Lexer.finditer_from Nd 0 p (c :: rest) = Lexer.finditer_from Nd 0 (S p) rest
  ∧ Lexer.lex Nd (c :: rest) = map shift_token (Lexer.lex Nd rest)
  ∧ (∀ c' rest', starts_no_token Nd c' = true → Lexer.MASTER Nd (c' :: rest') = None)
  ∧ (∀ src, ∃ toks,
      Lexer.lex Nd src = toks ++ [Lexer.mkToken "EOF" [] (length src)]).
Proof.
  intros Hm. split; [|split; [|split]].
  - cbn [Lexer.finditer_from]. rewrite Hm. reflexivity.
  - apply lex_cons_unmatched, Hm.
  - intros c' rest'. apply MASTER_none.
  - intros src. eexists. reflexivity.
Qed.

Lemma lex_never_reports_witness :
  Lexer.MASTER Lexer.ascii_Nd (cps "$ b") = None ∧
  Lexer.lex Lexer.ascii_Nd (cps "$ b") =
    map shift_token (Lexer.lex Lexer.ascii_Nd (cps " b")).
Proof.
  split; [reflexivity|].
  apply (lex_never_reports Lexer.ascii_Nd 36 (cps " b") 0). reflexivity.
Defined.

(** ** String literals *)

Section LiteralFacts.
Import Literal.

Lemma utf8_encode_ascii s :
  Forall (λ c, c < 128) s → utf8_encode s = Val s.
Proof.
  induction 1 as [|c s Hc _ IH]; [reflexivity|].
  cbn [utf8_encode]. unfold utf8_encode_cp.
  apply N.ltb_lt in Hc. rewrite Hc. cbn [res_bind]. rewrite IH. reflexivity.
Qed.

Lemma strip_quotes_literal content :
  strip_quotes (34 :: content ++ [34]) = content.
Proof. unfold strip_quotes. cbn [tail]. apply removelast_last. Qed.

Lemma conventional_is_simple e x :
  conventional_escape e = Some x → (e =? 10) = false ∧ simple_escape e = Some x.
Proof.
  unfold conventional_escape. intros H.
  repeat match type of H with
         | (if ?b then _ else _) = _ =>
             let E := fresh in destruct b eqn:E;
             [apply N.eqb_eq in E; subst e; inversion H; subst; split; reflexivity|]
         end.
  discriminate.
Qed.

Lemma not_host_escape e :
  host_escape e = false →
  (e =? 10) = false ∧ simple_escape e = None ∧ is_octal e = false
  ∧ ((e =? 120) || (e =? 117) || (e =? 85)) = false ∧ (e =? 78) = false
  ∧ conventional_escape e = None.
Proof.
  unfold host_escape. intros H.
  apply orb_false_elim in H as [H HN].
  apply orb_false_elim in H as [H HU].
  apply orb_false_elim in H as [H Hu].
  apply orb_false_elim in H as [H Hx].
  apply orb_false_elim in H as [H Ho].
  apply orb_false_elim in H as [H Hs'].
  apply bool_decide_eq_false in Hs'.
  assert (Hs : simple_escape e = None).
  { destruct (simple_escape e); [exfalso; apply Hs'; eauto | reflexivity]. }
  repeat split; try assumption.
  - rewrite Hx, Hu, HU. reflexivity.
  - destruct (conventional_escape e) eqn:E; [|reflexivity].
    apply conventional_is_simple in E. destruct E as [_ E]. congruence.
Qed.

Variable getcode : list N → option N.

Lemma decode_loop_conventional : ∀ fuel s,
  (length s ≤ fuel)%nat → conventional_only s = true →
  decode_loop getcode fuel s = Val (spec_unescape s).
Proof.
  induction fuel as [|fuel IH]; intros s Hlen Hok.
  - destruct s; [reflexivity | simpl in Hlen; lia].
  - destruct s as [|c r]; [reflexivity|].
    cbn [decode_loop spec_unescape conventional_only] in *.
    destruct (c =? 92) eqn:Ec; cbn [negb].
    + destruct r as [|e r']; [discriminate|].
      apply andb_prop in Hok. destruct Hok as [He Hr].
      assert (Hlen' : (length r' ≤ fuel)%nat) by (simpl in Hlen; lia).
      specialize (IH r' Hlen' Hr).
      apply orb_prop in He. destruct He as [He|He].
      * apply bool_decide_eq_true in He. destruct He as [x Hx].
        rewrite Hx. apply conventional_is_simple in Hx. destruct Hx as [E10 Es].
        rewrite E10, Es, IH. reflexivity.
      * apply negb_true_iff in He. apply not_host_escape in He.
        destruct He as (E10 & Es & Eo & Eh & EN & Ecv).
        rewrite E10, Es, Eo, Eh, EN, Ecv, IH. reflexivity.
    + rewrite IH; [reflexivity | simpl in Hlen; lia | exact Hok].
Qed.

End LiteralFacts.

(** C7, as the claim states it, fails: the literal with contents backslash,
    a has the one-character value BEL (7), where the claim keeps the two
    characters; and the literal with the contents U+00E9 has the
    two-character value U+00C3 U+00A9. *)
Lemma string_value_not_conventional :
  Literal.string_value Literal.no_names (34 :: cps "\a" ++ [34]) = Val [7]
  ∧ spec_unescape (cps "\a") = [92; 97]
  ∧ Literal.string_value Literal.no_names [34; 233; 34] = Val [195; 169]
  ∧ spec_unescape [233] = [233].
Proof. repeat split; vm_compute; reflexivity. Qed.

(** C7, amended: for every string literal whose contents are ASCII and in
    which every backslash is followed by n, t, r, a backslash or a double
    quote, or by a character that is no escape for the host's decoder, the
    value is the contents with exactly those five escapes decoded and every
    other character unchanged. *)
Theorem string_value_conventional (getcode : list N → option N) (content : pystr) :
  Forall (λ c, c < 128) content →
  conventional_only content = true →
  Literal.string_value getcode (34 :: content ++ [34]) = Val (spec_unescape content).
Proof.
  intros Hascii Hok. unfold Literal.string_value.
  rewrite strip_quotes_literal, (utf8_encode_ascii _ Hascii). cbn [res_bind].
  unfold Literal.unicode_escape_decode.
  apply decode_loop_conventional; [lia | exact Hok].
Qed.

Lemma string_value_conventional_witness :
  Literal.string_value Literal.no_names (34 :: cps "a\n\q" ++ [34])
  = Val (cps "a" ++ [10; 92] ++ cps "q").
Proof.
  apply (string_value_conventional Literal.no_names (cps "a\n\q")).
  - repeat constructor.
  - reflexivity.
Defined.

(** ** The evaluator *)

Section EvalFacts.
Import Ast Interp.

Lemma bind_val {A B} (m : M A) (k : A → M B) st a st' :
  m st = (Val a, st') → bind m k st = k a st'.
Proof. intros H. unfold bind. rewrite H. reflexivity. Qed.

(** *** Calls *)

Lemma forM_env_set_frame (ps : list (string * value)) : ∀ fr g st,
  frames st = fr ++ [g] →
  forM_ ps (λ p, env_set (Frame (length fr)) (fst p) (snd p)) st =
    (Val tt, set_frames (fr ++ [foldl (λ m p, <[fst p := snd p]> m) g ps]) st).
Proof.
  induction ps as [|[k v] ps IH]; intros fr g st Hfr.
  - cbn. rewrite <- Hfr. destruct st; reflexivity.
  - cbn [forM_ foldl fst snd]. unfold bind at 1. cbn [env_set modify].
    rewrite Hfr.
    replace (alter <[k:=v]> (length fr) (fr ++ [g])) with (fr ++ [<[k:=v]> g]).
    2:{ rewrite <- (Nat.add_0_r (length fr)) at 1. rewrite alter_app_r. reflexivity. }
    rewrite (IH fr (<[k:=v]> g)); reflexivity.
Qed.

Lemma bind_params_fresh ps vs st :
  bind_params (Frame (length (frames st))) ps vs
    (set_frames (frames st ++ [globals st]) st) =
  (Val tt, set_frames (frames st ++ [bound_env ps vs (globals st)]) st).
Proof.
  unfold bind_params.
  rewrite (forM_env_set_frame _ (frames st) (globals st)); reflexivity.
Qed.

(** The call of a registered function: the arguments, then a copy of the
    global dictionary with the parameters bound, then the body. *)
Lemma call_user n env callee args st f vs st1 :
  (has_dot callee && String.eqb (hd EmptyString (split_dot callee)) "Console") = false →
  callee ≠ "List" →
  functions st !! callee = Some f →
  mapM (eval_expr n env) args st = (Val vs, st1) →
  eval_expr (S n) env (ECall callee args) st =
    catch_return (exec_block n (Frame (length (frames st1))) (f_body f))
      (set_frames (frames st1 ++ [bound_env (f_params f) vs (globals st1)]) st1).
Proof.
  intros Hc Hl Hf Hargs. cbn [eval_expr]. rewrite Hc.
  destruct (String.eqb_spec callee "List") as [|_]; [contradiction|].
  unfold bind at 1. cbn [gets]. rewrite Hf.
  rewrite (bind_val _ _ _ _ _ Hargs).
  unfold bind at 1. cbn [copy_globals].
  unfold bind at 1. rewrite bind_params_fresh. reflexivity.
Qed.

Lemma bound_env_cons p ps v vs g :
  bound_env (p :: ps) (v :: vs) g = bound_env ps vs (<[p := v]> g).
Proof. reflexivity. Qed.

Lemma bound_env_other ps : ∀ vs g x,
  x ∉ ps → bound_env ps vs g !! x = g !! x.
Proof.
  induction ps as [|p ps IH]; intros vs g x Hx; [reflexivity|].
  destruct vs as [|v vs]; [reflexivity|].
  rewrite bound_env_cons, IH by set_solver.
  apply lookup_insert_ne. set_solver.
Qed.

Lemma bound_env_param ps : ∀ vs g i p v,
  NoDup ps → ps !! i = Some p → vs !! i = Some v →
  bound_env ps vs g !! p = Some v.
Proof.
  induction ps as [|q ps IH]; intros vs g i p v Hnd Hp Hv; [discriminate|].
  destruct vs as [|w vs]; [destruct i; discriminate|].
  apply NoDup_cons in Hnd. destruct Hnd as [Hq Hnd].
  rewrite bound_env_cons. destruct i as [|i]; simpl in Hp, Hv.
  - inversion Hp; inversion Hv; subst.
    rewrite bound_env_other by exact Hq. apply lookup_insert_eq.
  - eapply IH; eauto.
Qed.

Lemma bound_env_take ps : ∀ vs g,
  bound_env ps vs g = bound_env (take (length vs) ps) (take (length ps) vs) g.
Proof.
  induction ps as [|p ps IH]; intros vs g.
  - destruct vs; reflexivity.
  - destruct vs as [|v vs]; [reflexivity|].
    cbn [length take]. rewrite !bound_env_cons. apply IH.
Qed.

(** *** Indexing *)

Lemma norm_index_ok len i :
  index_ok len i → norm_index len i = Some (index_pos len i) ∧ (index_pos len i < len)%nat.
Proof.
  unfold index_ok, norm_index, index_pos. intros H.
  destruct (Z.ltb_spec i 0).
  - replace ((0 <=? i + Z.of_nat len)%Z && (i + Z.of_nat len <? Z.of_nat len)%Z)
      with true by (symmetry; apply andb_true_intro; split; [apply Z.leb_le|apply Z.ltb_lt]; lia).
    split; [reflexivity | lia].
  - replace ((0 <=? i)%Z && (i <? Z.of_nat len)%Z)
      with true by (symmetry; apply andb_true_intro; split; [apply Z.leb_le|apply Z.ltb_lt]; lia).
    split; [reflexivity | lia].
Qed.

Lemma norm_index_out len i :
  ¬ index_ok len i → norm_index len i = None.
Proof.
  unfold index_ok, norm_index. intros H.
  destruct (Z.ltb_spec i 0).
  - destruct (Z.leb_spec 0 (i + Z.of_nat len)); [|reflexivity].
    destruct (Z.ltb_spec (i + Z.of_nat len) (Z.of_nat len)); [|reflexivity]. lia.
  - destruct (Z.leb_spec 0 i); [|reflexivity].
    destruct (Z.ltb_spec i (Z.of_nat len)); [|reflexivity]. lia.
Qed.

Lemma seq_item_ok {A} (l : list A) i :
  index_ok (length l) i →
  ∃ x, l !! index_pos (length l) i = Some x ∧ seq_item l i = Val x.
Proof.
  intros H. destruct (norm_index_ok _ _ H) as [Hn Hlt].
  destruct (lookup_lt_is_Some_2 l _ Hlt) as [x Hx].
  exists x. split; [exact Hx|]. unfold seq_item. rewrite Hn, Hx. reflexivity.
Qed.

Lemma seq_item_out {A} (l : list A) i :
  ¬ index_ok (length l) i → seq_item l i = Exc IndexError.
Proof. intros H. unfold seq_item. rewrite (norm_index_out _ _ H). reflexivity. Qed.

End EvalFacts.

(** *** What the interpreter leaves alone *)

Section Preservation.
Import Ast Interp.

Variable RE : state → state → Prop.
Variable PS : envref → state → Prop.
Variable RS : envref → state → state → Prop.

Hypothesis RE_refl : ∀ st, RE st st.
Hypothesis RE_trans : ∀ a b c, RE a b → RE b c → RE a c.
Hypothesis RS_trans : ∀ env a b c, RS env a b → RS env b c → RS env a c.
Hypothesis RE_RS : ∀ env a b, RE a b → RS env a b.
Hypothesis PS_RS : ∀ env a b, PS env a → RS env a b → PS env b.
Hypothesis RE_lists : ∀ st ls, RE st (set_lists ls st).
Hypothesis RE_stdout : ∀ st o, RE st (set_stdout o st).
Hypothesis RE_stdin : ∀ st i, RE st (set_stdin i st).
Hypothesis RE_functions :
  ∀ st name f, RE st (set_functions (<[name := f]> (functions st)) st).
Hypothesis RS_env_set :
  ∀ env name v st, PS env st → RS env st (snd (env_set env name v st)).
Hypothesis RS_assign_global :
  ∀ env name v st st1,
    PS env st → env_dict env st !! name = None → is_Some (globals st !! name) →
    RS env st st1 → RS env st1 (snd (env_set Globals name v st1)).
Hypothesis PS_call :
  ∀ st ps vs,
    PS (Frame (length (frames st)))
       (set_frames (frames st ++ [bound_env ps vs (globals st)]) st).
Hypothesis RE_call :
  ∀ st ps vs st',
    RS (Frame (length (frames st)))
       (set_frames (frames st ++ [bound_env ps vs (globals st)]) st) st' →
    RE st st'.

Local Notation presE := (pres any_state RE).
Local Notation presS env := (pres (PS env) (RS env)).

Lemma presE_ret {A} (a : A) : presE (ret a).
Proof. intros st r st' _ H. inversion H. apply RE_refl. Qed.
Lemma presE_raise {A} e : presE (raise e : M A).
Proof. intros st r st' _ H. inversion H. apply RE_refl. Qed.
Lemma presE_out_of_fuel {A} : presE (out_of_fuel : M A).
Proof. intros st r st' _ H. inversion H. apply RE_refl. Qed.
Lemma presE_unmodelled {A} w : presE (unmodelled w : M A).
Proof. intros st r st' _ H. inversion H. apply RE_refl. Qed.
Lemma presE_lift {A} (x : res A) : presE (lift x).
Proof. intros st r st' _ H. inversion H. apply RE_refl. Qed.
Lemma presE_gets {A} (f : state → A) : presE (gets f).
Proof. intros st r st' _ H. inversion H. apply RE_refl. Qed.

Lemma presE_bind {A B} (m : M A) (k : A → M B) :
  presE m → (∀ a, presE (k a)) → presE (bind m k).
Proof.
  intros Hm Hk st r st' _. unfold bind.
  destruct (m st) as [[a|e| |w] st1] eqn:E; intros H;
    try solve [inversion H; subst; eapply Hm; [exact I | eauto]].
  eapply RE_trans; [eapply Hm | eapply Hk]; first [exact I | eauto].
Qed.

Lemma presS_bind env {A B} (m : M A) (k : A → M B) :
  presS env m → (∀ a, presS env (k a)) → presS env (bind m k).
Proof.
  intros Hm Hk st r st' HP. unfold bind.
  destruct (m st) as [[a|e| |w] st1] eqn:E; intros H;
    try solve [inversion H; subst; eapply Hm; eauto].
  eapply RS_trans; [eapply Hm | eapply Hk]; eauto.
Qed.

Lemma presS_presE env {A} (m : M A) : presE m → presS env m.
Proof. intros Hm st r st' _ H. eapply RE_RS, Hm; [exact I | exact H]. Qed.

Lemma presE_mapM {A B} (f : A → M B) l : (∀ a, presE (f a)) → presE (mapM f l).
Proof.
  intros Hf. induction l as [|a l IH]; cbn [mapM].
  - apply presE_ret.
  - apply presE_bind; [apply Hf|]. intros b.
    apply presE_bind; [apply IH|]. intros bs. apply presE_ret.
Qed.

Lemma presS_forM_ env {A} (f : A → M unit) l :
  (∀ a, presS env (f a)) → presS env (forM_ l f).
Proof.
  intros Hf. induction l as [|a l IH]; cbn [forM_].
  - apply presS_presE, presE_ret.
  - apply presS_bind; [apply Hf|]. intros _. apply IH.
Qed.

Lemma presS_catch_return env (m : M unit) : presS env m → presS env (catch_return m).
Proof.
  intros Hm st r st' HP. unfold catch_return.
  destruct (m st) as [[a|e| |w] st1] eqn:E; intros H.
  2: destruct e.
  all: inversion H; subst; eapply Hm; eauto.
Qed.

Lemma presE_list_obj a : presE (list_obj a).
Proof.
  intros st r st' _. unfold list_obj. destruct (lists st !! a); intros H;
    inversion H; apply RE_refl.
Qed.

Lemma presE_new_list l : presE (new_list l).
Proof. intros st r st' _ H. inversion H. apply RE_lists. Qed.

Lemma presE_list_write a l : presE (list_write a l).
Proof. intros st r st' _ H. inversion H. apply RE_lists. Qed.

Lemma presE_read_line : presE read_line.
Proof.
  intros st r st' _. unfold read_line. destruct (stdin st); intros H; inversion H.
  - apply RE_refl.
  - apply RE_stdin.
Qed.

Ltac presE_step :=
  first
    [ apply presE_ret | apply presE_raise | apply presE_out_of_fuel
    | apply presE_unmodelled | apply presE_lift | apply presE_gets
    | apply presE_list_obj | apply presE_new_list | apply presE_list_write
    | apply presE_read_line
    | apply presE_bind; [|intros ?]
    | match goal with
      | |- pres any_state _ (match ?x with _ => _ end) => destruct x
      | |- pres any_state _ (if ?x then _ else _) => destruct x
      end ].

Lemma presE_truthy v : presE (truthy v).
Proof. unfold truthy. repeat presE_step. Qed.

Lemma presE_equal a b : presE (equal a b).
Proof. unfold equal. repeat presE_step. Qed.

Lemma presE_order c a b : presE (order c a b).
Proof. unfold order. repeat presE_step. Qed.

Lemma presE_ops op a b : presE (ops op a b).
Proof.
  destruct op; cbn [ops]; unfold op_add, op_sub, op_mul, op_div, op_mod;
    repeat first [apply presE_truthy | apply presE_equal | apply presE_order | presE_step].
Qed.

Lemma presE_unary op v : presE (unary op v).
Proof. destruct op; cbn [unary]; repeat first [apply presE_truthy | presE_step]. Qed.

Lemma presE_getitem t i : presE (getitem t i).
Proof. unfold getitem. repeat presE_step. Qed.

Lemma presE_setitem a i v : presE (setitem a i v).
Proof. unfold setitem. repeat presE_step. Qed.

Lemma presE_getattr o p : presE (getattr o p).
Proof. unfold getattr. repeat presE_step. Qed.

Lemma presE_getattr_chain ps : ∀ o, presE (getattr_chain o ps).
Proof.
  induction ps as [|p ps IH]; intros o; cbn [getattr_chain].
  - apply presE_ret.
  - apply presE_bind; [apply presE_getattr | intros ?; apply IH].
Qed.

Lemma presE_lookup_var env name : presE (lookup_var env name).
Proof. unfold lookup_var. repeat first [apply presE_getattr_chain | presE_step]. Qed.

Lemma presE_call_builtin b args : presE (call_builtin b args).
Proof.
  destruct b; cbn [call_builtin]; repeat presE_step.
  intros st r st' _ H. inversion H. apply RE_stdout.
Qed.

Lemma presE_call_value fn args : presE (call_value fn args).
Proof. unfold call_value. repeat first [apply presE_call_builtin | presE_step]. Qed.

Lemma presS_env_set env name v : presS env (env_set env name v).
Proof.
  intros st r st' HP H. pose proof (RS_env_set env name v st HP) as HR.
  unfold env_set, modify in *. inversion H; subst. exact HR.
Qed.

Lemma presE_call_frame (exec : envref → stmt → M unit) ps vs body :
  (∀ env s, presS env (exec env s)) →
  presE (let* new_env := copy_globals in
         bind_params new_env ps vs ;;
         catch_return (exec_block_with (exec new_env) body)).
Proof.
  intros IH st r st' _ H. unfold bind at 1 in H. cbn [copy_globals] in H.
  unfold bind at 1 in H. rewrite bind_params_fresh in H.
  apply (RE_call st ps vs).
  eapply presS_catch_return; [|apply PS_call|exact H].
  apply presS_forM_. intros s. apply IH.
Qed.

Ltac pres_step :=
  first
    [ apply presE_truthy | apply presE_ops | apply presE_unary | apply presE_getitem
    | apply presE_setitem | apply presE_getattr | apply presE_lookup_var
    | apply presE_call_builtin | apply presE_call_value
    | presE_step
    | apply presS_env_set
    | apply presS_bind; [|intros ?]
    | match goal with
      | |- pres _ _ (match ?x with _ => _ end) => destruct x
      | |- pres _ _ (if ?x then _ else _) => destruct x
      end
    | apply presS_presE ].

Lemma interp_pres : ∀ n,
  (∀ env e, presE (eval_expr n env e))
  ∧ (∀ env s, presS env (exec_stmt n env s))
  ∧ (∀ env c b, presS env (while_loop n env c b))
  ∧ (∀ env c p b, presS env (for_loop n env c p b))
  ∧ (∀ env name a i b, presS env (foreach_loop n env name a i b)).
Proof.
  induction n as [|n (IHe & IHs & IHw & IHf & IHfe)].
  - repeat split; intros; cbn; try apply presS_presE; apply presE_out_of_fuel.
  - assert (He : ∀ env e, presE (eval_expr (S n) env e)).
    { intros env e. destruct e; cbn [eval_expr].
      - destruct value0; apply presE_ret.
      - apply presE_ret.
      - apply presE_ret.
      - apply presE_lookup_var.
      - destruct (has_dot callee && _).
        + repeat first [apply presE_mapM; intros ? | apply IHe | pres_step].
        + destruct (String.eqb callee "List"); [apply presE_call_builtin|].
          apply presE_bind; [apply presE_gets|]. intros fs.
          destruct (fs !! callee) as [f|].
          * apply presE_bind; [apply presE_mapM; intros ?; apply IHe|]. intros vs.
            apply presE_call_frame. exact IHs.
          * repeat first [apply presE_mapM; intros ? | apply IHe | pres_step].
      - repeat first [apply IHe | pres_step].
      - repeat first [apply IHe | pres_step].
      - repeat first [apply IHe | pres_step]. }
    split; [exact He|]. split; [|split; [|split]].
    + intros env s. destruct s; cbn [exec_stmt].
      * apply presS_forM_. intros s. apply IHs.
      * repeat first [apply IHe | pres_step].
      * destruct tgt.
        -- intros st r st' HP H. unfold bind at 1 in H. cbn [gets] in H.
           destruct (bool_decide (is_Some (env_dict env st !! name))) eqn:Ed.
           { revert H. apply presS_bind; [apply presS_presE, IHe| |exact HP].
             intros v. apply presS_env_set. }
           unfold bind at 1 in H. cbn [gets] in H.
           destruct (bool_decide (is_Some (globals st !! name))) eqn:Eg.
           2:{ revert H. apply presS_bind; [apply presS_presE, IHe| |exact HP].
               intros v. apply presS_env_set. }
           apply bool_decide_eq_false in Ed. apply bool_decide_eq_true in Eg.
           assert (Hn : env_dict env st !! name = None).
           { destruct (env_dict env st !! name); [exfalso; apply Ed; eauto|reflexivity]. }
           unfold bind in H.
           destruct (eval_expr n env value0 st) as [[v|e| |w] st1] eqn:Ev;
             try solve [inversion H; subst; eapply RE_RS, IHe; [exact I | eauto]].
           assert (HR : RS env st st1) by (eapply RE_RS, IHe; [exact I | eauto]).
           eapply RS_trans; [exact HR|].
           pose proof (RS_assign_global env name v st st1 HP Hn Eg HR) as HR2.
           unfold env_set, modify in *. inversion H; subst. exact HR2.
        -- repeat first [apply IHe | pres_step].
      * repeat first [apply IHe | pres_step].
      * repeat first [apply IHe | apply IHs | pres_step].
      * apply IHw.
      * apply presS_bind; [|intros _; apply IHf].
        repeat first [apply IHe | apply IHs | pres_step].
      * apply presS_bind; [apply presS_presE, presE_gets|]. intros d.
        apply presS_bind; [apply presS_presE, presE_gets|]. intros g.
        destruct (default (default VNone (g !! seq)) (d !! seq));
          try (apply presS_presE, presE_raise).
        -- apply presS_forM_. intros c.
           apply presS_bind; [apply presS_env_set | intros _; apply IHs].
        -- apply IHfe.
      * repeat first [apply IHe | pres_step].
      * apply presS_presE. intros st r st' _ H. inversion H. apply RE_functions.
    + intros env c b. cbn [while_loop].
      repeat first [apply IHe | apply IHs | apply IHw | pres_step].
    + intros env c p b. cbn [for_loop].
      repeat first [apply IHe | apply IHs | apply IHf | pres_step].
    + intros env name a i b. cbn [foreach_loop].
      repeat first [apply IHe | apply IHs | apply IHfe | pres_step].
Qed.

End Preservation.

Section FrameFacts.
Import Ast Interp.

Lemma bound_env_dom ps : ∀ vs g, dom g ⊆ dom (bound_env ps vs g).
Proof.
  induction ps as [|p ps IH]; intros vs g; [reflexivity|].
  destruct vs as [|v vs]; [reflexivity|].
  rewrite bound_env_cons. etrans; [|apply IH]. rewrite dom_insert. set_solver.
Qed.

Lemma expr_frame_refl st : expr_frame st st.
Proof. repeat split; auto. Qed.

Lemma expr_frame_trans a b c : expr_frame a b → expr_frame b c → expr_frame a c.
Proof.
  intros (Hg1 & Hl1 & Hf1) (Hg2 & Hl2 & Hf2). split; [congruence|]. split; [lia|].
  intros j Hj. rewrite Hf2 by lia. apply Hf1, Hj.
Qed.

Lemma stmt_frame_trans env a b c : stmt_frame env a b → stmt_frame env b c → stmt_frame env a c.
Proof.
  destruct env as [|k]; [intros; exact I|].
  intros (Hg1 & Hl1 & Hf1 & Hk1) (Hg2 & Hl2 & Hf2 & Hk2).
  split; [congruence|]. split; [lia|]. split.
  - intros j Hne Hj. rewrite Hf2 by (auto; lia). apply Hf1; auto.
  - intros d Hd. destruct (Hk1 d Hd) as (d1 & Hd1 & Hs1).
    destruct (Hk2 d1 Hd1) as (d2 & Hd2 & Hs2). exists d2. split; [exact Hd2|].
    set_solver.
Qed.

Lemma expr_stmt_frame env a b : expr_frame a b → stmt_frame env a b.
Proof.
  destruct env as [|k]; [intros; exact I|]. intros (Hg & Hl & Hf).
  split; [exact Hg|]. split; [exact Hl|]. split.
  - intros j _ Hj. apply Hf, Hj.
  - intros d Hd. exists d. split; [|reflexivity].
    rewrite Hf; [exact Hd|]. eapply lookup_lt_Some, Hd.
Qed.

Lemma covers_globals_frame env a b :
  covers_globals env a → stmt_frame env a b → covers_globals env b.
Proof.
  destruct env as [|k]; [intros; exact I|]. intros (d & Hd & Hs) (Hg & _ & _ & Hk).
  destruct (Hk d Hd) as (d' & Hd' & Hs'). exists d'. split; [exact Hd'|].
  rewrite Hg. set_solver.
Qed.

Lemma stmt_frame_env_set env name v st :
  covers_globals env st → stmt_frame env st (snd (env_set env name v st)).
Proof.
  destruct env as [|k]; [intros; exact I|]. intros (d & Hd & Hs). cbn.
  split; [reflexivity|]. split; [rewrite length_alter; lia|]. split.
  - intros j Hne _. apply list_lookup_alter_ne. auto.
  - intros d0 Hd0. rewrite Hd in Hd0. inversion Hd0; subst d0.
    exists (<[name:=v]> d). split.
    + rewrite list_lookup_alter_eq, Hd. reflexivity.
    + rewrite dom_insert. set_solver.
Qed.

Lemma stmt_frame_assign_global env name v st st1 :
  covers_globals env st → env_dict env st !! name = None → is_Some (globals st !! name) →
  stmt_frame env st st1 → stmt_frame env st1 (snd (env_set Globals name v st1)).
Proof.
  destruct env as [|k]; [intros; exact I|]. intros (d & Hd & Hs) Hn Hg _.
  exfalso. cbn in Hn. rewrite Hd in Hn. cbn in Hn.
  apply elem_of_dom in Hg. apply Hs in Hg. apply elem_of_dom in Hg.
  rewrite Hn in Hg. destruct Hg; discriminate.
Qed.

Lemma covers_globals_call st ps vs :
  covers_globals (Frame (length (frames st)))
    (set_frames (frames st ++ [bound_env ps vs (globals st)]) st).
Proof.
  cbn. exists (bound_env ps vs (globals st)). split.
  - rewrite lookup_app_r by lia. rewrite Nat.sub_diag. reflexivity.
  - apply bound_env_dom.
Qed.

Lemma expr_frame_call st ps vs st' :
  stmt_frame (Frame (length (frames st)))
    (set_frames (frames st ++ [bound_env ps vs (globals st)]) st) st' →
  expr_frame st st'.
Proof.
  cbn. rewrite length_app. cbn. intros (Hg & Hl & Hf & _).
  split; [exact Hg|]. split; [lia|].
  intros j Hj. rewrite Hf by lia. apply lookup_app_l, Hj.
Qed.

Lemma interp_frame n :
  (∀ env e, pres any_state expr_frame (eval_expr n env e))
  ∧ (∀ env s, pres (covers_globals env) (stmt_frame env) (exec_stmt n env s)).
Proof.
  destruct (interp_pres expr_frame covers_globals stmt_frame
    expr_frame_refl expr_frame_trans stmt_frame_trans expr_stmt_frame) with (n := n) as (He & Hs & _).
  all: eauto using covers_globals_frame, stmt_frame_env_set, stmt_frame_assign_global, covers_globals_call, expr_frame_call.
  all: intros; repeat split; cbn; auto.
Qed.

Lemma functions_grow_refl st : functions_grow st st.
Proof. unfold functions_grow. reflexivity. Qed.

Lemma functions_grow_trans a b c : functions_grow a b → functions_grow b c → functions_grow a c.
Proof. unfold functions_grow. set_solver. Qed.

Lemma interp_functions_grow n :
  (∀ env e, pres any_state functions_grow (eval_expr n env e))
  ∧ (∀ env s, pres any_state functions_grow (exec_stmt n env s)).
Proof.
  destruct (interp_pres functions_grow (λ _, any_state) (λ _, functions_grow)
    functions_grow_refl functions_grow_trans) with (n := n) as (He & Hs & _).
  all: eauto using functions_grow_trans.
  all: intros; unfold functions_grow; try destruct env; cbn; try reflexivity; try exact I.
  - rewrite dom_insert. set_solver.
Qed.

(** Evaluating an expression changes no binding of the global dictionary
    and no dictionary of a call that exists already. *)
Lemma eval_expr_frame n env e st r st' :
  eval_expr n env e st = (r, st') → expr_frame st st'.
Proof. intros H. eapply (proj1 (interp_frame n)); [exact I | exact H]. Qed.

Lemma mapM_eval_frame n env es st r st' :
  mapM (eval_expr n env) es st = (r, st') → expr_frame st st'.
Proof.
  intros H.
  eapply (presE_mapM expr_frame expr_frame_refl expr_frame_trans);
    [|exact I|exact H].
  intros e. apply (proj1 (interp_frame n)).
Qed.

(** *** The two loops of run_source *)

Lemma register_funcs_run n prog : ∀ st,
  register_funcs (S n) prog st =
    (Val tt, set_functions (foldl register_item (functions st) prog) st).
Proof.
  induction prog as [|item prog IH]; intros st; unfold register_funcs in *.
  - destruct st; reflexivity.
  - cbn [forM_ foldl]. unfold bind at 1.
    destruct item; cbn [is_func register_item exec_stmt ret modify]; rewrite IH;
      reflexivity.
Qed.

Lemma declared_registered prog : ∀ fs name ps b r,
  SFunc name ps b r ∈ prog →
  ∃ ps' b' r',
    foldl register_item fs prog !! name = Some (mkFunc name ps' b' r')
    ∧ SFunc name ps' b' r' ∈ prog.
Proof.
  induction prog as [|item prog IH] using rev_ind; intros fs name ps b r Hin.
  - inversion Hin.
  - rewrite foldl_app. cbn [foldl].
    assert (Hd : (∃ ps' b' r', item = SFunc name ps' b' r')
                 ∨ (∀ ps' b' r', item ≠ SFunc name ps' b' r')).
    { destruct item; try (right; intros; discriminate).
      destruct (decide (name0 = name)) as [->|Hne]; [left; eauto|].
      right. intros ? ? ? E. inversion E. contradiction. }
    destruct Hd as [(ps' & b' & r' & ->)|Hother].
    + exists ps', b', r'. cbn [register_item]. split; [apply lookup_insert_eq|].
      apply elem_of_app. right. apply list_elem_of_singleton. reflexivity.
    + assert (Hin' : SFunc name ps b r ∈ prog).
      { apply elem_of_app in Hin. destruct Hin as [Hin|Hin]; [exact Hin|].
        apply list_elem_of_singleton in Hin. exfalso. eapply Hother. eauto. }
      destruct (IH fs name ps b r Hin') as (ps' & b' & r' & Hl & Hi).
      exists ps', b', r'. split; [|apply elem_of_app; left; exact Hi].
      destruct item; cbn [register_item]; try exact Hl.
      rewrite lookup_insert_ne; [exact Hl|].
      intros ->. eapply Hother. reflexivity.
Qed.

(** *** Reading a bound name *)

Lemma lookup_var_bound env x v st :
  env_dict env st !! x = Some v →
  lookup_var env x st = (Val v, st).
Proof.
  intros H. unfold lookup_var, bind, gets. rewrite H. reflexivity.
Qed.

Lemma forM_app {A} (f : A → M unit) l1 l2 st :
  forM_ (l1 ++ l2) f st = bind (forM_ l1 f) (λ _, forM_ l2 f) st.
Proof.
  revert st. induction l1 as [|a l1 IH]; intros st; [reflexivity|].
  cbn [app forM_]. unfold bind.
  destruct (f a st) as [[u|e| |w] st1]; try reflexivity.
  rewrite IH. reflexivity.
Qed.

(** A block run in the dictionary of a call leaves the global dictionary
    alone. *)
Lemma exec_block_frame n k body st r st' :
  covers_globals (Frame k) st →
  exec_block n (Frame k) body st = (r, st') →
  stmt_frame (Frame k) st st'.
Proof.
  intros HP H.
  eapply (presS_forM_ expr_frame covers_globals stmt_frame expr_frame_refl
            stmt_frame_trans expr_stmt_frame covers_globals_frame (Frame k));
    [|exact HP|exact H].
  intros s. apply (proj2 (interp_frame n)).
Qed.

(** The second loop never takes a name out of the function table. *)
Lemma run_items_functions_grow n items : ∀ st r st',
  run_items n items st = (r, st') →
  dom (functions st) ⊆ dom (functions st').
Proof.
  unfold run_items. induction items as [|item items IH]; intros st r st'; cbn [forM_].
  - intros [= _ <-]. reflexivity.
  - unfold bind at 1. destruct (is_func item); cbn [negb].
    + unfold ret. apply IH.
    + destruct (exec_stmt n Globals item st) as [u st1] eqn:E.
      assert (Hg : dom (functions st) ⊆ dom (functions st1)).
      { eapply (proj2 (interp_functions_grow n)); [exact I | exact E]. }
      destruct u as [u|e| |w]; try (intros [= _ <-]; exact Hg).
      intros H. apply IH in H. set_solver.
Qed.

(** The second loop at a top-level call. *)
Lemma run_items_call n pre callee args post st1 st2 :
  run_items (S n) pre st1 = (Val tt, st2) →
  run_items (S n) (pre ++ SExpr (ECall callee args) :: post) st1 =
    bind (eval_expr n Globals (ECall callee args)) (λ _, run_items (S n) post) st2.
Proof.
  intros Hpre. unfold run_items in *. rewrite forM_app, (bind_val _ _ _ _ _ Hpre).
  cbn [forM_ is_func negb exec_stmt]. unfold bind.
  destruct (eval_expr n Globals (ECall callee args) st2) as [[u|e| |w] s']; reflexivity.
Qed.

End FrameFacts.


(** C1: the code does not do what the claim states.  Whenever both loops of
    [run_source] complete and the function table has a Main, building the
    call node raises TypeError: Main is not called (the state is the one
    the second loop left) and the program has no result.  Only without a
    Main does [run_source] return, with None. *)
Theorem run_program_Main_raises (n : nat) (prog : list Ast.stmt) (st st1 st2 : Interp.state) :
  Interp.register_funcs n prog st = (Val tt, st1) →
  Interp.run_items n prog st1 = (Val tt, st2) →
  Interp.run_program n prog st =
    if bool_decide (is_Some (Interp.functions st2 !! "Main"))
    then (Exc TypeError, st2) else (Val VNone, st2).
Proof.
  intros Ha Hb. unfold Interp.run_program.
  rewrite (bind_val _ _ _ _ _ Ha), (bind_val _ _ _ _ _ Hb).
  unfold bind at 1. unfold gets.
  destruct (bool_decide _); reflexivity.
Qed.

Lemma run_program_Main_raises_witness :
  Interp.run_program 5 Samples.main_returns_7 (Interp.Runtime []) =
    (Exc TypeError,
     Interp.set_functions
       {[ "Main" := Ast.mkFunc "Main" []
                      [Ast.SReturn (Some (Ast.ENumber (Ast.Int 7)))] (cps "int") ]}
       (Interp.Runtime [])).
Proof.
  rewrite (run_program_Main_raises 5 Samples.main_returns_7 (Interp.Runtime [])
             (Interp.set_functions
                {[ "Main" := Ast.mkFunc "Main" []
                               [Ast.SReturn (Some (Ast.ENumber (Ast.Int 7)))] (cps "int") ]}
                (Interp.Runtime []))
             (Interp.set_functions
                {[ "Main" := Ast.mkFunc "Main" []
                               [Ast.SReturn (Some (Ast.ENumber (Ast.Int 7)))] (cps "int") ]}
                (Interp.Runtime [])));
    [reflexivity | vm_compute; reflexivity | vm_compute; reflexivity].
Defined.

(** From the source: [main_src] parses to the program above, and running
    it raises TypeError. *)
Example main_src_raises :
  Parser.parse_program Parser.ascii_host 20 (cps Samples.main_src)
    = Val Samples.main_returns_7
  ∧ fst (Interp.run_source Parser.ascii_host 20 (cps Samples.main_src) [])
    = Exc TypeError.
Proof. split; vm_compute; reflexivity. Qed.

(** C2, as the claim states it, fails: with a false left operand of [&&]
    and with a true left operand of [||], the call in the right operand runs
    all the same and prints its (empty) line; the two statements of
    [Samples.short_circuit_src] print two lines. *)
Lemma right_operand_always_runs :
  Interp.eval_expr 3 Interp.Globals Samples.false_and_write (Interp.Runtime [])
    = (Val (VBool false), Interp.set_stdout [[]] (Interp.Runtime []))
  ∧ Interp.eval_expr 3 Interp.Globals Samples.true_or_write (Interp.Runtime [])
    = (Val (VBool true), Interp.set_stdout [[]] (Interp.Runtime []))
  ∧ Parser.parse_program Parser.ascii_host 20 (cps Samples.short_circuit_src)
    = Val Samples.short_circuit
  ∧ Interp.run_source Parser.ascii_host 20 (cps Samples.short_circuit_src) []
    = (Val VNone, Interp.set_stdout [[]; []] (Interp.Runtime [])).
Proof. repeat split; vm_compute; reflexivity. Qed.

(** C2, amended: for every binary operator, [&&] and [||] included, once
    the left operand has a value the right operand is evaluated in the state
    the left one produced, whatever that value is; only then are the two
    values combined. *)
Theorem bin_evaluates_both (n : nat) (env : Interp.envref) (op : Ast.binop)
    (a b : Ast.expr) (st st1 : Interp.state) (va : value) :
  Interp.eval_expr n env a st = (Val va, st1) →
  Interp.eval_expr (S n) env (Ast.EBin op a b) st =
    bind (Interp.eval_expr n env b) (λ vb, Interp.ops op va vb) st1.
Proof.
  intros Ha. cbn [Interp.eval_expr]. rewrite (bind_val _ _ _ _ _ Ha). reflexivity.
Qed.

Lemma bin_evaluates_both_witness :
  Interp.eval_expr 3 Interp.Globals Samples.false_and_write (Interp.Runtime []) =
    bind (Interp.eval_expr 2 Interp.Globals (Ast.ECall "Console.WriteLine" []))
      (λ vb, Interp.ops Ast.And (VBool false) vb) (Interp.Runtime []).
Proof.
  apply (bin_evaluates_both 2 Interp.Globals Ast.And (Ast.EBool false)).
  reflexivity.
Defined.

(** C3: the code does not do what the claim states.  A call whose callee
    is dotted with a first segment other than Console, such as xs.add,
    xs.push_back or xs.size, never reaches the methods of the list: unless
    the whole dotted name is a key of the function table or of the current
    dictionary, it raises NameError before an argument is evaluated. *)
Theorem member_call_raises_NameError (n : nat) (env : Interp.envref) (callee : string)
    (args : list Ast.expr) (st : Interp.state) :
  Interp.has_dot callee = true →
  hd EmptyString (Interp.split_dot callee) ≠ "Console" →
  Interp.functions st !! callee = None →
  Interp.env_dict env st !! callee = None →
  Interp.eval_expr (S n) env (Ast.ECall callee args) st = (Exc (NameError callee), st).
Proof.
  intros Hdot Hcon Hf He. cbn [Interp.eval_expr]. rewrite Hdot.
  destruct (String.eqb_spec (hd EmptyString (Interp.split_dot callee)) "Console")
    as [|_]; [contradiction|].
  destruct (String.eqb_spec callee "List") as [->|_]; [discriminate|].
  cbn [andb]. unfold bind, gets. rewrite Hf, He. reflexivity.
Qed.

Lemma member_call_raises_NameError_witness :
  Interp.eval_expr 3 Interp.Globals (Ast.ECall "xs.size" []) Samples.xs_declared
  = (Exc (NameError "xs.size"), Samples.xs_declared).
Proof.
  apply (member_call_raises_NameError 2 Interp.Globals "xs.size");
    [reflexivity | discriminate | reflexivity | reflexivity].
Defined.

(** From the source: [size_src] parses and stops at the member call, where
    the method size of the list would have returned 0; the round trip of
    the specification does not even parse, because its member calls have an
    argument. *)
Example member_calls_fail :
  Parser.parse_program Parser.ascii_host 20 (cps Samples.size_src)
    = Val Samples.list_size
  ∧ Interp.run_source Parser.ascii_host 20 (cps Samples.size_src) []
    = (Exc (NameError "xs.size"), Samples.xs_declared)
  ∧ Interp.size 0 Samples.xs_declared = (Val (VInt 0), Samples.xs_declared)
  ∧ Parser.parse_program Parser.ascii_host 20 (cps Samples.round_trip_src)
    = Exc TypeError.
Proof. repeat split; vm_compute; reflexivity. Qed.

(** C5, as the claim states it, fails: the one-parameter function seven
    called with no argument raises nothing, in the program of
    [Samples.seven_src] too; nor does the one-parameter function first
    called with two arguments. *)
Lemma arity_mismatch_is_no_error :
  Interp.eval_expr 5 Interp.Globals (Ast.ECall "seven" []) Samples.first_declared
    = (Val (VInt 7), Interp.set_frames [∅] Samples.first_declared)
  ∧ Parser.parse_program Parser.ascii_host 20 (cps Samples.seven_src)
    = Val Samples.seven_called
  ∧ fst (Interp.run_source Parser.ascii_host 20 (cps Samples.seven_src) []) = Val VNone
  ∧ Interp.eval_expr 5 Interp.Globals
      (Ast.ECall "first" [Ast.ENumber (Ast.Int 1); Ast.ENumber (Ast.Int 2)])
      Samples.first_declared
    = (Val (VInt 1), Interp.set_frames [{[ "a" := VInt 1 ]}] Samples.first_declared).
Proof. repeat split; vm_compute; reflexivity. Qed.

(** From the source: a parameter that gets no argument reads the global
    variable of its name.  In [Samples.surplus_src] the call first() binds
    no parameter, and the a that the body returns is the global a. *)
Example surplus_parameter_reads_global :
  Parser.parse_program Parser.ascii_host 20 (cps Samples.surplus_src)
    = Val Samples.surplus_param
  ∧ ∃ st', Interp.run_source Parser.ascii_host 20 (cps Samples.surplus_src) []
           = (Val VNone, st')
           ∧ Interp.globals st' !! "b" = Some (VInt 5).
Proof. split; [vm_compute; reflexivity|]. eexists. split; vm_compute; reflexivity. Qed.

(** C5, amended: a call of a registered function checks no arity.  Once
    the arguments have values, the body runs in a copy of the global
    dictionary overwritten with the pairs of parameters and arguments, in
    order, as far as both lists go.  Arguments beyond the parameters are
    evaluated and play no further part.  A parameter beyond the arguments
    gets no value of its own: unless an earlier parameter of the same name
    was given one, it reads what the copy has from the global dictionary,
    the value of the global variable of its name if there is one, and is
    unbound otherwise.  The parameters that have an argument are bound to
    it, position by position, when their names are distinct; so when the
    counts match and the names are distinct, every parameter is bound to
    the argument at its position.  A name that is no parameter keeps its
    global binding. *)
Theorem call_binds_params (n : nat) (env : Interp.envref) (callee : string)
    (args : list Ast.expr) (st st1 : Interp.state) (f : Ast.funcdecl) (vs : list value) :
  (Interp.has_dot callee
   && String.eqb (hd EmptyString (Interp.split_dot callee)) "Console") = false →
  callee ≠ "List" →
  Interp.functions st !! callee = Some f →
  mapM (Interp.eval_expr n env) args st = (Val vs, st1) →
  let new_env := bound_env (Ast.f_params f) vs (Interp.globals st1) in
  Interp.eval_expr (S n) env (Ast.ECall callee args) st =
    Interp.catch_return
      (Interp.exec_block n (Interp.Frame (length (Interp.frames st1))) (Ast.f_body f))
      (Interp.set_frames (Interp.frames st1 ++ [new_env]) st1)
  ∧ (length vs = length (Ast.f_params f) → NoDup (Ast.f_params f) →
     ∀ i p, Ast.f_params f !! i = Some p → new_env !! p = vs !! i)
  ∧ (∀ x, x ∉ Ast.f_params f → new_env !! x = Interp.globals st1 !! x)
  ∧ new_env = bound_env (take (length vs) (Ast.f_params f))
                (take (length (Ast.f_params f)) vs) (Interp.globals st1)
  ∧ (∀ i p, Ast.f_params f !! i = Some p → (length vs ≤ i)%nat →
       p ∉ take (length vs) (Ast.f_params f) →
       new_env !! p = Interp.globals st1 !! p)
  ∧ (NoDup (take (length vs) (Ast.f_params f)) →
     ∀ i p v, Ast.f_params f !! i = Some p → vs !! i = Some v → new_env !! p = Some v).
Proof.
  intros Hc Hl Hf Hargs new_env. split; [|split; [|split; [|split; [|split]]]].
  - apply call_user; assumption.
  - intros Hlen Hnd i p Hp.
    assert (Hi : (i < length vs)%nat) by (rewrite Hlen; eapply lookup_lt_Some; eauto).
    destruct (lookup_lt_is_Some_2 vs i Hi) as [v Hv]. rewrite Hv.
    eapply bound_env_param; eauto.
  - intros x Hx. apply bound_env_other. exact Hx.
  - apply bound_env_take.
  - intros i p _ _ Hp. unfold new_env. rewrite bound_env_take.
    apply bound_env_other. exact Hp.
  - intros Hnd i p v Hp Hv. unfold new_env. rewrite bound_env_take.
    pose proof (lookup_lt_Some _ _ _ Hp) as Hip.
    pose proof (lookup_lt_Some _ _ _ Hv) as Hiv.
    apply (bound_env_param _ _ _ i p v Hnd).
    + rewrite lookup_take_lt by lia. exact Hp.
    + rewrite lookup_take_lt by lia. exact Hv.
Qed.

Lemma call_binds_params_witness :
  Interp.eval_expr 5 Interp.Globals
    (Ast.ECall "first" [Ast.ENumber (Ast.Int 1); Ast.ENumber (Ast.Int 2)])
    Samples.first_declared
  = Interp.catch_return
      (Interp.exec_block 4 (Interp.Frame 0) [Ast.SReturn (Some (Ast.EVar "a"))])
      (Interp.set_frames [bound_env ["a"] [VInt 1; VInt 2] ∅] Samples.first_declared).
Proof.
  apply (call_binds_params 4 Interp.Globals "first"
           [Ast.ENumber (Ast.Int 1); Ast.ENumber (Ast.Int 2)]
           Samples.first_declared Samples.first_declared
           (Ast.mkFunc "first" ["a"] [Ast.SReturn (Some (Ast.EVar "a"))] (cps "int"))
           [VInt 1; VInt 2]);
    [reflexivity | discriminate | reflexivity | reflexivity].
Defined.

(** C6, as the claim states it, fails: on the list of the two items 10 and
    20 the index -1 reads the last item, and an assignment at index -2
    succeeds and replaces the first. *)
Lemma negative_index_succeeds :
  Interp.eval_expr 4 Interp.Globals
    (Ast.EIndex "xs" (Ast.EUnary Ast.Neg (Ast.ENumber (Ast.Int 1)))) Samples.xs_10_20
  = (Val (VInt 20), Samples.xs_10_20)
  ∧ Interp.exec_stmt 4 Interp.Globals
      (Ast.SAssign (Ast.TIndex "xs" (Ast.EUnary Ast.Neg (Ast.ENumber (Ast.Int 2))))
         (Ast.ENumber (Ast.Int 5))) Samples.xs_10_20
    = (Val tt, Interp.set_lists [[VInt 5; VInt 20]] Samples.xs_10_20).
Proof. split; vm_compute; reflexivity. Qed.

(** C6, amended: with the target bound to a list of length len and an
    integer index i, a read and an index-assignment succeed exactly when
    -len <= i < len; an index from 0 denotes the item at that position
    counted from zero, a negative index the item at position len + i; every
    other index raises IndexError. *)
Theorem index_from_either_end (n : nat) (env : Interp.envref) (target : string)
    (ie : Ast.expr) (st st0 st1 : Interp.state) (a : nat) (i : Z) :
  Interp.eval_expr n env (Ast.EVar target) st = (Val (VList a), st0) →
  Interp.eval_expr n env ie st0 = (Val (VInt i), st1) →
  (∀ l, Interp.lists st1 !! a = Some l →
     (index_ok (length l) i →
        ∃ x, l !! index_pos (length l) i = Some x
             ∧ Interp.eval_expr (S n) env (Ast.EIndex target ie) st = (Val x, st1))
     ∧ (¬ index_ok (length l) i →
        Interp.eval_expr (S n) env (Ast.EIndex target ie) st = (Exc IndexError, st1)))
  ∧ (∀ ve v st2 l, Interp.eval_expr n env ve st1 = (Val v, st2) →
     Interp.lists st2 !! a = Some l →
     (index_ok (length l) i →
        Interp.exec_stmt (S n) env (Ast.SAssign (Ast.TIndex target ie) ve) st
        = (Val tt, Interp.set_lists
                     (<[a := <[index_pos (length l) i := v]> l]> (Interp.lists st2)) st2))
     ∧ (¬ index_ok (length l) i →
        Interp.exec_stmt (S n) env (Ast.SAssign (Ast.TIndex target ie) ve) st
        = (Exc IndexError, st2)))
  ∧ (index_ok 0 i ↔ False)
  ∧ (∀ len, (0 ≤ i)%Z → index_ok len i → index_pos len i = Z.to_nat i)
  ∧ (∀ len, (i < 0)%Z → index_ok len i → index_pos len i = Z.to_nat (Z.of_nat len + i)).
Proof.
  intros Ht Hi. split; [|split; [|split; [|split]]].
  - intros l Hl.
    assert (E : Interp.eval_expr (S n) env (Ast.EIndex target ie) st
                = (Interp.seq_item l i, st1)).
    { cbn [Interp.eval_expr]. rewrite (bind_val _ _ _ _ _ Ht), (bind_val _ _ _ _ _ Hi).
      cbn [Interp.getitem Interp.as_int]. unfold bind, Interp.list_obj. rewrite Hl.
      reflexivity. }
    split; intros H.
    + destruct (seq_item_ok l i H) as (x & Hx & Hs). exists x.
      split; [exact Hx|]. rewrite E, Hs. reflexivity.
    + rewrite E, (seq_item_out l i H). reflexivity.
  - intros ve v st2 l Hv Hl.
    assert (E : Interp.exec_stmt (S n) env (Ast.SAssign (Ast.TIndex target ie) ve) st
                = match Interp.norm_index (length l) i with
                  | Some k => Interp.list_write a (<[k := v]> l) st2
                  | None => (Exc IndexError, st2)
                  end).
    { cbn [Interp.exec_stmt].
      rewrite (bind_val _ _ _ _ _ Ht), (bind_val _ _ _ _ _ Hi), (bind_val _ _ _ _ _ Hv).
      cbn [Interp.setitem Interp.as_int]. unfold bind at 1. unfold Interp.list_obj.
      rewrite Hl. destruct (Interp.norm_index (length l) i); reflexivity. }
    split; intros H.
    + rewrite E. destruct (norm_index_ok _ _ H) as [-> _]. reflexivity.
    + rewrite E, (norm_index_out _ _ H). reflexivity.
  - unfold index_ok. simpl. lia.
  - intros len H0 _. unfold index_pos.
    destruct (Z.ltb_spec i 0); [lia | reflexivity].
  - intros len H0 _. unfold index_pos.
    destruct (Z.ltb_spec i 0); [f_equal; lia | lia].
Qed.

Lemma index_from_either_end_witness :
  ∃ x, [VInt 10; VInt 20] !! index_pos 2 (-1) = Some x
       ∧ Interp.eval_expr 4 Interp.Globals
           (Ast.EIndex "xs" (Ast.EUnary Ast.Neg (Ast.ENumber (Ast.Int 1))))
           Samples.xs_10_20
         = (Val x, Samples.xs_10_20).
Proof.
  refine (proj1 (proj1 (index_from_either_end 3 Interp.Globals "xs"
            (Ast.EUnary Ast.Neg (Ast.ENumber (Ast.Int 1)))
            Samples.xs_10_20 Samples.xs_10_20 Samples.xs_10_20 0 (-1) _ _)
            [VInt 10; VInt 20] _) _).
  - reflexivity.
  - reflexivity.
  - reflexivity.
  - unfold index_ok. simpl. lia.
Defined.

(** A call above the declaration it names: [Samples.hello_src] parses to
    [Samples.call_before_decl] and prints its line. *)
Example call_before_decl_runs :
  Parser.parse_program Parser.ascii_host 20 (cps Samples.hello_src)
    = Val Samples.call_before_decl
  ∧ Interp.run_source Parser.ascii_host 20 (cps Samples.hello_src) []
    = (Val VNone,
       Interp.mkState ∅ [∅]
         {[ "Hello" := Ast.mkFunc "Hello" []
                         [Ast.SExpr (Ast.ECall "Console.WriteLine" [])] (cps "void") ]}
         [] [[]] []).
Proof. split; vm_compute; reflexivity. Qed.

(** C9, as the claim states it, fails: at top level the current environment
    is the global dictionary; x is bound in it, and the assignment x = 2 of
    [Samples.assign_src] changes the global environment. *)
Lemma toplevel_assign_changes_globals :
  is_Some (Interp.env_dict Interp.Globals Samples.x_is_1 !! "x")
  ∧ Interp.exec_stmt 2 Interp.Globals
      (Ast.SAssign (Ast.TVar "x") (Ast.ENumber (Ast.Int 2))) Samples.x_is_1
    = (Val tt, Interp.set_globals {[ "x" := VInt 2 ]} Samples.x_is_1)
  ∧ Interp.globals (Interp.set_globals {[ "x" := VInt 2 ]} Samples.x_is_1) !! "x"
    ≠ Interp.globals Samples.x_is_1 !! "x"
  ∧ Parser.parse_program Parser.ascii_host 20 (cps Samples.assign_src)
    = Val Samples.assign_twice
  ∧ Interp.run_source Parser.ascii_host 20 (cps Samples.assign_src) []
    = (Val VNone, Interp.set_globals {[ "x" := VInt 2 ]} Samples.x_is_1).
Proof.
  split; [|split; [|split; [|split]]].
  - exists (VInt 1). reflexivity.
  - vm_compute. reflexivity.
  - vm_compute. discriminate.
  - vm_compute. reflexivity.
  - vm_compute. reflexivity.
Qed.

(** C9, amended: when the right-hand side has the value v, an assignment
    to a simple name completes and changes one dictionary.  If the name is
    bound in the current environment, that binding becomes v; otherwise, if
    it is bound in the global dictionary, the global binding becomes v and
    the current environment is unchanged; otherwise the name is bound to v
    in the current environment.  The global dictionary is unchanged in the
    first and third case when the current environment is the dictionary of
    a call; at top level the current environment is the global dictionary
    itself. *)
Theorem assign_updates_one_scope (n : nat) (env : Interp.envref) (name : string)
    (rhs : Ast.expr) (st st1 : Interp.state) (v : value) :
  Interp.eval_expr n env rhs st = (Val v, st1) →
  env_valid env st →
  ∃ st',
    Interp.exec_stmt (S n) env (Ast.SAssign (Ast.TVar name) rhs) st = (Val tt, st')
    ∧ (is_Some (Interp.env_dict env st !! name) →
         Interp.env_dict env st' = <[name := v]> (Interp.env_dict env st)
         ∧ (env ≠ Interp.Globals → Interp.globals st' = Interp.globals st))
    ∧ (Interp.env_dict env st !! name = None → is_Some (Interp.globals st !! name) →
         Interp.globals st' = <[name := v]> (Interp.globals st)
         ∧ Interp.env_dict env st' = Interp.env_dict env st)
    ∧ (Interp.env_dict env st !! name = None → Interp.globals st !! name = None →
         Interp.env_dict env st' = <[name := v]> (Interp.env_dict env st)
         ∧ (env ≠ Interp.Globals → Interp.globals st' = Interp.globals st)).
Proof.
  intros Hv Hvalid.
  destruct (eval_expr_frame _ _ _ _ _ _ Hv) as (Hg & Hlen & Hfr).
  assert (Hd : Interp.env_dict env st1 = Interp.env_dict env st).
  { destruct env as [|k]; [exact Hg|]. cbn. rewrite (Hfr k Hvalid). reflexivity. }
  assert (Hset : ∀ st', snd (Interp.env_set env name v st1) = st' →
            Interp.env_dict env st' = <[name := v]> (Interp.env_dict env st)
            ∧ (env ≠ Interp.Globals → Interp.globals st' = Interp.globals st)).
  { intros st' <-. rewrite <- Hd. destruct env as [|k]; cbn.
    - split; [reflexivity | intros H; contradiction].
    - split; [|intros _; exact Hg].
      rewrite list_lookup_alter_eq.
      cbn in Hvalid. destruct (lookup_lt_is_Some_2 (Interp.frames st1) k) as [d ->];
        [lia | reflexivity]. }
  cbn [Interp.exec_stmt]. unfold bind at 1. cbn [gets].
  destruct (bool_decide (is_Some (Interp.env_dict env st !! name))) eqn:Ed.
  - apply bool_decide_eq_true in Ed. rewrite (bind_val _ _ _ _ _ Hv).
    eexists. split; [reflexivity|]. split; [|split].
    + intros _. apply Hset. reflexivity.
    + intros Hn. rewrite Hn in Ed. destruct Ed; discriminate.
    + intros Hn. rewrite Hn in Ed. destruct Ed; discriminate.
  - apply bool_decide_eq_false in Ed. unfold bind at 1. cbn [gets].
    destruct (bool_decide (is_Some (Interp.globals st !! name))) eqn:Eg.
    + apply bool_decide_eq_true in Eg. rewrite (bind_val _ _ _ _ _ Hv).
      eexists. split; [reflexivity|]. split; [|split].
      * intros H. contradiction.
      * intros _ _. cbn. rewrite Hg. split; [reflexivity|].
        destruct env as [|k]; [|exact Hd].
        exfalso. apply Ed. exact Eg.
      * intros _ Hn. rewrite Hn in Eg. destruct Eg; discriminate.
    + apply bool_decide_eq_false in Eg. rewrite (bind_val _ _ _ _ _ Hv).
      eexists. split; [reflexivity|]. split; [|split].
      * intros H. contradiction.
      * intros _ H. contradiction.
      * intros _ _. apply Hset. reflexivity.
Qed.

Lemma assign_updates_one_scope_witness :
  ∃ st',
    Interp.exec_stmt 2 (Interp.Frame 0)
      (Ast.SAssign (Ast.TVar "x") (Ast.ENumber (Ast.Int 2))) Samples.x_in_call
    = (Val tt, st')
    ∧ Interp.env_dict (Interp.Frame 0) st' = <["x" := VInt 2]> {[ "x" := VInt 1 ]}
    ∧ Interp.globals st' = {[ "x" := VInt 1 ]}.
Proof.
  destruct (assign_updates_one_scope 1 (Interp.Frame 0) "x" (Ast.ENumber (Ast.Int 2))
              Samples.x_in_call Samples.x_in_call (VInt 2))
    as (st' & He & H1 & _).
  - reflexivity.
  - cbn. lia.
  - exists st'. split; [exact He|].
    destruct H1 as [Hd Hg]; [exists (VInt 1); reflexivity|].
    split; [exact Hd | apply Hg; discriminate].
Defined.

(** C10, as the claim states it, fails: an index-assignment in the body
    of a called function, to a name that the caller has bound to a list,
    is not always visible to the caller.  The body of dup rebinds xs to a
    new list before it stores into it; store has a parameter called xs and
    is handed a new list.  Either way the list that the global xs names
    still holds 10 at index 0 when the call has returned, and that is what
    the caller reads. *)
Lemma index_assignment_can_be_private :
  (∃ st', Interp.eval_expr 6 Interp.Globals (Ast.ECall "dup" []) Samples.xs_with_dup
          = (Val VNone, st')
          ∧ Interp.globals st' !! "xs" = Some (VList 0)
          ∧ Interp.lists st' !! 0%nat = Some [VInt 10; VInt 20]
          ∧ Interp.eval_expr 3 Interp.Globals
              (Ast.EIndex "xs" (Ast.ENumber (Ast.Int 0))) st'
            = (Val (VInt 10), st'))
  ∧ (∃ st', Interp.eval_expr 6 Interp.Globals
              (Ast.ECall "store" [Ast.EBin Ast.Add (Ast.EVar "xs") (Ast.EVar "xs")])
              Samples.xs_with_store
            = (Val VNone, st')
            ∧ Interp.globals st' !! "xs" = Some (VList 0)
            ∧ Interp.lists st' !! 0%nat = Some [VInt 10; VInt 20]
            ∧ Interp.eval_expr 3 Interp.Globals
                (Ast.EIndex "xs" (Ast.ENumber (Ast.Int 0))) st'
              = (Val (VInt 10), st')).
Proof.
  split; eexists; (split; [vm_compute; reflexivity|]); repeat split; vm_compute; reflexivity.
Qed.

(** C10, amended: a function is called while the global x names a list,
    and a statement of its body, reached after the statements before it
    have completed, is the index-assignment x[ie] = ve, run while x still
    names that list in the dictionary of the call (as it does on entry
    unless one of the parameters that get an argument is called x, and
    until the body rebinds x) with an index the list accepts.  Then the
    assignment stores into that very list, which the global dictionary and
    the dictionary of the call share; the call, however the rest of its
    body ends, leaves the bindings of the global dictionary as they were,
    so the caller's x names the list the callee stored into and an index
    expression on x reads the items that list holds now; when the
    assignment is the last statement of the body, the caller reads the new
    item at the same index.  No evaluation of an expression changes a
    global binding: a name rebound inside a function body is rebound in the
    dictionary of the call. *)
Theorem index_assignment_shared (n : nat) (env : Interp.envref) (callee x : string)
    (args : list Ast.expr) (pre post : list Ast.stmt) (ie ve : Ast.expr)
    (f : Ast.funcdecl) (st st1 sa st3 st4 st6 : Interp.state) (vs : list value)
    (a : nat) (i : Z) (v : value) (l : list value) (r : res unit) :
  let callee_env := Interp.Frame (length (Interp.frames st1)) in
  let st2 := Interp.set_frames
               (Interp.frames st1 ++ [bound_env (Ast.f_params f) vs (Interp.globals st1)])
               st1 in
  let l' := <[index_pos (length l) i := v]> l in
  let st5 := Interp.set_lists (<[a := l']> (Interp.lists st4)) st4 in
  Interp.has_dot callee = false → callee ≠ "List" →
  Interp.functions st !! callee = Some f →
  Ast.f_body f = pre ++ Ast.SAssign (Ast.TIndex x ie) ve :: post →
  Interp.globals st !! x = Some (VList a) →
  mapM (Interp.eval_expr (S n) env) args st = (Val vs, st1) →
  Interp.exec_block (S n) callee_env pre st2 = (Val tt, sa) →
  Interp.env_dict callee_env sa !! x = Some (VList a) →
  Interp.eval_expr n callee_env ie sa = (Val (VInt i), st3) →
  Interp.eval_expr n callee_env ve st3 = (Val v, st4) →
  Interp.lists st4 !! a = Some l →
  index_ok (length l) i →
  Interp.exec_block (S n) callee_env post st5 = (r, st6) →
  Interp.exec_block (S n) callee_env (pre ++ [Ast.SAssign (Ast.TIndex x ie) ve]) st2
    = (Val tt, st5)
  ∧ Interp.lists st5 !! a = Some l'
  ∧ l' !! index_pos (length l) i = Some v
  ∧ Interp.eval_expr (S (S n)) env (Ast.ECall callee args) st
    = (match r with
       | Val _ => Val VNone
       | Exc (ReturnSignal w) => Val w
       | Exc e => Exc e
       | OutOfFuel => OutOfFuel
       | Unmodelled w => Unmodelled w
       end, st6)
  ∧ Interp.globals st6 = Interp.globals st
  ∧ (∀ m l6 j, Interp.lists st6 !! a = Some l6 → index_ok (length l6) j →
       ∃ y, l6 !! index_pos (length l6) j = Some y
            ∧ Interp.eval_expr (S (S m)) Interp.Globals
                (Ast.EIndex x (Ast.ENumber (Ast.Int j))) st6 = (Val y, st6))
  ∧ (post = [] →
       r = Val tt ∧ st6 = st5
       ∧ ∀ m, Interp.eval_expr (S (S m)) Interp.Globals
                (Ast.EIndex x (Ast.ENumber (Ast.Int i))) st6 = (Val v, st6))
  ∧ (x ∉ take (length vs) (Ast.f_params f) →
       Interp.env_dict callee_env st2 !! x = Some (VList a))
  ∧ (∀ m env' e sb r' sc, Interp.eval_expr m env' e sb = (r', sc) →
       Interp.globals sc = Interp.globals sb).
Proof.
  intros callee_env st2 l' st5 Hdot Hl Hf Hbody Hgx Hargs Hpre Hxa Hie Hve Hla Hok Hpost.
  destruct (mapM_eval_frame _ _ _ _ _ _ Hargs) as (Hg1 & _ & _).
  destruct (norm_index_ok _ _ Hok) as [Hnorm Hpos].
  assert (Hn : ∃ n', n = S n').
  { destruct n; [discriminate Hie | eauto]. }
  destruct Hn as [n' ->].
  assert (Hlk : Interp.eval_expr (S n') callee_env (Ast.EVar x) sa = (Val (VList a), sa)).
  { cbn [Interp.eval_expr]. apply lookup_var_bound. exact Hxa. }
  assert (Hasg : Interp.exec_stmt (S (S n')) callee_env
                   (Ast.SAssign (Ast.TIndex x ie) ve) sa = (Val tt, st5)).
  { cbn [Interp.exec_stmt].
    rewrite (bind_val _ _ _ _ _ Hlk), (bind_val _ _ _ _ _ Hie), (bind_val _ _ _ _ _ Hve).
    cbn [Interp.setitem Interp.as_int]. unfold bind at 1. unfold Interp.list_obj.
    rewrite Hla, Hnorm. reflexivity. }
  assert (Hupto : Interp.exec_block (S (S n')) callee_env
                    (pre ++ [Ast.SAssign (Ast.TIndex x ie) ve]) st2 = (Val tt, st5)).
  { unfold Interp.exec_block, Interp.exec_block_with in *.
    rewrite forM_app, (bind_val _ _ _ _ _ Hpre). cbn [forM_].
    rewrite (bind_val _ _ _ _ _ Hasg). reflexivity. }
  assert (Hwhole : Interp.exec_block (S (S n')) callee_env (Ast.f_body f) st2 = (r, st6)).
  { rewrite Hbody. unfold Interp.exec_block, Interp.exec_block_with in *.
    rewrite forM_app, (bind_val _ _ _ _ _ Hpre). cbn [forM_].
    rewrite (bind_val _ _ _ _ _ Hasg). exact Hpost. }
  assert (Hcall : Interp.eval_expr (S (S (S n'))) env (Ast.ECall callee args) st
                  = (match r with
                     | Val _ => Val VNone
                     | Exc (ReturnSignal w) => Val w
                     | Exc e => Exc e
                     | OutOfFuel => OutOfFuel
                     | Unmodelled w => Unmodelled w
                     end, st6)).
  { rewrite (call_user _ _ _ _ _ f vs st1); try assumption.
    2:{ rewrite Hdot. reflexivity. }
    unfold Interp.catch_return. fold callee_env. fold st2. rewrite Hwhole.
    destruct r as [u|e| |w]; [reflexivity| |reflexivity|reflexivity].
    destruct e; reflexivity. }
  assert (Hg6 : Interp.globals st6 = Interp.globals st).
  { destruct (exec_block_frame _ _ _ _ _ _ (covers_globals_call st1 _ vs) Hwhole)
      as (Hgb & _ & _ & _).
    rewrite Hgb. cbn. exact Hg1. }
  assert (Hl5 : Interp.lists st5 !! a = Some l').
  { cbn. apply list_lookup_insert_eq. eapply lookup_lt_Some, Hla. }
  assert (Hv' : l' !! index_pos (length l) i = Some v).
  { apply list_lookup_insert_eq. exact Hpos. }
  assert (Hread : ∀ m l6 j, Interp.lists st6 !! a = Some l6 → index_ok (length l6) j →
            ∃ y, l6 !! index_pos (length l6) j = Some y
                 ∧ Interp.eval_expr (S (S m)) Interp.Globals
                     (Ast.EIndex x (Ast.ENumber (Ast.Int j))) st6 = (Val y, st6)).
  { intros m l6 j Hl6 Hj. destruct (seq_item_ok l6 j Hj) as (y & Hy & Hs).
    exists y. split; [exact Hy|]. cbn [Interp.eval_expr].
    assert (Hlx : Interp.lookup_var Interp.Globals x st6 = (Val (VList a), st6)).
    { apply lookup_var_bound. cbn [Interp.env_dict]. rewrite Hg6. exact Hgx. }
    rewrite (bind_val _ _ _ _ _ Hlx).
    unfold bind at 1. cbn [ret Interp.getitem Interp.as_int].
    unfold bind, Interp.list_obj. rewrite Hl6. unfold lift. rewrite Hs. reflexivity. }
  split; [exact Hupto|]. split; [exact Hl5|]. split; [exact Hv'|].
  split; [exact Hcall|]. split; [exact Hg6|]. split; [exact Hread|].
  split; [|split].
  - intros ->. cbn in Hpost. injection Hpost as <- <-.
    split; [reflexivity|]. split; [reflexivity|].
    assert (Hlen : length l' = length l) by apply length_insert.
    intros m. destruct (Hread m l' i Hl5) as (y & Hy & He).
    { rewrite Hlen. exact Hok. }
    rewrite Hlen, Hv' in Hy. injection Hy as <-. exact He.
  - intros Hx. cbn. rewrite lookup_app_r by lia. rewrite Nat.sub_diag. cbn.
    rewrite bound_env_take, bound_env_other by exact Hx. rewrite Hg1. exact Hgx.
  - intros m env' e sb r' sc H. apply (eval_expr_frame _ _ _ _ _ _ H).
Qed.

Lemma index_assignment_shared_witness :
  Interp.eval_expr 4 Interp.Globals
    (Ast.ECall "put" [Ast.ENumber (Ast.Int 1); Ast.ENumber (Ast.Int 5)])
    Samples.xs_with_put
  = (Val VNone, Interp.set_lists [[VInt 10; VInt 5]] Samples.xs_in_put).
Proof.
  refine (proj1 (proj2 (proj2 (proj2 (index_assignment_shared 2 Interp.Globals "put" "xs"
            [Ast.ENumber (Ast.Int 1); Ast.ENumber (Ast.Int 5)] [] []
            (Ast.EVar "i") (Ast.EVar "v")
            (Ast.mkFunc "put" ["i"; "v"]
               [Ast.SAssign (Ast.TIndex "xs" (Ast.EVar "i")) (Ast.EVar "v")] (cps "void"))
            Samples.xs_with_put Samples.xs_with_put Samples.xs_in_put
            Samples.xs_in_put Samples.xs_in_put
            (Interp.set_lists [[VInt 10; VInt 5]] Samples.xs_in_put)
            [VInt 1; VInt 5] 0 1 (VInt 5) [VInt 10; VInt 20] (Val tt)
            _ _ _ _ _ _ _ _ _ _ _ _ _))))).
  - reflexivity.
  - discriminate.
  - reflexivity.
  - reflexivity.
  - reflexivity.
  - reflexivity.
  - reflexivity.
  - reflexivity.
  - vm_compute. reflexivity.
  - vm_compute. reflexivity.
  - reflexivity.
  - unfold index_ok. simpl. lia.
  - reflexivity.
Defined.

(** * Further properties *)

(** ** Computations *)

Lemma bind_run {S A B} (m : ST S A) (k : A → ST S B) st a st' :
  m st = (Val a, st') → bind m k st = k a st'.
Proof. intros H. unfold bind. rewrite H. reflexivity. Qed.

Lemma bind_exc {S A B} (m : ST S A) (k : A → ST S B) st e st' :
  m st = (Exc e, st') → bind m k st = (Exc e, st').
Proof. intros H. unfold bind. rewrite H. reflexivity. Qed.

(** ** The lexer: comments, and tokens as slices of the source *)

Section LexerSlices.
Import Lexer.
Variable Nd : N → bool.

Lemma match_COMMENT_OP s n : match_COMMENT s = Some n → match_OP s = Some 1%nat.
Proof.
  destruct s as [|a [|b r]]; try discriminate. cbn [match_COMMENT].
  destruct (a =? 47) eqn:Ea; [|discriminate]. destruct (b =? 47) eqn:Eb; [|discriminate].
  apply N.eqb_eq in Ea, Eb. subst. intros _. reflexivity.
Qed.

Lemma MASTER_not_COMMENT s n : MASTER Nd s ≠ Some (COMMENT, n).
Proof.
  unfold MASTER, TOKEN_SPEC. cbn [first_match].
  destruct (match_NUMBER Nd s); [discriminate|].
  destruct (match_STRING s); [discriminate|].
  destruct (match_ID s); [discriminate|].
  destruct (match_OP s) eqn:Eo; [discriminate|].
  destruct (match_WS s); [discriminate|].
  destruct (match_COMMENT s) eqn:Ec; [|discriminate].
  apply match_COMMENT_OP in Ec. congruence.
Qed.

Lemma MASTER_slash rest : Nd 47 = false → MASTER Nd (47 :: rest) = Some (OP, 1%nat).
Proof.
  intros H. unfold MASTER, TOKEN_SPEC. cbn [first_match].
  unfold match_NUMBER. cbn [span]. rewrite H. cbn.
  destruct rest as [|b rest]; [reflexivity|].
  unfold match_OP.
  replace (pair_in 47 b op_pairs) with false; [reflexivity|].
  destruct (pair_in 47 b op_pairs) eqn:E; [|reflexivity].
  unfold pair_in, op_pairs in E. cbv [existsb fst snd] in E.
  repeat (apply orb_prop in E; destruct E as [E|E]); try discriminate;
    apply andb_prop in E; destruct E as [E _]; discriminate.
Qed.

Lemma span_le p s : (span p s ≤ length s)%nat.
Proof. induction s as [|c s IH]; cbn; [lia|]. destruct (p c); cbn; lia. Qed.

Lemma string_body_bounds : ∀ n s k,
  (length s ≤ n)%nat → string_body s = Some k → (0 < k ≤ length s)%nat.
Proof.
  induction n as [|n IH]; intros s k Hn; destruct s as [|c r]; cbn [string_body];
    try discriminate.
  - cbn in Hn; lia.
  - cbn [length] in *. destruct (c =? 34); [intros [= <-]; lia|].
    destruct (c =? 92).
    + destruct r as [|d r']; [discriminate|]. destruct (d =? 10); [discriminate|].
      destruct (string_body r') as [k'|] eqn:E; [|discriminate]. cbn. intros [= <-].
      apply IH in E; [|cbn in *; lia]. cbn. lia.
    + destruct (string_body r) as [k'|] eqn:E; [|discriminate]. cbn. intros [= <-].
      apply IH in E; [|lia]. lia.
Qed.

Lemma match_NUMBER_bounds s n : match_NUMBER Nd s = Some n → (0 < n ≤ length s)%nat.
Proof.
  unfold match_NUMBER. pose proof (span_le Nd s) as Hs.
  destruct (Nat.eqb_spec (span Nd s) 0) as [|Hz]; [discriminate|].
  destruct (drop (span Nd s) s) as [|c r] eqn:Ed.
  - intros [= <-]. lia.
  - assert (Hl : length (drop (span Nd s) s) = S (length r)) by (rewrite Ed; reflexivity).
    rewrite length_drop in Hl. pose proof (span_le Nd r).
    destruct ((c =? 46) && _); intros [= <-]; lia.
Qed.

Lemma MASTER_bounds s g n : MASTER Nd s = Some (g, n) → (0 < n ≤ length s)%nat.
Proof.
  unfold MASTER, TOKEN_SPEC. cbn [first_match].
  destruct (match_NUMBER Nd s) as [k|] eqn:E1.
  { intros [= _ <-]. apply match_NUMBER_bounds, E1. }
  destruct (match_STRING s) as [k|] eqn:E2.
  { intros [= _ <-]. destruct s as [|c r]; [discriminate|]. unfold match_STRING in E2.
    destruct (c =? 34); [|discriminate].
    destruct (string_body r) as [k'|] eqn:E; [|discriminate]. cbn [fmap option_fmap option_map] in E2.
    injection E2 as <-. apply (string_body_bounds (length r)) in E; [|lia]. cbn. lia. }
  destruct (match_ID s) as [k|] eqn:E3.
  { intros [= _ <-]. destruct s as [|c r]; [discriminate|]. unfold match_ID in E3.
    destruct (is_id_start c); [|discriminate]. injection E3 as <-.
    pose proof (span_le is_id_char r). cbn. lia. }
  destruct (match_OP s) as [k|] eqn:E4.
  { intros [= _ <-]. destruct s as [|a [|b r]]; [discriminate| |]; unfold match_OP in E4.
    - destruct (is_op_char a); [|discriminate]. injection E4 as <-. cbn. lia.
    - destruct (pair_in a b op_pairs); [injection E4 as <-; cbn; lia|].
      destruct (is_op_char a); [|discriminate]. injection E4 as <-. cbn. lia. }
  destruct (match_WS s) as [k|] eqn:E5.
  { intros [= _ <-]. unfold match_WS in E5. pose proof (span_le is_ws s).
    destruct (Nat.eqb_spec (span is_ws s) 0); [discriminate|]. injection E5 as <-. lia. }
  destruct (match_COMMENT s) as [k|] eqn:E6; [|discriminate].
  intros [= _ <-]. destruct s as [|a [|b r]]; try discriminate. unfold match_COMMENT in E6.
  destruct ((a =? 47) && (b =? 47)); [|discriminate]. injection E6 as <-.
  pose proof (span_le not_lf r). cbn. lia.
Qed.

Lemma finditer_from_spec s : ∀ skip p,
  Forall (λ m, ∃ k, mstart m = (p + k)%nat ∧ (skip ≤ k)%nat
                    ∧ (k + length (mgroup m) ≤ length s)%nat
                    ∧ (0 < length (mgroup m))%nat
                    ∧ take (length (mgroup m)) (drop k s) = mgroup m)
    (finditer_from Nd skip p s).
Proof.
  induction s as [|c s IH]; intros skip p; [constructor|].
  assert (Hshift : ∀ sk, Forall (λ m, ∃ k, mstart m = (p + k)%nat ∧ (S sk ≤ k)%nat
                    ∧ (k + length (mgroup m) ≤ length (c :: s))%nat
                    ∧ (0 < length (mgroup m))%nat
                    ∧ take (length (mgroup m)) (drop k (c :: s)) = mgroup m)
                    (finditer_from Nd sk (S p) s)).
  { intros sk. eapply Forall_impl; [apply (IH sk (S p))|].
    intros m (k & H1 & H2 & H3 & H4 & H5). exists (S k). cbn [length drop].
    repeat split; try lia. exact H5. }
  destruct skip as [|sk]; cbn [finditer_from].
  - destruct (MASTER Nd (c :: s)) as [[g n]|] eqn:E.
    + apply MASTER_bounds in E. constructor.
      * exists 0%nat. cbn [mstart mgroup drop]. rewrite length_take.
        repeat split; try lia. f_equal. lia.
      * eapply Forall_impl; [apply (Hshift (n - 1)%nat)|].
        intros m (k & H1 & H2 & H3 & H4 & H5). exists k. repeat split; try lia. exact H5.
    + eapply Forall_impl; [apply (Hshift 0%nat)|].
      intros m (k & H1 & H2 & H3 & H4 & H5). exists k. repeat split; try lia. exact H5.
  - eapply Forall_impl; [apply (Hshift sk)|].
    intros m (k & H1 & H2 & H3 & H4 & H5). exists k. repeat split; try lia. exact H5.
Qed.

Lemma finditer_from_sorted s : ∀ skip p,
  StronglySorted (λ m m', (mstart m + length (mgroup m) ≤ mstart m')%nat)
    (finditer_from Nd skip p s).
Proof.
  induction s as [|c s IH]; intros skip p; [constructor|].
  destruct skip as [|sk]; cbn [finditer_from]; [|apply IH].
  destruct (MASTER Nd (c :: s)) as [[g n]|] eqn:E; [|apply IH].
  apply MASTER_bounds in E. constructor; [apply IH|].
  eapply Forall_impl; [apply (finditer_from_spec s (n - 1) (S p))|].
  intros m (k & H1 & H2 & _). cbn [mstart mgroup]. rewrite length_take. lia.
Qed.

Lemma lex_loop_Forall (Q : nat → pystr → Prop) ms :
  Forall (λ m, Q (mstart m) (mgroup m)) ms →
  Forall (λ t, Q (pos t) (val t)) (lex_loop ms).
Proof.
  induction 1 as [|m ms Hm _ IH]; cbn [lex_loop]; [constructor|].
  destruct (is_skipped (lastgroup m)); [exact IH|]. constructor; [exact Hm | exact IH].
Qed.

Lemma lex_loop_sorted ms :
  StronglySorted (λ m m', (mstart m + length (mgroup m) ≤ mstart m')%nat) ms →
  StronglySorted token_before (lex_loop ms).
Proof.
  induction 1 as [|m ms _ IH Hm]; cbn [lex_loop]; [constructor|].
  destruct (is_skipped (lastgroup m)); [exact IH|]. constructor; [exact IH|].
  apply (lex_loop_Forall (λ p v, (mstart m + length (mgroup m) ≤ p)%nat)). exact Hm.
Qed.

End LexerSlices.

(** X1: a line comment is not skipped.  The OP alternative stands before
    COMMENT in the pattern and matches a slash, so the COMMENT group never
    matches: the two slashes of a comment are lexed as two OP tokens, and
    the text after them as the tokens of ordinary source. *)
Theorem line_comment_is_lexed (Nd : N → bool) (rest : pystr) :
  Nd 47 = false →
  Lexer.lex Nd (47 :: 47 :: rest) =
    Lexer.mkToken "OP" [47] 0 :: Lexer.mkToken "OP" [47] 1
      :: map (λ t, shift_token (shift_token t)) (Lexer.lex Nd rest)
  ∧ (∀ s n, Lexer.MASTER Nd s ≠ Some (Lexer.COMMENT, n)).
Proof.
  intros H. split; [|apply MASTER_not_COMMENT].
  unfold Lexer.lex, Lexer.finditer. cbn [Lexer.finditer_from].
  rewrite (MASTER_slash Nd _ H). cbn [Nat.sub Lexer.finditer_from].
  rewrite (MASTER_slash Nd _ H). cbn [Nat.sub].
  rewrite !finditer_from_shift. cbn [Lexer.lex_loop Lexer.lastgroup Lexer.is_skipped
    Lexer.is_ID andb Lexer.group_name Lexer.mgroup Lexer.mstart take app].
  rewrite !lex_loop_shift, map_app, map_map. reflexivity.
Qed.

Lemma line_comment_is_lexed_witness :
  Lexer.lex Lexer.ascii_Nd (cps "// hi") =
    [ Lexer.mkToken "OP" [47] 0; Lexer.mkToken "OP" [47] 1;
      Lexer.mkToken "ID" (cps "hi") 3; Lexer.mkToken "EOF" [] 5 ].
Proof.
  exact (proj1 (line_comment_is_lexed Lexer.ascii_Nd (cps " hi") eq_refl)).
Defined.

(** X2: every token that [lex] returns is the slice of the source at the
    offset it records, the tokens come in source order without overlap, all
    but the closing EOF token are non-empty, and the EOF token stands at the
    length of the source. *)
Theorem lex_tokens_are_slices (Nd : N → bool) (src : pystr) :
  Forall (token_at_source src) (Lexer.lex Nd src)
  ∧ StronglySorted token_before (Lexer.lex Nd src)
  ∧ ∃ toks, Lexer.lex Nd src = toks ++ [Lexer.mkToken "EOF" [] (length src)]
            ∧ Forall (λ t, Lexer.val t ≠ []) toks.
Proof.
  pose proof (finditer_from_spec Nd src 0 0) as Hspec.
  assert (Hq : Forall (λ t, token_at_source src t ∧ Lexer.val t ≠ [])
                 (Lexer.lex_loop (Lexer.finditer Nd src))).
  { apply (lex_loop_Forall
             (λ p v, (take (length v) (drop p src) = v ∧ (p + length v ≤ length src)%nat)
                     ∧ v ≠ [])).
    eapply Forall_impl; [exact Hspec|].
    intros m (k & H1 & _ & H3 & H4 & H5). cbn in H1. subst k.
    repeat split; [exact H5 | lia |].
    intros E. rewrite E in H4. cbn in H4. lia. }
  split; [|split].
  - unfold Lexer.lex. apply Forall_app. split.
    + eapply Forall_impl; [exact Hq|]. intros t [Ht _]. exact Ht.
    + repeat constructor; cbn; lia.
  - unfold Lexer.lex. apply StronglySorted_app. split; [|split].
    + intros t t' Ht Ht'. apply list_elem_of_singleton in Ht'. subst t'.
      rewrite Forall_forall in Hq. destruct (Hq t Ht) as [[_ Hle] _].
      unfold token_before. cbn. exact Hle.
    + apply lex_loop_sorted, finditer_from_sorted.
    + repeat constructor.
  - eexists. split; [reflexivity|].
    eapply Forall_impl; [exact Hq|]. intros t [_ Ht]. exact Ht.
Qed.

(** X3: the type of a token is NUMBER, STRING, OP or EOF, or ID for an
    identifier that is no reserved word, or the upper-case spelling of the
    reserved word it spells.  No token has the type CONSOLE that
    [parse_primary] tests for, and none is white space or a comment. *)
Theorem lex_token_types (Nd : N → bool) (src : pystr) :
  Forall (λ t, Lexer.type t ∈ ["NUMBER"; "STRING"; "OP"; "EOF"]%string
               ∨ (Lexer.type t = "ID"%string
                  ∧ pystr_in (Lexer.val t) Lexer.KEYWORDS = false)
               ∨ (pystr_in (Lexer.val t) Lexer.KEYWORDS = true
                  ∧ Lexer.type t = ascii_string (Lexer.upper (Lexer.val t))
                  ∧ Lexer.type t ∈ KEYWORD_TYPES))
    (Lexer.lex Nd src)
  ∧ Forall (λ t, Lexer.type t ∉ ["CONSOLE"; "WS"; "COMMENT"]%string) (Lexer.lex Nd src).
Proof.
  assert (H1 : Forall (λ t, Lexer.type t ∈ ["NUMBER"; "STRING"; "OP"; "EOF"]%string
               ∨ (Lexer.type t = "ID"%string
                  ∧ pystr_in (Lexer.val t) Lexer.KEYWORDS = false)
               ∨ (pystr_in (Lexer.val t) Lexer.KEYWORDS = true
                  ∧ Lexer.type t = ascii_string (Lexer.upper (Lexer.val t))
                  ∧ Lexer.type t ∈ KEYWORD_TYPES))
    (Lexer.lex Nd src)).
  { unfold Lexer.lex. apply Forall_app. split.
    - induction (Lexer.finditer Nd src) as [|m ms IH]; cbn [Lexer.lex_loop]; [constructor|].
      destruct (Lexer.is_skipped (Lexer.lastgroup m)) eqn:Es; [exact IH|].
      constructor; [|exact IH]. cbn [Lexer.type Lexer.val].
      destruct (pystr_in (Lexer.mgroup m) Lexer.KEYWORDS) eqn:Ek.
      + destruct (Lexer.lastgroup m); cbn [Lexer.is_ID andb Lexer.group_name];
          try discriminate; try (left; set_solver).
        right. right. split; [reflexivity|]. split; [reflexivity|].
        unfold pystr_in in Ek. apply existsb_exists in Ek. destruct Ek as (k & Hk & Ekv).
        apply bool_decide_eq_true in Ekv. subst k.
        unfold KEYWORD_TYPES. apply list_elem_of_In.
        apply (in_map (λ v, ascii_string (Lexer.upper v))), Hk.
      + rewrite andb_false_r.
        destruct (Lexer.lastgroup m); cbn [Lexer.group_name];
          try discriminate; try (left; set_solver).
        right. left. split; reflexivity.
    - repeat constructor. }
  split; [exact H1|].
  eapply Forall_impl; [exact H1|]. intros t Ht Hin.
  assert (Hk : Forall (λ ty, ty ∉ ["CONSOLE"; "WS"; "COMMENT"]%string)
                 (["NUMBER"; "STRING"; "OP"; "EOF"; "ID"]%string ++ KEYWORD_TYPES)).
  { vm_compute app. repeat constructor;
      rewrite list_elem_of_In; cbn [In]; intuition discriminate. }
  rewrite Forall_forall in Hk. apply (Hk (Lexer.type t)); [|exact Hin].
  apply elem_of_app. destruct Ht as [H|[[H _]|(_ & _ & H)]].
  - left. rewrite list_elem_of_In in *. cbn [In] in *. intuition.
  - left. rewrite H, list_elem_of_In. cbn [In]. intuition.
  - right. exact H.
Qed.

(** ** A source of white space *)

Section BlankSource.
Import Lexer.
Variable Nd : N → bool.

Lemma finditer_from_skip_all s : ∀ skip p,
  (length s ≤ skip)%nat → finditer_from Nd skip p s = [].
Proof.
  induction s as [|c s IH]; intros skip p Hlen; [reflexivity|].
  destruct skip as [|k]; [cbn in Hlen; lia|]. cbn [finditer_from].
  apply IH. cbn in Hlen. lia.
Qed.

Lemma span_all p s : Forall (λ c, p c = true) s → span p s = length s.
Proof. induction 1 as [|c s Hc _ IH]; cbn; [reflexivity|]. rewrite Hc, IH. reflexivity. Qed.

Lemma MASTER_ws c rest :
  is_ws c = true → Nd c = false →
  MASTER Nd (c :: rest) = Some (WS, S (span is_ws rest)).
Proof.
  intros Hws Hnd. unfold MASTER, TOKEN_SPEC. cbn [first_match].
  unfold match_NUMBER. cbn [span]. rewrite Hnd. simpl (0 =? 0)%nat. cbv iota.
  unfold match_WS. cbn [span]. rewrite Hws. simpl (S _ =? 0)%nat. cbv iota.
  assert (Hc : c = 32 ∨ c = 9 ∨ c = 13 ∨ c = 10).
  { unfold is_ws in Hws.
    repeat (apply orb_prop in Hws; destruct Hws as [Hws|Hws]);
      apply N.eqb_eq in Hws; auto. }
  destruct Hc as [ -> | [ -> | [ -> | -> ]]]; destruct rest; reflexivity.
Qed.

Lemma lex_blank src :
  Forall (λ c, is_ws c = true) src → (∀ c, is_ws c = true → Nd c = false) →
  lex Nd src = [mkToken "EOF" [] (length src)].
Proof.
  intros Hall Hnd. unfold lex, finditer.
  destruct Hall as [|c rest Hc Hrest]; [reflexivity|].
  cbn [finditer_from]. rewrite (MASTER_ws c rest Hc (Hnd c Hc)).
  rewrite finditer_from_skip_all.
  - reflexivity.
  - rewrite (span_all _ _ Hrest). cbn. lia.
Qed.

End BlankSource.

(** X4: a source that is empty or made of white space only is the empty
    program: it lexes to the EOF token alone, and running it yields None
    with nothing printed and nothing read. *)
Theorem blank_source_runs_to_None (h : Parser.host) (n : nat) (src : pystr)
    (input : list pystr) :
  Forall (λ c, Lexer.is_ws c = true) src →
  (∀ c, Lexer.is_ws c = true → Parser.unicode_Nd h c = false) →
  Lexer.lex (Parser.unicode_Nd h) src = [Lexer.mkToken "EOF" [] (length src)]
  ∧ Parser.parse_program h (S n) src = Val []
  ∧ Interp.run_source h (S n) src input = (Val VNone, Interp.Runtime input).
Proof.
  intros Hws Hnd. pose proof (lex_blank _ src Hws Hnd) as Hlex.
  assert (Hp : Parser.parse_program h (S n) src = Val []).
  { unfold Parser.parse_program. rewrite Hlex. reflexivity. }
  split; [exact Hlex|]. split; [exact Hp|].
  unfold Interp.run_source. rewrite Hp. reflexivity.
Qed.

Lemma blank_source_runs_to_None_witness :
  Interp.run_source Parser.ascii_host 1 [32; 10; 9] [cps "line"]
  = (Val VNone, Interp.Runtime [cps "line"]).
Proof.
  refine (proj2 (proj2 (blank_source_runs_to_None Parser.ascii_host 0 [32; 10; 9]
            [cps "line"] _ _))).
  - repeat constructor.
  - intros c Hc. unfold Lexer.is_ws in Hc.
    repeat (apply orb_prop in Hc; destruct Hc as [Hc|Hc]);
      apply N.eqb_eq in Hc; subst c; reflexivity.
Defined.

(** ** String literals without a backslash *)

Section LiteralBytes.
Import Literal.

Lemma utf8_encode_cp_bytes c bs :
  utf8_encode_cp c = Val bs →
  Forall (λ b, b < 256) bs
  ∧ (c < 128 → bs = [c])
  ∧ (128 ≤ c → Forall (λ b, 128 ≤ b) bs ∧ (2 ≤ length bs)%nat).
Proof.
  unfold utf8_encode_cp.
  destruct (N.ltb_spec c 128) as [H1|H1].
  { intros [= <-]. split; [repeat constructor; lia|]. split; [reflexivity|]. lia. }
  assert (Hm : ∀ x, x mod 64 < 64) by (intros x; apply N.mod_lt; lia).
  pose proof (Hm c) as Hm0. pose proof (Hm (c / 64)) as Hm1.
  pose proof (Hm (c / 4096)) as Hm2. clear Hm.
  set (r0 := c mod 64) in *. set (r1 := (c / 64) mod 64) in *.
  set (r2 := (c / 4096) mod 64) in *. clearbody r0 r1 r2.
  destruct (N.ltb_spec c 2048) as [Hc2|Hc2].
  { intros [= <-].
    assert (Hq : c / 64 < 32) by (apply N.Div0.div_lt_upper_bound; lia).
    set (q := c / 64) in *. clearbody q.
    split; [repeat constructor; lia|]. split; [lia|]. intros _.
    split; [repeat constructor; lia | cbn; lia]. }
  destruct (between 55296 57343 c); [discriminate|].
  destruct (N.ltb_spec c 65536) as [Hc3|Hc3].
  { intros [= <-].
    assert (Hq : c / 4096 < 16) by (apply N.Div0.div_lt_upper_bound; lia).
    set (q := c / 4096) in *. clearbody q.
    split; [repeat constructor; lia|]. split; [lia|]. intros _.
    split; [repeat constructor; lia | cbn; lia]. }
  destruct (N.ltb_spec c 1114112) as [Hc4|Hc4]; [|discriminate].
  intros [= <-].
  assert (Hq : c / 262144 < 5) by (apply N.Div0.div_lt_upper_bound; lia).
  set (q := c / 262144) in *. clearbody q.
  split; [repeat constructor; lia|]. split; [lia|]. intros _.
  split; [repeat constructor; lia | cbn; lia].
Qed.

Lemma utf8_encode_bytes s : ∀ bs,
  utf8_encode s = Val bs →
  Forall (λ b, b < 256) bs
  ∧ (length s ≤ length bs)%nat
  ∧ (Forall (λ c, c ≠ 92) s → Forall (λ b, b ≠ 92) bs)
  ∧ (length bs = length s → Forall (λ c, c < 128) s).
Proof.
  induction s as [|c s IH]; intros bs; cbn [utf8_encode].
  { intros [= <-]. split; [constructor|]. split; [reflexivity|]. split; auto. }
  destruct (utf8_encode_cp c) as [b1| | |] eqn:E1; try discriminate. cbn [res_bind].
  destruct (utf8_encode s) as [b2| | |] eqn:E2; try discriminate. cbn.
  intros [= <-]. destruct (IH b2 eq_refl) as (Hb & Hl & Hn & Ha).
  destruct (utf8_encode_cp_bytes c b1 E1) as (Hb1 & Hlow & Hhigh).
  rewrite length_app. cbn [length].
  destruct (N.lt_ge_cases c 128) as [Hc|Hc].
  - rewrite (Hlow Hc) in *. cbn [length app] in *.
    split; [|split; [|split]].
    + constructor; [lia | exact Hb].
    + lia.
    + intros Hs. apply Forall_cons in Hs. destruct Hs as [Hc' Hs].
      constructor; [exact Hc' | apply Hn, Hs].
    + intros Hlen. constructor; [exact Hc | apply Ha; lia].
  - destruct (Hhigh Hc) as [Hge Hlen2]. split; [|split; [|split]].
    + apply Forall_app. split; assumption.
    + lia.
    + intros Hs. apply Forall_cons in Hs. destruct Hs as [_ Hs].
      apply Forall_app. split; [|apply Hn, Hs].
      eapply Forall_impl; [exact Hge|]. cbn. intros b Hb' ->. lia.
    + intros Hlen. lia.
Qed.

Variable getcode : list N → option N.

Lemma decode_loop_plain : ∀ fuel s,
  (length s ≤ fuel)%nat → Forall (λ c, c ≠ 92) s → decode_loop getcode fuel s = Val s.
Proof.
  induction fuel as [|fuel IH]; intros s Hlen Hs.
  - destruct s; [reflexivity | cbn in Hlen; lia].
  - destruct s as [|c r]; [reflexivity|]. cbn [decode_loop].
    apply Forall_cons in Hs. destruct Hs as [Hc Hr].
    apply N.eqb_neq in Hc. rewrite Hc. cbn [negb].
    rewrite IH; [reflexivity | cbn in Hlen; lia | exact Hr].
Qed.

End LiteralBytes.

(** X5: a string literal without a backslash has as its value the UTF-8
    bytes of its contents, each byte read as one code point.  The value is
    never shorter than the contents, every code point of it is below 256,
    and it has the length of the contents only when the contents are ASCII,
    in which case it is the contents. *)
Theorem string_value_utf8_bytes (getcode : list N → option N) (content bs : pystr) :
  Forall (λ c, c ≠ 92) content →
  Literal.utf8_encode content = Val bs →
  Literal.string_value getcode (34 :: content ++ [34]) = Val bs
  ∧ Forall (λ b, b < 256) bs
  ∧ (length content ≤ length bs)%nat
  ∧ (length bs = length content → Forall (λ c, c < 128) content ∧ bs = content).
Proof.
  intros Hs He. destruct (utf8_encode_bytes content bs He) as (Hb & Hl & Hn & Ha).
  split; [|split; [exact Hb|split; [exact Hl|]]].
  - unfold Literal.string_value. rewrite strip_quotes_literal, He. cbn [res_bind].
    unfold Literal.unicode_escape_decode. apply decode_loop_plain; [lia | apply Hn, Hs].
  - intros Hlen. pose proof (Ha Hlen) as Hascii. split; [exact Hascii|].
    rewrite (utf8_encode_ascii _ Hascii) in He. congruence.
Qed.

Lemma string_value_utf8_bytes_witness :
  Literal.string_value Literal.no_names [34; 233; 34] = Val [195; 169].
Proof.
  refine (proj1 (string_value_utf8_bytes Literal.no_names [233] [195; 169] _ _)).
  - repeat constructor; discriminate.
  - reflexivity.
Defined.

(** ** The parser *)

Section ParserFacts.
Import Lexer Ast Parser.
Variable h : host.
Variable toks : list Token.

Lemma peek_at i t : toks !! i = Some t → peek toks i = (Val t, i).
Proof. intros H. unfold peek, bind, gets, tok_at, id. rewrite H. reflexivity. Qed.

Lemma match_op i t s :
  toks !! i = Some t →
  match_ toks "OP" (OP s) i = (Val (is_op s t), if is_op s t then S i else i).
Proof.
  intros H. unfold match_. rewrite (bind_run _ _ _ _ _ (peek_at i t H)).
  unfold OP. fold (is_op s t). destruct (is_op s t); reflexivity.
Qed.

Lemma match_type i t ty :
  toks !! i = Some t →
  match_ toks ty None i
  = (Val (String.eqb (type t) ty), if String.eqb (type t) ty then S i else i).
Proof.
  intros H. unfold match_. rewrite (bind_run _ _ _ _ _ (peek_at i t H)).
  rewrite andb_true_r. destruct (String.eqb (type t) ty); reflexivity.
Qed.

Lemma eat_any i t : toks !! i = Some t → eat toks None None i = (Val t, S i).
Proof.
  intros H. unfold eat. rewrite (bind_run _ _ _ _ _ (peek_at i t H)). reflexivity.
Qed.

Lemma eat_type i t ty :
  toks !! i = Some t → type t = ty → eat toks (Some ty) None i = (Val t, S i).
Proof.
  intros H <-. unfold eat. rewrite (bind_run _ _ _ _ _ (peek_at i t H)).
  rewrite String.eqb_refl. reflexivity.
Qed.

Lemma eat_op i t s :
  toks !! i = Some t → is_op s t = true → eat toks (Some "OP"%string) (OP s) i = (Val t, S i).
Proof.
  intros H Ho. unfold eat. rewrite (bind_run _ _ _ _ _ (peek_at i t H)).
  unfold is_op in Ho. apply andb_prop in Ho. destruct Ho as [H1 H2].
  unfold OP. rewrite H1, H2. reflexivity.
Qed.

Lemma is_op_type s t : is_op s t = true → type t = "OP"%string.
Proof. unfold is_op. intros H. apply andb_prop in H. apply String.eqb_eq, H. Qed.

Lemma is_op_val s t : is_op s t = true → val t = cps s.
Proof.
  unfold is_op. intros H. apply andb_prop in H. destruct H as [_ H].
  apply bool_decide_eq_true in H. exact H.
Qed.

Lemma is_op_other s s' t : is_op s t = true → cps s ≠ cps s' → is_op s' t = false.
Proof.
  intros H Hne. unfold is_op. rewrite (is_op_val _ _ H).
  unfold pystr_eqb. rewrite bool_decide_eq_false_2 by exact Hne. apply andb_false_r.
Qed.

(** *** Dotted names *)

Lemma dotted_tail_run : ∀ k n parts j t,
  dotted_at toks j k → toks !! (j + 2 * k)%nat = Some t → is_op "." t = false →
  ∃ parts', dotted_tail toks (S (k + n)) parts j = (Val parts', (j + 2 * k)%nat).
Proof.
  induction k as [|k IH]; intros n parts j t Hd Ht Hdot; cbn [dotted_tail].
  - rewrite Nat.add_0_r in *. rewrite (bind_run _ _ _ _ _ (match_op j t "." Ht)).
    rewrite Hdot. eexists. reflexivity.
  - destruct Hd as [(d & x & Hd & Hop & Hx & Hid) Hrest].
    rewrite (bind_run _ _ _ _ _ (match_op j d "." Hd)). rewrite Hop.
    rewrite (bind_run _ _ _ _ _ (eat_type (S j) x "ID" Hx Hid)).
    replace (j + 2 * S k)%nat with (S (S j) + 2 * k)%nat in * by lia.
    apply (IH n _ (S (S j)) t Hrest Ht Hdot).
Qed.

Lemma using_dots_run : ∀ k n j t,
  dotted_at toks j k → toks !! (j + 2 * k)%nat = Some t → is_op "." t = false →
  using_dots toks (S (k + n)) j = (Val tt, (j + 2 * k)%nat).
Proof.
  induction k as [|k IH]; intros n j t Hd Ht Hdot; cbn [using_dots].
  - rewrite Nat.add_0_r in *. rewrite (bind_run _ _ _ _ _ (match_op j t "." Ht)).
    rewrite Hdot. reflexivity.
  - destruct Hd as [(d & x & Hd & Hop & Hx & Hid) Hrest].
    rewrite (bind_run _ _ _ _ _ (match_op j d "." Hd)). rewrite Hop.
    rewrite (bind_run _ _ _ _ _ (eat_type (S j) x "ID" Hx Hid)).
    replace (j + 2 * S k)%nat with (S (S j) + 2 * k)%nat in * by lia.
    apply (IH n (S (S j)) t Hrest Ht Hdot).
Qed.

(** *** A name as a primary expression *)

Lemma parse_unary_name m i t0 :
  toks !! i = Some t0 → type t0 = "ID"%string →
  parse_unary h toks (S m) i =
    (let* parts := dotted_tail toks m [val t0] in
     let* call := match_ toks "OP" (OP "(") in
     if call then
       let* closed := match_ toks "OP" (OP ")") in
       let* args := if closed then ret [] else call_args toks m [] in
       ret (ECall (name_of (join_dot parts)) args)
     else
       let* index := match_ toks "OP" (OP "[") in
       if index then
         let* idx := parse_expression_no_arg in
         eat toks (Some "OP"%string) (OP "]") ;;
         ret (EIndex (name_of (join_dot parts)) idx)
       else ret (EVar (name_of (join_dot parts)))) (S i).
Proof.
  intros Ht Hty. cbn [parse_unary].
  rewrite (bind_run _ _ _ _ _ (peek_at i t0 Ht)). rewrite Hty.
  simpl (String.eqb "ID" "OP"). cbv iota.
  unfold parse_primary. rewrite (bind_run _ _ _ _ _ (peek_at i t0 Ht)).
  unfold type_in. rewrite Hty.
  simpl (String.eqb "ID" "NUMBER"). simpl (String.eqb "ID" "STRING").
  simpl (existsb _ _). simpl (String.eqb "ID" "ID"). cbv iota. cbn [orb].
  rewrite (bind_run _ _ _ _ _ (eat_any i t0 Ht)). reflexivity.
Qed.

(** *** Binary operators *)

Lemma assoc_elem {A} k (l : list (pystr * A)) a : assoc k l = Some a → (k, a) ∈ l.
Proof.
  unfold assoc. destruct (find _ l) as [[k' a']|] eqn:E; [|discriminate].
  cbn. intros [= <-]. apply find_some in E. destruct E as [Hin Hk]. cbn in Hk.
  apply bool_decide_eq_true in Hk. subst. apply list_elem_of_In, Hin.
Qed.

Lemma binary_op_facts t p op :
  binary_op t = Some (p, op) →
  type t = "OP"%string ∧ (1 ≤ p)%nat ∧ ends_name t = true.
Proof.
  unfold binary_op. destruct (String.eqb_spec (type t) "OP") as [Hty|]; [|discriminate].
  intros H. apply assoc_elem in H.
  assert (Hall : Forall (λ e, (1 ≤ fst (snd e))%nat ∧ fst e ≠ cps "." ∧ fst e ≠ cps "("
                              ∧ fst e ≠ cps "[") PRECEDENCE).
  { repeat constructor; cbn; try lia; discriminate. }
  rewrite Forall_forall in Hall. destruct (Hall _ H) as (Hp & Hd & Hc & Hb). cbn in *.
  split; [exact Hty|]. split; [exact Hp|].
  unfold ends_name, is_op, pystr_eqb.
  rewrite !bool_decide_eq_false_2 by assumption. rewrite !andb_false_r. reflexivity.
Qed.

Lemma ends_name_ops f :
  ends_name f = true → is_op "." f = false ∧ is_op "(" f = false ∧ is_op "[" f = false.
Proof.
  unfold ends_name. intros H. apply andb_prop in H as [H H3]. apply andb_prop in H as [H1 H2].
  apply negb_true_iff in H1, H2, H3. auto.
Qed.

Lemma parse_operand m i x f :
  toks !! i = Some x → type x = "ID"%string →
  toks !! S i = Some f → ends_name f = true →
  parse_unary h toks (S (S m)) i = (Val (EVar (name_of (val x))), S i).
Proof.
  intros Hx Hty Hf He. apply ends_name_ops in He. destruct He as (Hd & Hc & Hb).
  rewrite (parse_unary_name _ i x Hx Hty). cbn [dotted_tail].
  unfold bind at 1. rewrite (bind_run _ _ _ _ _ (match_op (S i) f "." Hf)). rewrite Hd.
  cbn [ret].
  rewrite (bind_run _ _ _ _ _ (match_op (S i) f "(" Hf)). rewrite Hc.
  rewrite (bind_run _ _ _ _ _ (match_op (S i) f "[" Hf)). rewrite Hb.
  reflexivity.
Qed.

Lemma parse_binop_stop m minp lhs i e :
  toks !! i = Some e → binary_op e = None →
  parse_binop h toks (S m) minp lhs i = (Val lhs, i).
Proof.
  intros He Hb. cbn [parse_binop]. rewrite (bind_run _ _ _ _ _ (peek_at i e He)).
  rewrite Hb. reflexivity.
Qed.

Lemma tighter_stop m prec rhs i e :
  toks !! i = Some e → binary_op e = None →
  tighter h toks (S m) prec rhs i = (Val rhs, i).
Proof.
  intros He Hb. cbn [tighter]. rewrite (bind_run _ _ _ _ _ (peek_at i e He)).
  rewrite Hb. reflexivity.
Qed.

Lemma parse_binop_step m minp lhs i o p op :
  toks !! i = Some o → binary_op o = Some (p, op) → (minp ≤ p)%nat →
  parse_binop h toks (S m) minp lhs i =
    (let* rhs := parse_unary h toks m in
     let* rhs := tighter h toks m p rhs in
     parse_binop h toks m minp (EBin op lhs rhs)) (S i).
Proof.
  intros Ho Hb Hle. cbn [parse_binop]. rewrite (bind_run _ _ _ _ _ (peek_at i o Ho)).
  rewrite Hb. destruct (Nat.ltb_spec p minp); [lia|].
  destruct (binary_op_facts _ _ _ Hb) as (Hty & _).
  rewrite (bind_run _ _ _ _ _ (eat_type i o "OP" Ho Hty)). reflexivity.
Qed.

Lemma parse_binop_low m minp lhs i o p op :
  toks !! i = Some o → binary_op o = Some (p, op) → (p < minp)%nat →
  parse_binop h toks (S m) minp lhs i = (Val lhs, i).
Proof.
  intros Ho Hb Hlt. cbn [parse_binop]. rewrite (bind_run _ _ _ _ _ (peek_at i o Ho)).
  rewrite Hb. destruct (Nat.ltb_spec p minp); [reflexivity|lia].
Qed.

Lemma tighter_step m prec rhs i o p op :
  toks !! i = Some o → binary_op o = Some (p, op) → (prec < p)%nat →
  tighter h toks (S m) prec rhs i =
    (let* rhs := parse_binop h toks m p rhs in tighter h toks m prec rhs) i.
Proof.
  intros Ho Hb Hlt. cbn [tighter]. rewrite (bind_run _ _ _ _ _ (peek_at i o Ho)).
  rewrite Hb. destruct (Nat.ltb_spec prec p); [reflexivity|lia].
Qed.

Lemma tighter_low m prec rhs i o p op :
  toks !! i = Some o → binary_op o = Some (p, op) → (p ≤ prec)%nat →
  tighter h toks (S m) prec rhs i = (Val rhs, i).
Proof.
  intros Ho Hb Hle. cbn [tighter]. rewrite (bind_run _ _ _ _ _ (peek_at i o Ho)).
  rewrite Hb. destruct (Nat.ltb_spec prec p); [lia|reflexivity].
Qed.

End ParserFacts.

(** X6: an expression that needs a nested expression inside a primary does
    not parse.  A name, simple or dotted, followed by an opening parenthesis
    and anything but the closing one (a call with an argument), or followed
    by an opening bracket (an index), ends the parse with TypeError at the
    token after the parenthesis or bracket; so does every parenthesised
    expression.  The functions nested in [parse_expression] call it without
    its parameter. *)
Theorem nested_expressions_do_not_parse (h : Parser.host) (toks : list Lexer.Token)
    (n i k : nat) (t0 t1 t2 : Lexer.Token) :
  toks !! i = Some t0 → Lexer.type t0 = "ID"%string →
  dotted_at toks (S i) k →
  toks !! (S i + 2 * k)%nat = Some t1 →
  toks !! (S (S i) + 2 * k)%nat = Some t2 →
  (is_op "(" t1 = true ∧ is_op ")" t2 = false) ∨ is_op "[" t1 = true →
  Parser.parse_expression h toks (S (S (k + n))) i
    = (Exc TypeError, (S (S i) + 2 * k)%nat)
  ∧ (∀ j p, toks !! j = Some p → is_op "(" p = true →
       Parser.parse_expression h toks (S (S n)) j = (Exc TypeError, S j)).
Proof.
  intros H0 Hty Hd H1 H2 Hcase. split.
  - unfold Parser.parse_expression. apply bind_exc.
    rewrite (parse_unary_name h toks _ i t0 H0 Hty).
    assert (Hdot : is_op "." t1 = false).
    { destruct Hcase as [[Hc _]|Hc]; eapply is_op_other; eauto; discriminate. }
    destruct (dotted_tail_run toks k n [Lexer.val t0] (S i) t1 Hd H1 Hdot) as [parts Hp].
    rewrite (bind_run _ _ _ _ _ Hp).
    rewrite (bind_run _ _ _ _ _ (match_op toks _ t1 "(" H1)).
    destruct Hcase as [[Hc Hn]|Hc].
    + rewrite Hc.
      rewrite (bind_run _ _ _ _ _ (match_op toks _ t2 ")" H2)). rewrite Hn.
      reflexivity.
    + rewrite (is_op_other "[" "(" t1 Hc) by discriminate.
      rewrite (bind_run _ _ _ _ _ (match_op toks _ t1 "[" H1)). rewrite Hc.
      reflexivity.
  - intros j p Hj Hp. unfold Parser.parse_expression. apply bind_exc.
    pose proof (is_op_type _ _ Hp) as Hty'. pose proof (is_op_val _ _ Hp) as Hv.
    cbn [Parser.parse_unary]. rewrite (bind_run _ _ _ _ _ (peek_at toks j p Hj)).
    rewrite Hty', Hv. simpl (String.eqb "OP" "OP"). cbv iota.
    change (Parser.assoc (cps "(") Parser.UNARY_OPS) with (@None Ast.unop).
    unfold Parser.parse_primary. rewrite (bind_run _ _ _ _ _ (peek_at toks j p Hj)).
    unfold Parser.type_in. rewrite Hty'.
    simpl (String.eqb "OP" "NUMBER"). simpl (String.eqb "OP" "STRING").
    simpl (existsb _ _). simpl (String.eqb "OP" "ID"). cbv iota. cbn [orb].
    rewrite (bind_run _ _ _ _ _ (match_op toks _ p "(" Hj)). rewrite Hp.
    reflexivity.
Qed.

Lemma nested_expressions_do_not_parse_witness :
  Parser.parse_expression Parser.ascii_host
    (Lexer.lex Lexer.ascii_Nd (cps "Console.WriteLine(1);")) 3 0%nat
  = (Exc TypeError, 4%nat).
Proof.
  refine (proj1 (nested_expressions_do_not_parse Parser.ascii_host
            (Lexer.lex Lexer.ascii_Nd (cps "Console.WriteLine(1);")) 0 0 1
            (Lexer.mkToken "ID" (cps "Console") 0)
            (Lexer.mkToken "OP" (cps "(") 17)
            (Lexer.mkToken "NUMBER" (cps "1") 18) _ _ _ _ _ _)).
  - reflexivity.
  - reflexivity.
  - split; [|exact I].
    exists (Lexer.mkToken "OP" (cps ".") 7), (Lexer.mkToken "ID" (cps "WriteLine") 8).
    repeat split; reflexivity.
  - reflexivity.
  - reflexivity.
  - left. split; reflexivity.
Defined.

(** X7: precedence and associativity.  For three names joined by two
    binary operators, [x o1 y o2 z], the second operator takes [y] when it
    binds tighter than the first, which gives [x o1 (y o2 z)]; otherwise,
    also at equal precedence, the first operator takes it, which gives
    [(x o1 y) o2 z]: operators of one level associate to the left. *)
Theorem binop_precedence (h : Parser.host) (toks : list Lexer.Token) (n i : nat)
    (x o1 y o2 z e : Lexer.Token) (p1 p2 : nat) (op1 op2 : Ast.binop) :
  toks !! i = Some x → toks !! (1 + i)%nat = Some o1 →
  toks !! (2 + i)%nat = Some y → toks !! (3 + i)%nat = Some o2 →
  toks !! (4 + i)%nat = Some z → toks !! (5 + i)%nat = Some e →
  Lexer.type x = "ID"%string → Lexer.type y = "ID"%string → Lexer.type z = "ID"%string →
  Parser.binary_op o1 = Some (p1, op1) → Parser.binary_op o2 = Some (p2, op2) →
  Parser.binary_op e = None → ends_name e = true →
  let X := Ast.EVar (Parser.name_of (Lexer.val x)) in
  let Y := Ast.EVar (Parser.name_of (Lexer.val y)) in
  let Z := Ast.EVar (Parser.name_of (Lexer.val z)) in
  Parser.parse_expression h toks (5 + n) i =
    (Val (if (p1 <? p2)%nat then Ast.EBin op1 X (Ast.EBin op2 Y Z)
          else Ast.EBin op2 (Ast.EBin op1 X Y) Z),
     (5 + i)%nat).
Proof.
  intros Hx Ho1 Hy Ho2 Hz He Tx Ty Tz B1 B2 Be Ee X Y Z.
  destruct (binary_op_facts _ _ _ B1) as (_ & P1 & E1).
  destruct (binary_op_facts _ _ _ B2) as (_ & P2 & E2).
  unfold Parser.parse_expression. cbn [Nat.add] in *.
  rewrite (bind_run _ _ _ _ _ (parse_operand h toks _ i x o1 Hx Tx Ho1 E1)).
  rewrite (parse_binop_step h toks _ 1 _ _ o1 p1 op1 Ho1 B1 P1).
  rewrite (bind_run _ _ _ _ _ (parse_operand h toks _ _ y o2 Hy Ty Ho2 E2)).
  destruct (Nat.ltb_spec p1 p2) as [Hlt|Hge].
  - assert (Hb : Parser.parse_binop h toks (S (S (S n))) p2 Y (S (S (S i)))
                 = (Val (Ast.EBin op2 Y Z), S (S (S (S (S i)))))).
    { rewrite (parse_binop_step h toks _ p2 _ _ o2 p2 op2 Ho2 B2 (le_n _)).
      rewrite (bind_run _ _ _ _ _ (parse_operand h toks _ _ z e Hz Tz He Ee)).
      rewrite (bind_run _ _ _ _ _ (tighter_stop h toks _ p2 _ _ e He Be)).
      apply (parse_binop_stop h toks _ p2 _ _ e He Be). }
    assert (Ht : Parser.tighter h toks (S (S (S (S n)))) p1 Y (S (S (S i)))
                 = (Val (Ast.EBin op2 Y Z), S (S (S (S (S i)))))).
    { rewrite (tighter_step h toks _ p1 _ _ o2 p2 op2 Ho2 B2 Hlt).
      rewrite (bind_run _ _ _ _ _ Hb).
      apply (tighter_stop h toks _ p1 _ _ e He Be). }
    rewrite (bind_run _ _ _ _ _ Ht).
    apply (parse_binop_stop h toks _ 1 _ _ e He Be).
  - rewrite (bind_run _ _ _ _ _ (tighter_low h toks _ p1 _ _ o2 p2 op2 Ho2 B2 Hge)).
    rewrite (parse_binop_step h toks _ 1 _ _ o2 p2 op2 Ho2 B2 P2).
    rewrite (bind_run _ _ _ _ _ (parse_operand h toks _ _ z e Hz Tz He Ee)).
    rewrite (bind_run _ _ _ _ _ (tighter_stop h toks _ p2 _ _ e He Be)).
    apply (parse_binop_stop h toks _ 1 _ _ e He Be).
Qed.

Lemma binop_precedence_witness :
  Parser.parse_expression Parser.ascii_host
    (Lexer.lex Lexer.ascii_Nd (cps "a - b * c;")) 5 0%nat
  = (Val (Ast.EBin Ast.Sub (Ast.EVar "a")
            (Ast.EBin Ast.Mul (Ast.EVar "b") (Ast.EVar "c"))), 5%nat)
  ∧ Parser.parse_expression Parser.ascii_host
      (Lexer.lex Lexer.ascii_Nd (cps "a - b + c;")) 5 0%nat
    = (Val (Ast.EBin Ast.Add (Ast.EBin Ast.Sub (Ast.EVar "a") (Ast.EVar "b"))
              (Ast.EVar "c")), 5%nat).
Proof.
  split.
  - refine (binop_precedence Parser.ascii_host
              (Lexer.lex Lexer.ascii_Nd (cps "a - b * c;")) 0 0
              (Lexer.mkToken "ID" (cps "a") 0) (Lexer.mkToken "OP" (cps "-") 2)
              (Lexer.mkToken "ID" (cps "b") 4) (Lexer.mkToken "OP" (cps "*") 6)
              (Lexer.mkToken "ID" (cps "c") 8) (Lexer.mkToken "OP" (cps ";") 9)
              5 6 Ast.Sub Ast.Mul _ _ _ _ _ _ _ _ _ _ _ _ _); reflexivity.
  - refine (binop_precedence Parser.ascii_host
              (Lexer.lex Lexer.ascii_Nd (cps "a - b + c;")) 0 0
              (Lexer.mkToken "ID" (cps "a") 0) (Lexer.mkToken "OP" (cps "-") 2)
              (Lexer.mkToken "ID" (cps "b") 4) (Lexer.mkToken "OP" (cps "+") 6)
              (Lexer.mkToken "ID" (cps "c") 8) (Lexer.mkToken "OP" (cps ";") 9)
              5 5 Ast.Sub Ast.Add _ _ _ _ _ _ _ _ _ _ _ _ _); reflexivity.
Defined.

(** X8: an exception raised while a function declaration is parsed is
    swallowed.  When a statement starts like a function declaration (a type
    or identifier, an identifier, an opening parenthesis) and
    [parse_function] raises, with the parser advanced to offset j',
    [parse_statement] does not report it: it goes on from j', where the
    error stood, and parses a variable declaration if the token after the
    next is an identifier, an expression or assignment statement
    otherwise. *)
Theorem function_errors_are_swallowed (h : Parser.host) (toks : list Lexer.Token)
    (n j j' : nat) (t tok2 tok3 : Lexer.Token) (e : exn) :
  toks !! j = Some t → Parser.type_in t Parser.DECL_TYPES = true →
  toks !! (j + 1)%nat = Some tok2 → Lexer.type tok2 = "ID"%string →
  toks !! (j + 2)%nat = Some tok3 → is_op "(" tok3 = true →
  Parser.parse_function h toks n j = (Exc e, j') →
  Parser.parse_statement h toks (S n) j =
    (let* next := Parser.tok_at toks (j' + 1) in
     if String.eqb (Lexer.type next) "ID" then Parser.parse_var_decl h toks n
     else Parser.parse_stmt_or_expr h toks n) j'.
Proof.
  intros Ht Hdecl H2 Hid H3 Hop Hf.
  assert (Htok : ∀ k x, toks !! k = Some x → Parser.tok_at toks k j = (Val x, j)).
  { intros k x Hk. unfold Parser.tok_at. rewrite Hk. reflexivity. }
  cbn [Parser.parse_statement].
  rewrite (bind_run _ _ _ _ _ (peek_at toks j t Ht)). rewrite Hdecl.
  assert (Hty : Lexer.type t ∈ Parser.DECL_TYPES).
  { unfold Parser.type_in in Hdecl. apply existsb_exists in Hdecl.
    destruct Hdecl as (ty & Hin & Heq). apply String.eqb_eq in Heq. rewrite Heq.
    apply list_elem_of_In, Hin. }
  assert (Hno : Forall (λ ty, String.eqb ty "OP" = false ∧ String.eqb ty "IF" = false
                   ∧ String.eqb ty "WHILE" = false ∧ String.eqb ty "FOR" = false
                   ∧ String.eqb ty "FOREACH" = false ∧ String.eqb ty "RETURN" = false)
                 Parser.DECL_TYPES).
  { repeat constructor. }
  rewrite Forall_forall in Hno.
  destruct (Hno _ Hty) as (E1 & E2 & E3 & E4 & E5 & E6).
  rewrite E1, E2, E3, E4, E5, E6. cbn [andb].
  unfold bind at 1. unfold bind at 1. cbn [gets id].
  unfold Parser.try_pass.
  rewrite (bind_run _ _ _ _ _ (Htok _ _ Ht)).
  rewrite (bind_run _ _ _ _ _ (Htok _ _ H2)).
  rewrite (bind_run _ _ _ _ _ (Htok _ _ H3)).
  rewrite Hid. unfold is_op in Hop. apply andb_prop in Hop. destruct Hop as [Ho1 Ho2].
  rewrite Ho1, Ho2. simpl (String.eqb "ID" "ID"). cbn [andb].
  rewrite (bind_exc _ _ _ _ _ Hf). reflexivity.
Qed.

Lemma function_errors_are_swallowed_witness :
  Parser.parse_statement Parser.ascii_host
    (Lexer.lex Lexer.ascii_Nd (cps "int f(a b c = 1;")) 6 0%nat
  = (Val (Ast.SAssign (Ast.TVar "c") (Ast.ENumber (Ast.Int 1))), 9%nat)
  ∧ Parser.parse_program Parser.ascii_host 7 (cps "int f(a b c = 1;")
    = Val [Ast.SAssign (Ast.TVar "c") (Ast.ENumber (Ast.Int 1))].
Proof.
  split; [|vm_compute; reflexivity].
  refine (eq_trans
    (function_errors_are_swallowed Parser.ascii_host
       (Lexer.lex Lexer.ascii_Nd (cps "int f(a b c = 1;")) 5 0 5
       (Lexer.mkToken "INT" (cps "int") 0) (Lexer.mkToken "ID" (cps "f") 4)
       (Lexer.mkToken "OP" (cps "(") 5) (ParseError 10) _ _ _ _ _ _ _) _);
    vm_compute; reflexivity.
Defined.

(** X9: a using line leaves no trace in the program.  Where the tokens
    read [using], an identifier, any number of dotted identifiers and a
    semicolon, the loop of [parse_program] goes on behind the semicolon with
    the items it had. *)
Theorem using_is_ignored (h : Parser.host) (toks : list Lexer.Token) (n i k : nat)
    (items : list Ast.stmt) (u name semi : Lexer.Token) :
  toks !! i = Some u → Lexer.type u = "USING"%string →
  toks !! S i = Some name → Lexer.type name = "ID"%string →
  dotted_at toks (S (S i)) k →
  toks !! (S (S i) + 2 * k)%nat = Some semi → is_op ";" semi = true →
  Parser.program_items h toks (S (S (k + n))) items i
  = Parser.program_items h toks (S (k + n)) items (S (S (S i)) + 2 * k)%nat.
Proof.
  intros Hu Tu Hn Tn Hd Hs Os.
  cbn [Parser.program_items].
  rewrite (bind_run _ _ _ _ _ (peek_at toks i u Hu)). rewrite Tu.
  simpl (String.eqb "USING" "EOF"). simpl (String.eqb "USING" "USING"). cbv iota.
  rewrite (bind_run _ _ _ _ _ (eat_type toks i u "USING" Hu Tu)).
  rewrite (bind_run _ _ _ _ _ (eat_type toks (S i) name "ID" Hn Tn)).
  assert (Hdot : is_op "." semi = false) by (eapply is_op_other; eauto; discriminate).
  rewrite (bind_run _ _ _ _ _ (using_dots_run toks k n (S (S i)) semi Hd Hs Hdot)).
  rewrite (bind_run _ _ _ _ _ (eat_op toks _ semi ";" Hs Os)). reflexivity.
Qed.

Lemma using_is_ignored_witness :
  Parser.program_items Parser.ascii_host
    (Lexer.lex Lexer.ascii_Nd (cps "using System.IO; x;")) 3 [] 0%nat
  = Parser.program_items Parser.ascii_host
      (Lexer.lex Lexer.ascii_Nd (cps "using System.IO; x;")) 2 [] 5%nat.
Proof.
  refine (using_is_ignored Parser.ascii_host
            (Lexer.lex Lexer.ascii_Nd (cps "using System.IO; x;")) 0 0 1 []
            (Lexer.mkToken "USING" (cps "using") 0)
            (Lexer.mkToken "ID" (cps "System") 6)
            (Lexer.mkToken "OP" (cps ";") 15) _ _ _ _ _ _ _); try reflexivity.
  split; [|exact I].
  exists (Lexer.mkToken "OP" (cps ".") 12), (Lexer.mkToken "ID" (cps "IO") 13).
  repeat split; reflexivity.
Defined.

(** ** What the parser can return *)

Section ParserReturns.
Import Lexer Ast Parser.
Variable h : host.
Variable toks : list Token.

Lemma returns_ret {A} (Q : A → Prop) a : Q a → returns Q (ret a).
Proof. intros H i b i' [= <- _]. exact H. Qed.

Lemma returns_never {A} (Q : A → Prop) (m : ST nat A) :
  (∀ i a i', m i ≠ (Val a, i')) → returns Q m.
Proof. intros H i a i' E. destruct (H _ _ _ E). Qed.

Lemma returns_raise {A} (Q : A → Prop) e : returns Q (raise e).
Proof. apply returns_never. intros i a i'. discriminate. Qed.

Lemma returns_out_of_fuel {A} (Q : A → Prop) : returns Q out_of_fuel.
Proof. apply returns_never. intros i a i'. discriminate. Qed.

Lemma returns_unmodelled {A} (Q : A → Prop) w : returns Q (unmodelled w).
Proof. apply returns_never. intros i a i'. discriminate. Qed.

Lemma returns_any {A} (m : ST nat A) : returns (λ _, True) m.
Proof. intros i a i' _. exact I. Qed.

Lemma returns_bind {A B} (QA : A → Prop) (QB : B → Prop) (m : ST nat A) (k : A → ST nat B) :
  returns QA m → (∀ a, QA a → returns QB (k a)) → returns QB (bind m k).
Proof.
  intros Hm Hk i b i'. unfold bind.
  destruct (m i) as [[a|e| |w] i1] eqn:E; try discriminate.
  intros H. eapply Hk; [eapply Hm; exact E | exact H].
Qed.

Lemma returns_seq {A B} (QB : B → Prop) (m : ST nat A) (k : A → ST nat B) :
  (∀ a, returns QB (k a)) → returns QB (bind m k).
Proof.
  intros Hk. apply (returns_bind (λ _, True)); [apply returns_any | intros a _; apply Hk].
Qed.

Lemma returns_call_args n args (Q : list expr → Prop) : returns Q (call_args toks n args).
Proof.
  apply returns_never. intros i a i'. destruct n; cbn; discriminate.
Qed.

Ltac returns_step :=
  first
    [ apply returns_raise | apply returns_out_of_fuel | apply returns_unmodelled
    | apply returns_call_args
    | match goal with
      | |- returns _ (if ?c then _ else _) => destruct c eqn:?
      | |- returns _ (match ?x with _ => _ end) => destruct x eqn:?
      end ].

Lemma returns_parse_primary n :
  returns (λ e, flat_expr e = true) (parse_primary h toks n).
Proof.
  unfold parse_primary, parse_expression_no_arg.
  apply returns_seq. intros t.
  repeat first
    [ apply returns_ret; reflexivity
    | match goal with
      | |- returns _ (bind (if ?c then ret [] else call_args _ _ _) _) =>
          apply (returns_bind (λ args, args = []));
          [ destruct c; [apply returns_ret; reflexivity | apply returns_call_args]
          | intros args -> ]
      end
    | returns_step
    | apply returns_seq; intros ? ].
Qed.

Lemma returns_parse_unary : ∀ n,
  returns (λ e, flat_expr e = true) (parse_unary h toks n).
Proof.
  induction n as [|n IH]; cbn [parse_unary]; [apply returns_out_of_fuel|].
  apply returns_seq. intros t.
  destruct (if String.eqb (type t) "OP" then assoc (val t) UNARY_OPS else None).
  - apply returns_seq. intros _.
    apply (returns_bind (λ e, flat_expr e = true)); [apply IH|].
    intros e He. apply returns_ret. exact He.
  - apply returns_parse_primary.
Qed.

Lemma returns_parse_binop : ∀ n,
  (∀ minp lhs, flat_expr lhs = true →
     returns (λ e, flat_expr e = true) (parse_binop h toks n minp lhs))
  ∧ (∀ prec rhs, flat_expr rhs = true →
       returns (λ e, flat_expr e = true) (tighter h toks n prec rhs)).
Proof.
  induction n as [|n [IHb IHt]]; (split; [intros minp lhs Hl | intros prec rhs Hr]);
    cbn [parse_binop tighter]; try apply returns_out_of_fuel.
  - apply returns_seq. intros t.
    destruct (binary_op t) as [[p op]|]; [|apply returns_ret; exact Hl].
    destruct (p <? minp)%nat; [apply returns_ret; exact Hl|].
    apply returns_seq. intros _.
    apply (returns_bind (λ e, flat_expr e = true)); [apply returns_parse_unary|].
    intros r1 H1.
    apply (returns_bind (λ e, flat_expr e = true)); [apply IHt, H1|].
    intros r2 H2. apply IHb. cbn [flat_expr]. rewrite Hl, H2. reflexivity.
  - apply returns_seq. intros t.
    destruct (binary_op t) as [[p op]|]; [|apply returns_ret; exact Hr].
    destruct (prec <? p)%nat; [|apply returns_ret; exact Hr].
    apply (returns_bind (λ e, flat_expr e = true)); [apply IHb, Hr|].
    intros r1 H1. apply IHt, H1.
Qed.

Lemma returns_parse_expression n :
  returns (λ e, flat_expr e = true) (parse_expression h toks n).
Proof.
  unfold parse_expression.
  apply (returns_bind (λ e, flat_expr e = true)); [apply returns_parse_unary|].
  intros lhs Hl. apply (proj1 (returns_parse_binop n)), Hl.
Qed.

Lemma returns_opt_expression n (b : bool) :
  returns (λ o, flat_opt o = true)
    (if b then let* e := parse_expression h toks n in ret (Some e) else ret None).
Proof.
  destruct b; [|apply returns_ret; reflexivity].
  apply (returns_bind (λ e, flat_expr e = true)); [apply returns_parse_expression|].
  intros e He. apply returns_ret. exact He.
Qed.

Lemma returns_parse_var_decl_fields n :
  returns (λ d, flat_opt (snd d) = true) (parse_var_decl_fields h toks n).
Proof.
  unfold parse_var_decl_fields.
  apply returns_seq. intros var. apply returns_seq. intros typ.
  apply returns_seq. intros name. apply returns_seq. intros eq.
  apply (returns_bind (λ o, flat_opt o = true)); [apply returns_opt_expression|].
  intros init Hi. apply returns_seq. intros _. apply returns_ret. exact Hi.
Qed.

Lemma returns_parse_var_decl n :
  returns (λ s, flat_stmt s = true) (parse_var_decl h toks n).
Proof.
  unfold parse_var_decl.
  apply (returns_bind (λ d, flat_opt (snd d) = true)); [apply returns_parse_var_decl_fields|].
  intros d Hd. apply returns_ret. exact Hd.
Qed.

Lemma returns_parse_stmt_or_expr n :
  returns (λ s, flat_stmt s = true) (parse_stmt_or_expr h toks n).
Proof.
  unfold parse_stmt_or_expr.
  apply (returns_bind (λ e, flat_expr e = true)); [apply returns_parse_expression|].
  intros e He.
  assert (Hexpr : returns (λ s, flat_stmt s = true)
                    (eat toks (Some "OP"%string) (OP ";") ;; ret (SExpr e))).
  { apply returns_seq. intros _. apply returns_ret. exact He. }
  destruct e; try exact Hexpr; try discriminate He.
  apply returns_seq. intros eq. destruct eq; [|exact Hexpr].
  apply (returns_bind (λ e, flat_expr e = true)); [apply returns_parse_expression|].
  intros v Hv. apply returns_seq. intros _. apply returns_ret. exact Hv.
Qed.

Lemma returns_try_pass {A} (Q : option A → Prop) (m : P (option A)) :
  Q None → returns Q m → returns Q (try_pass m).
Proof.
  intros HN Hm i a i'. unfold try_pass.
  destruct (m i) as [[b|e| |w] i1] eqn:E; try discriminate.
  - intros [= <- _]. eapply Hm, E.
  - intros [= <- _]. exact HN.
Qed.

Ltac flat_finish :=
  cbn [flat_stmt flat_opt fst snd] in *;
  repeat match goal with
         | H : _ = true |- _ => rewrite H
         end;
  first [reflexivity | assumption].

Ltac flat_bind :=
  match goal with
  | |- returns _ (@bind _ ?A _ _ _) =>
      lazymatch A with
      | expr => apply (returns_bind (λ e, flat_expr e = true)); [|intros ? ?]
      | stmt => apply (returns_bind (λ s, flat_stmt s = true)); [|intros ? ?]
      | option expr => apply (returns_bind (λ o, flat_opt o = true)); [|intros ? ?]
      | option stmt =>
          apply (returns_bind
                   (λ o, match o with Some s' => flat_stmt s' | None => true end = true));
          [|intros ? ?]
      | list stmt =>
          apply (returns_bind (λ l, forallb flat_stmt l = true)); [|intros ? ?]
      | option for_init =>
          apply (returns_bind
                   (λ o, match o with
                         | Some (InitDecl _ _ i) => flat_opt i
                         | Some (InitExpr e) => flat_expr e
                         | None => true
                         end = true));
          [|intros ? ?]
      | (pystr * string * option expr)%type =>
          apply (returns_bind (λ d, flat_opt (snd d) = true)); [|intros ? ?]
      | _ => apply returns_seq; intros ?
      end
  end.

Ltac flat_step :=
  first
    [ assumption
    | apply returns_parse_expression | apply returns_parse_var_decl
    | apply returns_parse_var_decl_fields | apply returns_parse_stmt_or_expr
    | apply returns_raise | apply returns_out_of_fuel | apply returns_unmodelled
    | apply returns_try_pass; [reflexivity|]
    | apply returns_ret; flat_finish
    | match goal with
      | |- returns _ (if ?c then _ else _) => destruct c
      | |- returns _ (match ?x with _ => _ end) => destruct x
      end
    | flat_bind ].

Lemma returns_statements : ∀ n,
  returns (λ s, flat_stmt s = true) (parse_statement h toks n)
  ∧ returns (λ s, flat_stmt s = true) (parse_block h toks n)
  ∧ (∀ items, forallb flat_stmt items = true →
       returns (λ l, forallb flat_stmt l = true) (block_items h toks n items))
  ∧ returns (λ s, flat_stmt s = true) (parse_if h toks n)
  ∧ returns (λ s, flat_stmt s = true) (parse_for h toks n)
  ∧ returns (λ s, flat_stmt s = true) (parse_foreach h toks n)
  ∧ returns (λ s, flat_stmt s = true) (parse_function h toks n).
Proof.
  induction n as [|n (IHs & IHb & IHi & IHif & IHfor & IHfe & IHfn)].
  - repeat split; intros; cbn; apply returns_out_of_fuel.
  - split; [|split; [|split; [|split; [|split; [|split]]]]].
    + cbn [parse_statement]. repeat flat_step.
    + cbn [parse_block]. repeat flat_step. apply IHi. reflexivity.
    + intros items Hitems. cbn [block_items]. repeat flat_step.
      apply IHi. rewrite forallb_app, Hitems. cbn [forallb]. flat_finish.
    + cbn [parse_if]. repeat flat_step.
    + cbn [parse_for]. repeat flat_step.
    + cbn [parse_foreach]. repeat flat_step.
    + cbn [parse_function]. repeat flat_step.
Qed.

Lemma returns_program_items : ∀ n items,
  forallb flat_stmt items = true →
  returns (λ l, forallb flat_stmt l = true) (program_items h toks n items).
Proof.
  induction n as [|n IH]; intros items Hitems; cbn [program_items];
    [apply returns_out_of_fuel|].
  destruct (returns_statements n) as (IHs & IHb & _).
  repeat flat_step;
    apply IH;
    first [exact Hitems | rewrite forallb_app, Hitems; cbn [forallb]; flat_finish].
Qed.

End ParserReturns.

(** X10: a program that parses holds no call with an argument, no index
    expression and no assignment to an index, at any depth: every way to
    build one runs into the call of [parse_expression] without its
    parameter.  What parsing a statement or an expression returns is flat
    as well. *)
Theorem parsed_programs_are_flat (h : Parser.host) (n : nat) (src : pystr)
    (prog : list Ast.stmt) :
  Parser.parse_program h n src = Val prog →
  forallb flat_stmt prog = true
  ∧ (∀ toks m i e i', Parser.parse_expression h toks m i = (Val e, i') →
       flat_expr e = true)
  ∧ (∀ toks m i s i', Parser.parse_statement h toks m i = (Val s, i') →
       flat_stmt s = true).
Proof.
  intros H. split; [|split].
  - unfold Parser.parse_program in H.
    destruct (Parser.program_items h (Lexer.lex (Parser.unicode_Nd h) src) n [] 0%nat)
      as [r i'] eqn:E. cbn in H. subst r.
    eapply (returns_program_items h _ n [] eq_refl), E.
  - intros toks m i e i' He. eapply (returns_parse_expression h toks m), He.
  - intros toks m i s i' Hs. eapply (proj1 (returns_statements h toks m)), Hs.
Qed.

Lemma parsed_programs_are_flat_witness :
  forallb flat_stmt Samples.list_size = true.
Proof.
  refine (proj1 (parsed_programs_are_flat Parser.ascii_host 20 (cps Samples.size_src)
            Samples.list_size _)).
  vm_compute. reflexivity.
Defined.

(** ** Generic types and the reserved word string *)

Section ParserShapes.
Import Lexer Ast Parser.
Variable h : host.
Variable toks : list Token.

Lemma bind_val_inv {S A B} (m : ST S A) (k : A → ST S B) st b st' :
  bind m k st = (Val b, st') →
  ∃ a st1, m st = (Val a, st1) ∧ k a st1 = (Val b, st').
Proof.
  unfold bind. destruct (m st) as [[a|e| |w] st1]; try discriminate. eauto.
Qed.

Lemma returns_binop_shape : ∀ n minp lhs,
  returns (λ e, e = lhs ∨ ∃ op a b, e = EBin op a b) (parse_binop h toks n minp lhs).
Proof.
  induction n as [|n IH]; intros minp lhs; cbn [parse_binop];
    [apply returns_out_of_fuel|].
  apply returns_seq. intros t.
  destruct (binary_op t) as [[p op]|]; [|apply returns_ret; left; reflexivity].
  destruct (p <? minp)%nat; [apply returns_ret; left; reflexivity|].
  apply returns_seq. intros _. apply returns_seq. intros r1. apply returns_seq. intros r2.
  intros i e i' H. right. destruct (IH minp (EBin op lhs r2) i e i' H) as [->|Hb]; eauto.
Qed.

Lemma parse_unary_List m i t f :
  toks !! i = Some t → type t = "LIST"%string →
  toks !! S i = Some f → ends_name f = true →
  parse_unary h toks (S (S m)) i = (Val (EVar (name_of (val t))), S i).
Proof.
  intros Ht Hty Hf He. apply ends_name_ops in He. destruct He as (Hd & Hc & Hb).
  cbn [parse_unary]. rewrite (bind_run _ _ _ _ _ (peek_at toks i t Ht)). rewrite Hty.
  simpl (String.eqb "LIST" "OP"). cbv iota.
  unfold parse_primary. rewrite (bind_run _ _ _ _ _ (peek_at toks i t Ht)).
  unfold type_in. rewrite Hty.
  simpl (String.eqb "LIST" "NUMBER"). simpl (String.eqb "LIST" "STRING").
  simpl (existsb _ _). simpl (String.eqb "LIST" "ID"). cbv iota. cbn [orb].
  rewrite (bind_run _ _ _ _ _ (eat_any toks i t Ht)). cbn [dotted_tail].
  unfold bind at 1. rewrite (bind_run _ _ _ _ _ (match_op toks (S i) f "." Hf)). rewrite Hd.
  cbn [ret].
  rewrite (bind_run _ _ _ _ _ (match_op toks (S i) f "(" Hf)). rewrite Hc.
  rewrite (bind_run _ _ _ _ _ (match_op toks (S i) f "[" Hf)). rewrite Hb.
  reflexivity.
Qed.

Lemma statement_List_lt n i t lt :
  toks !! i = Some t → type t = "LIST"%string →
  toks !! (i + 1)%nat = Some lt → is_op "<" lt = true →
  parse_statement h toks (S n) i = parse_stmt_or_expr h toks n i.
Proof.
  intros Ht Hty Hl Hlt. pose proof (is_op_type _ _ Hlt) as Hlty.
  cbn [parse_statement]. rewrite (bind_run _ _ _ _ _ (peek_at toks i t Ht)).
  unfold type_in. rewrite Hty. simpl (String.eqb "LIST" _). simpl (existsb _ _).
  cbn [andb]. cbv iota.
  unfold bind at 1. unfold bind at 1. cbn [gets id]. unfold try_pass.
  unfold bind at 1. unfold tok_at at 1. rewrite Ht. cbn [ret].
  unfold bind at 1. unfold tok_at at 1. rewrite Hl. cbn [ret].
  unfold bind at 1. unfold tok_at at 1.
  destruct (toks !! (i + 2)%nat) as [tok3|]; cbn [ret raise];
    rewrite ?Hlty; simpl (String.eqb "OP" "ID"); cbn [andb ret];
    unfold bind at 1; cbn [gets id];
    unfold bind at 1; unfold tok_at at 1; rewrite Hl; cbn [ret];
    rewrite Hlty; simpl (String.eqb "OP" "ID"); reflexivity.
Qed.

End ParserShapes.

(** X11: a declaration with a generic type does not parse as one.  A
    statement that begins with List and an opening angle bracket is handed
    to the expression parser, which reads the bracket as the comparison
    operator: whatever [parse_statement] returns for it is an expression
    statement whose expression is a binary operation, never a variable
    declaration. *)
Theorem generic_type_is_no_declaration (h : Parser.host) (toks : list Lexer.Token)
    (n i i' : nat) (t lt : Lexer.Token) (s : Ast.stmt) :
  toks !! i = Some t → Lexer.type t = "LIST"%string →
  toks !! (i + 1)%nat = Some lt → is_op "<" lt = true →
  Parser.parse_statement h toks n i = (Val s, i') →
  ∃ op a b, s = Ast.SExpr (Ast.EBin op a b).
Proof.
  intros Ht Hty Hl Hlt H.
  destruct n as [|n]; [discriminate H|].
  rewrite (statement_List_lt h toks n i t lt Ht Hty Hl Hlt) in H.
  assert (Hb : Parser.binary_op lt = Some (4%nat, Ast.Lt)).
  { unfold Parser.binary_op. rewrite (is_op_type _ _ Hlt), (is_op_val _ _ Hlt).
    reflexivity. }
  destruct (binary_op_facts _ _ _ Hb) as (_ & _ & He).
  rewrite Nat.add_1_r in Hl.
  unfold Parser.parse_stmt_or_expr in H.
  apply bind_val_inv in H. destruct H as (e & i1 & Hexpr & Hrest).
  assert (Hshape : ∃ op a b, e = Ast.EBin op a b).
  { destruct n as [|[|m]]; [discriminate Hexpr | |].
    - unfold Parser.parse_expression in Hexpr.
      apply bind_val_inv in Hexpr. destruct Hexpr as (lhs & i0 & Hu & _).
      cbn [Parser.parse_unary] in Hu.
      rewrite (bind_run _ _ _ _ _ (peek_at toks i t Ht)) in Hu. rewrite Hty in Hu.
      simpl (String.eqb "LIST" "OP") in Hu. cbv iota in Hu.
      unfold Parser.parse_primary in Hu.
      rewrite (bind_run _ _ _ _ _ (peek_at toks i t Ht)) in Hu.
      unfold Parser.type_in in Hu. rewrite Hty in Hu.
      simpl (String.eqb "LIST" "NUMBER") in Hu. simpl (String.eqb "LIST" "STRING") in Hu.
      simpl (existsb _ _) in Hu. simpl (String.eqb "LIST" "ID") in Hu.
      cbv iota in Hu. cbn [orb] in Hu.
      rewrite (bind_run _ _ _ _ _ (eat_any toks i t Ht)) in Hu. discriminate Hu.
    - unfold Parser.parse_expression in Hexpr.
      rewrite (bind_run _ _ _ _ _ (parse_unary_List h toks m i t lt Ht Hty Hl He)) in Hexpr.
      rewrite (parse_binop_step h toks _ 1 _ _ lt 4 Ast.Lt Hl Hb) in Hexpr by lia.
      apply bind_val_inv in Hexpr. destruct Hexpr as (r1 & j1 & _ & Hexpr).
      apply bind_val_inv in Hexpr. destruct Hexpr as (r2 & j2 & _ & Hexpr).
      destruct (returns_binop_shape h toks _ _ _ _ _ _ Hexpr) as [->|Hs]; eauto. }
  destruct Hshape as (op & a & b & ->).
  apply bind_val_inv in Hrest. destruct Hrest as (u & i2 & _ & Hret).
  injection Hret as <- _. eauto.
Qed.

Lemma generic_type_is_no_declaration_witness :
  ∃ op a b,
    Ast.SExpr
      (Ast.EBin Ast.Gt
         (Ast.EBin Ast.Lt (Ast.EVar "List") (Ast.EString (cps "trin"))) (Ast.EVar "xs"))
    = Ast.SExpr (Ast.EBin op a b).
Proof.
  apply (generic_type_is_no_declaration Parser.ascii_host
           (Lexer.lex Lexer.ascii_Nd (cps "List<string> xs;")) 9 0 6
           (Lexer.mkToken "LIST" (cps "List") 0) (Lexer.mkToken "OP" (cps "<") 4));
    reflexivity.
Defined.

(** X12: the reserved word string is a string literal.  The type that
    [lex] gives its token, the upper-case spelling, is STRING, the type of
    the string literals, and [parse_primary] takes its value as it takes
    theirs, the lexeme without its first and last character: in an
    expression, the word string is the text trin. *)
Theorem string_keyword_is_a_literal (h : Parser.host) (toks : list Lexer.Token)
    (n i : nat) (t f : Lexer.Token) :
  toks !! i = Some t → Lexer.val t = cps "string" →
  Lexer.type t = ascii_string (Lexer.upper (Lexer.val t)) →
  toks !! S i = Some f → Parser.binary_op f = None →
  pystr_in (Lexer.val t) Lexer.KEYWORDS = true
  ∧ Lexer.type t = Lexer.group_name Lexer.STRING
  ∧ Parser.parse_expression h toks (S (S n)) i = (Val (Ast.EString (cps "trin")), S i).
Proof.
  intros Ht Hv Hty Hf Hb. rewrite Hv in Hty.
  change (ascii_string (Lexer.upper (cps "string"))) with "STRING"%string in Hty.
  split; [rewrite Hv; reflexivity|]. split; [exact Hty|].
  unfold Parser.parse_expression.
  assert (Hu : Parser.parse_unary h toks (S (S n)) i
               = (Val (Ast.EString (cps "trin")), S i)).
  { cbn [Parser.parse_unary]. rewrite (bind_run _ _ _ _ _ (peek_at toks i t Ht)).
    rewrite Hty. simpl (String.eqb "STRING" "OP"). cbv iota.
    unfold Parser.parse_primary. rewrite (bind_run _ _ _ _ _ (peek_at toks i t Ht)).
    rewrite Hty. simpl (String.eqb "STRING" "NUMBER"). simpl (String.eqb "STRING" "STRING").
    cbv iota. rewrite (bind_run _ _ _ _ _ (eat_any toks i t Ht)). rewrite Hv.
    reflexivity. }
  rewrite (bind_run _ _ _ _ _ Hu).
  apply (parse_binop_stop h toks _ 1 _ _ f Hf Hb).
Qed.

Lemma string_keyword_is_a_literal_witness :
  Parser.parse_program Parser.ascii_host 9 (cps "var s = string;")
  = Val [Ast.SVarDecl (cps "var") "s" (Some (Ast.EString (cps "trin")))]
  ∧ Parser.parse_expression Parser.ascii_host
      (Lexer.lex Lexer.ascii_Nd (cps "var s = string;")) 2 3%nat
    = (Val (Ast.EString (cps "trin")), 4%nat).
Proof.
  split; [vm_compute; reflexivity|].
  refine (proj2 (proj2 (string_keyword_is_a_literal Parser.ascii_host
            (Lexer.lex Lexer.ascii_Nd (cps "var s = string;")) 0 3
            (Lexer.mkToken "STRING" (cps "string") 8)
            (Lexer.mkToken "OP" (cps ";") 14) _ _ _ _ _))); reflexivity.
Defined.

(** ** The evaluator: what a run can do to the state *)

Section Footprint.
Import Ast Interp.

Variable R : state → state → Prop.
Hypothesis R_refl : ∀ st, R st st.
Hypothesis R_trans : ∀ a b c, R a b → R b c → R a c.
Hypothesis R_quiet :
  ∀ st st', update st st' → stdout st' = stdout st → functions st' = functions st →
    R st st'.
Hypothesis R_print : ∀ st args, R st (set_stdout (stdout st ++ [args]) st).
Hypothesis R_functions : ∀ st fs, R st (set_functions fs st).

Local Notation inv := (pres any_state R).

Lemma inv_same {A} (m : M A) : (∀ st r st', m st = (r, st') → st' = st) → inv m.
Proof. intros H st r st' _ E. rewrite (H _ _ _ E). apply R_refl. Qed.

Lemma inv_ret {A} (a : A) : inv (ret a).
Proof. apply inv_same. intros st r st' [= _ <-]. reflexivity. Qed.
Lemma inv_raise {A} e : inv (raise e : M A).
Proof. apply inv_same. intros st r st' [= _ <-]. reflexivity. Qed.
Lemma inv_out_of_fuel {A} : inv (out_of_fuel : M A).
Proof. apply inv_same. intros st r st' [= _ <-]. reflexivity. Qed.
Lemma inv_unmodelled {A} w : inv (unmodelled w : M A).
Proof. apply inv_same. intros st r st' [= _ <-]. reflexivity. Qed.
Lemma inv_lift {A} (x : res A) : inv (lift x).
Proof. apply inv_same. intros st r st' [= _ <-]. reflexivity. Qed.
Lemma inv_gets {A} (f : state → A) : inv (gets f).
Proof. apply inv_same. intros st r st' [= _ <-]. reflexivity. Qed.

Lemma inv_bind {A B} (m : M A) (k : A → M B) :
  inv m → (∀ a, inv (k a)) → inv (bind m k).
Proof.
  intros Hm Hk st r st' _. unfold bind.
  destruct (m st) as [[a|e| |w] st1] eqn:E; intros H;
    try solve [inversion H; subst; eapply Hm; [exact I | eauto]].
  eapply R_trans; [eapply Hm | eapply Hk]; first [exact I | eauto].
Qed.

Lemma inv_mapM {A B} (f : A → M B) l : (∀ a, inv (f a)) → inv (mapM f l).
Proof.
  intros Hf. induction l as [|a l IH]; cbn [mapM].
  - apply inv_ret.
  - apply inv_bind; [apply Hf|]. intros b.
    apply inv_bind; [apply IH|]. intros bs. apply inv_ret.
Qed.

Lemma inv_forM_ {A} (f : A → M unit) l : (∀ a, inv (f a)) → inv (forM_ l f).
Proof.
  intros Hf. induction l as [|a l IH]; cbn [forM_].
  - apply inv_ret.
  - apply inv_bind; [apply Hf|]. intros _. apply IH.
Qed.

Lemma inv_catch_return (m : M unit) : inv m → inv (catch_return m).
Proof.
  intros Hm st r st' _. unfold catch_return.
  destruct (m st) as [[a|e| |w] st1] eqn:E; intros H.
  2: destruct e.
  all: inversion H; subst; eapply Hm; [exact I | eauto].
Qed.

Lemma inv_list_obj a : inv (list_obj a).
Proof.
  apply inv_same. intros st r st'. unfold list_obj.
  destruct (lists st !! a); intros [= _ <-]; reflexivity.
Qed.

Lemma inv_env_set env name v : inv (env_set env name v).
Proof.
  intros st r st' _ H. unfold env_set, modify in H. inversion H; subst.
  destruct env; (apply R_quiet; [constructor | reflexivity | reflexivity]).
Qed.

Lemma inv_new_empty : inv (new_list []).
Proof.
  intros st r st' _ H. inversion H; subst.
  apply R_quiet; [constructor | reflexivity | reflexivity].
Qed.

Lemma inv_read_line : inv read_line.
Proof.
  intros st r st' _. unfold read_line. destruct (stdin st) eqn:E; intros H;
    inversion H; subst.
  - apply R_refl.
  - apply R_quiet; [econstructor; exact E | reflexivity | reflexivity].
Qed.

Ltac inv_pure :=
  first
    [ apply inv_ret | apply inv_raise | apply inv_out_of_fuel
    | apply inv_unmodelled | apply inv_lift | apply inv_gets
    | apply inv_list_obj
    | apply inv_bind; [|intros ?]
    | match goal with
      | |- pres any_state _ (match ?x with _ => _ end) => destruct x
      | |- pres any_state _ (if ?x then _ else _) => destruct x
      end ].

Lemma inv_truthy v : inv (truthy v).
Proof. unfold truthy. repeat inv_pure. Qed.

Lemma inv_equal a b : inv (equal a b).
Proof. unfold equal. repeat inv_pure. Qed.

Lemma inv_order c a b : inv (order c a b).
Proof. unfold order. repeat inv_pure. Qed.

Lemma inv_concat a b :
  inv (let* x := list_obj a in let* y := list_obj b in new_list (x ++ y)).
Proof.
  intros st r st' _. unfold bind, list_obj, new_list.
  destruct (lists st !! a) as [x|] eqn:Ea; [|intros [= _ <-]; apply R_refl].
  destruct (lists st !! b) as [y|] eqn:Eb; [|intros [= _ <-]; apply R_refl].
  intros [= _ <-]. apply R_quiet; [|reflexivity|reflexivity].
  apply update_new_concat; eapply list_elem_of_lookup_2; eauto.
Qed.

Lemma inv_repeat a n :
  inv (let* x := list_obj a in new_list (repeat_seq x n)).
Proof.
  intros st r st' _. unfold bind, list_obj, new_list.
  destruct (lists st !! a) as [x|] eqn:Ea; [|intros [= _ <-]; apply R_refl].
  intros [= _ <-]. apply R_quiet; [|reflexivity|reflexivity].
  apply update_new_repeat; eapply list_elem_of_lookup_2; eauto.
Qed.

Lemma inv_ops op a b : inv (ops op a b).
Proof.
  destruct op; cbn [ops]; unfold op_add, op_sub, op_mul, op_div, op_mod;
    repeat first [ apply inv_truthy | apply inv_equal | apply inv_order
                 | apply inv_concat | apply inv_repeat | inv_pure ].
Qed.

Lemma inv_unary op v : inv (unary op v).
Proof. destruct op; cbn [unary]; repeat first [apply inv_truthy | inv_pure]. Qed.

Lemma inv_getitem t i : inv (getitem t i).
Proof. unfold getitem. repeat inv_pure. Qed.

Lemma inv_setitem a i v : inv (setitem a i v).
Proof.
  destruct a; cbn [setitem]; try apply inv_raise.
  destruct (as_int i) as [z|]; [|apply inv_raise].
  intros st r st' _. unfold bind, list_obj.
  destruct (lists st !! a) as [l|] eqn:Ea; [|intros [= _ <-]; apply R_refl].
  destruct (norm_index (length l) z) as [k|] eqn:En; [|intros [= _ <-]; apply R_refl].
  unfold list_write, modify. intros [= _ <-].
  apply R_quiet; [|reflexivity|reflexivity].
  econstructor; [exact Ea|].
  unfold norm_index in En.
  destruct ((0 <=? _)%Z && (_ <? _)%Z) eqn:Eb; [|discriminate].
  injection En as <-. apply andb_prop in Eb. destruct Eb as [E1 E2].
  apply Z.leb_le in E1. apply Z.ltb_lt in E2. lia.
Qed.

Lemma inv_getattr o p : inv (getattr o p).
Proof. unfold getattr. repeat inv_pure. Qed.

Lemma inv_getattr_chain ps : ∀ o, inv (getattr_chain o ps).
Proof.
  induction ps as [|p ps IH]; intros o; cbn [getattr_chain].
  - apply inv_ret.
  - apply inv_bind; [apply inv_getattr | intros ?; apply IH].
Qed.

Lemma inv_lookup_var env name : inv (lookup_var env name).
Proof. unfold lookup_var. repeat first [apply inv_getattr_chain | inv_pure]. Qed.

Lemma inv_call_builtin b args : inv (call_builtin b args).
Proof.
  destruct b; cbn [call_builtin].
  - apply inv_bind; [|intros; apply inv_ret].
    intros st r st' _ H. inversion H; subst. apply R_print.
  - destruct args; [apply inv_read_line | apply inv_raise].
  - destruct args; [apply inv_new_empty | apply inv_raise].
Qed.

Lemma inv_call_value fn args : inv (call_value fn args).
Proof. unfold call_value. destruct fn; first [apply inv_call_builtin | apply inv_raise]. Qed.

Lemma inv_copy_globals : inv copy_globals.
Proof.
  intros st r st' _ H. inversion H; subst.
  apply R_quiet; [constructor | reflexivity | reflexivity].
Qed.

Ltac inv_step :=
  first
    [ apply inv_truthy | apply inv_ops | apply inv_unary | apply inv_getitem
    | apply inv_setitem | apply inv_getattr | apply inv_lookup_var
    | apply inv_call_builtin | apply inv_call_value | apply inv_env_set
    | apply inv_copy_globals | apply inv_catch_return
    | apply inv_mapM; intros ? | apply inv_forM_; intros ?
    | inv_pure ].

Lemma interp_inv : ∀ n,
  (∀ env e, inv (eval_expr n env e))
  ∧ (∀ env s, inv (exec_stmt n env s))
  ∧ (∀ env c b, inv (while_loop n env c b))
  ∧ (∀ env c p b, inv (for_loop n env c p b))
  ∧ (∀ env name a i b, inv (foreach_loop n env name a i b)).
Proof.
  induction n as [|n (IHe & IHs & IHw & IHf & IHfe)].
  - repeat split; intros; cbn; apply inv_out_of_fuel.
  - split; [|split; [|split; [|split]]].
    + intros env e. destruct e; cbn [eval_expr];
        unfold bind_params, exec_block_with;
        repeat first [apply IHe | apply IHs | inv_step].
    + intros env s. destruct s; cbn [exec_stmt]; unfold exec_block_with;
        repeat first [apply IHe | apply IHs | apply IHw | apply IHf | apply IHfe | inv_step].
      intros st r st' _ H. inversion H; subst. apply R_functions.
    + intros env c b. cbn [while_loop].
      repeat first [apply IHe | apply IHs | apply IHw | inv_step].
    + intros env c p b. cbn [for_loop].
      repeat first [apply IHe | apply IHs | apply IHf | inv_step].
    + intros env name a i b. cbn [foreach_loop].
      repeat first [apply IHe | apply IHs | apply IHfe | inv_step].
Qed.

Lemma run_program_inv n prog : inv (run_program n prog).
Proof.
  destruct (interp_inv n) as (IHe & IHs & _).
  unfold run_program, register_funcs, run_items, call_Main.
  repeat first [apply IHs | inv_step].
Qed.

End Footprint.

Section Invariants.
Import Ast Interp.

Lemma io_grows_update st st' : update st st' → io_grows st st'.
Proof.
  unfold io_grows. destruct 1; cbn; try (split; reflexivity).
  - split; [apply prefix_app_r; reflexivity | reflexivity].
  - split; [reflexivity|]. rewrite H. apply suffix_cons_r. reflexivity.
Qed.

Lemma io_grows_trans a b c : io_grows a b → io_grows b c → io_grows a c.
Proof. intros [H1 H2] [H3 H4]. split; etrans; eauto. Qed.

Lemma repeat_seq_nil {A} n : repeat_seq (@nil A) n = [].
Proof. unfold repeat_seq. induction (Z.to_nat n) as [|k IH]; [reflexivity | exact IH]. Qed.

Lemma all_empty_update st st' : update st st' → all_empty st → all_empty st'.
Proof.
  unfold all_empty. destruct 1; cbn; intros Hall; try exact Hall.
  - apply Forall_app. split; [exact Hall | repeat constructor].
  - rewrite Forall_forall in Hall. pose proof (Hall x H) as ->. pose proof (Hall y H0) as ->.
    apply Forall_app. split; [apply Forall_forall, Hall | repeat constructor].
  - rewrite Forall_forall in Hall. pose proof (Hall x H) as ->.
    apply Forall_app. split; [apply Forall_forall, Hall|].
    repeat constructor. apply repeat_seq_nil.
  - rewrite Forall_forall in Hall.
    pose proof (Hall l (list_elem_of_lookup_2 _ _ _ H)) as ->. cbn in H0. lia.
Qed.

Lemma lists_keep_length_update st st' : update st st' → lists_keep_length st st'.
Proof.
  unfold lists_keep_length.
  destruct 1; cbn; intros a0 l0 Hl; try (exists l0; split; [exact Hl | reflexivity]).
  - exists l0. split; [|reflexivity]. apply lookup_app_l_Some, Hl.
  - exists l0. split; [|reflexivity]. apply lookup_app_l_Some, Hl.
  - exists l0. split; [|reflexivity]. apply lookup_app_l_Some, Hl.
  - destruct (decide (a0 = a)) as [->|Hne].
    + rewrite H in Hl. injection Hl as <-. exists (<[k:=v]> l). split.
      * apply list_lookup_insert_eq. eapply lookup_lt_Some, H.
      * apply length_insert.
    + exists l0. split; [|reflexivity]. rewrite list_lookup_insert_ne by auto. exact Hl.
Qed.

Lemma lists_keep_length_trans a b c :
  lists_keep_length a b → lists_keep_length b c → lists_keep_length a c.
Proof.
  intros H1 H2 i l Hl. destruct (H1 i l Hl) as (l1 & Hl1 & E1).
  destruct (H2 i l1 Hl1) as (l2 & Hl2 & E2). exists l2. split; [exact Hl2 | congruence].
Qed.

End Invariants.

(** X13: what is printed stays printed, and input is only consumed from
    the front.  Whatever an expression, a statement or a whole program does
    and however it ends, the lines printed before are a prefix of the lines
    printed after, and the input left is a suffix of the input there was. *)
Theorem io_only_grows (n : nat) :
  (∀ env e st r st', Interp.eval_expr n env e st = (r, st') → io_grows st st')
  ∧ (∀ env s st r st', Interp.exec_stmt n env s st = (r, st') → io_grows st st')
  ∧ (∀ prog st r st', Interp.run_program n prog st = (r, st') → io_grows st st')
  ∧ (∀ h src input r st',
       Interp.run_source h n src input = (r, st') → io_grows (Interp.Runtime input) st').
Proof.
  assert (Hrefl : ∀ st, io_grows st st) by (intros st; split; reflexivity).
  assert (Hq : ∀ st st', update st st' → Interp.stdout st' = Interp.stdout st →
                 Interp.functions st' = Interp.functions st → io_grows st st')
    by (intros st st' H _ _; apply io_grows_update, H).
  assert (Hpr : ∀ st args,
                  io_grows st (Interp.set_stdout (Interp.stdout st ++ [args]) st))
    by (intros; apply io_grows_update; constructor).
  assert (Hfn : ∀ st fs, io_grows st (Interp.set_functions fs st))
    by (intros; apply io_grows_update; constructor).
  destruct (interp_inv io_grows Hrefl io_grows_trans Hq Hpr Hfn n) as (He & Hs & _).
  pose proof (run_program_inv io_grows Hrefl io_grows_trans Hq Hpr Hfn n) as Hp.
  split; [|split; [|split]].
  - intros env e st r st' H. eapply He; [exact I | exact H].
  - intros env s st r st' H. eapply Hs; [exact I | exact H].
  - intros prog st r st' H. eapply Hp; [exact I | exact H].
  - intros h src input r st'. unfold Interp.run_source.
    destruct (Parser.parse_program h n src); intros H;
      try (injection H as _ <-; apply Hrefl).
    eapply Hp; [exact I | exact H].
Qed.

(** X14: up to the first step that the evaluator leaves out, no run puts
    an item in a list.  A run that starts with every list empty ends, or
    reaches such a step, with every list empty, so a whole program, which
    starts without any list, holds no list with an item until then; and in
    any state no run removes a list object or changes the number of items
    of one.  Beyond such a step nothing is said: Console.__dir__(), for
    one, returns a list of the host that has items. *)
Theorem lists_stay_empty (n : nat) :
  (∀ env s st r st',
     Interp.exec_stmt n env s st = (r, st') → all_empty st → all_empty st')
  ∧ (∀ prog st r st',
       Interp.run_program n prog st = (r, st') → all_empty st → all_empty st')
  ∧ (∀ h src input r st', Interp.run_source h n src input = (r, st') → all_empty st')
  ∧ (∀ env s st r st',
       Interp.exec_stmt n env s st = (r, st') → lists_keep_length st st').
Proof.
  set (R := λ st st', all_empty st → all_empty st').
  assert (Hrefl : ∀ st, R st st) by (intros st H; exact H).
  assert (Htrans : ∀ a b c, R a b → R b c → R a c) by (intros a b c H1 H2 H; auto).
  assert (Hq : ∀ st st', update st st' → Interp.stdout st' = Interp.stdout st →
                 Interp.functions st' = Interp.functions st → R st st')
    by (intros st st' H _ _; exact (all_empty_update st st' H)).
  assert (Hpr : ∀ st args, R st (Interp.set_stdout (Interp.stdout st ++ [args]) st))
    by (intros st args; exact (all_empty_update _ _ (update_print st args))).
  assert (Hfn : ∀ st fs, R st (Interp.set_functions fs st))
    by (intros st fs; exact (all_empty_update _ _ (update_functions st fs))).
  destruct (interp_inv R Hrefl Htrans Hq Hpr Hfn n) as (_ & Hs & _).
  pose proof (run_program_inv R Hrefl Htrans Hq Hpr Hfn n) as Hp.
  assert (H0 : ∀ input, all_empty (Interp.Runtime input)) by (intros; constructor).
  split; [|split; [|split]].
  - intros env s st r st' H. eapply Hs; [exact I | exact H].
  - intros prog st r st' H. eapply Hp; [exact I | exact H].
  - intros h src input r st'. unfold Interp.run_source.
    destruct (Parser.parse_program h n src); intros H;
      try (injection H as _ <-; apply H0).
    eapply Hp; [exact I | exact H | apply H0].
  - intros env s st r st' H.
    assert (Hr : ∀ st, lists_keep_length st st).
    { intros st0 a l Hl. exists l. split; [exact Hl | reflexivity]. }
    destruct (interp_inv lists_keep_length Hr lists_keep_length_trans) with (n := n)
      as (_ & Hs' & _);
      try (intros; apply lists_keep_length_update; first [assumption | constructor]).
    eapply Hs'; [exact I | exact H].
Qed.

(** ** What a program that parses can print *)

Section BlankOutput.
Import Ast Interp.

Local Notation inv := (pres any_state prints_blank).

Lemma prints_blank_refl st : prints_blank st st.
Proof. intros H. exact H. Qed.

Lemma prints_blank_trans a b c : prints_blank a b → prints_blank b c → prints_blank a c.
Proof. intros H1 H2 H. auto. Qed.

Lemma prints_blank_quiet st st' :
  update st st' → stdout st' = stdout st → functions st' = functions st →
  prints_blank st st'.
Proof.
  intros _ Ho Hf. unfold prints_blank, blank_output, flat_funcs. rewrite Ho, Hf. auto.
Qed.

Ltac side := first [exact prints_blank_refl | exact prints_blank_trans
                   | exact prints_blank_quiet].

Lemma blank_call_value fn : inv (call_value fn []).
Proof.
  destruct fn; cbn [call_value]; try (apply inv_raise; side).
  destruct b; cbn [call_builtin].
  - apply inv_bind; try side; [|intros; apply inv_ret; side].
    intros st r st' _ H [Hb Hf]. inversion H; subst. split; [|exact Hf].
    unfold blank_output in *. cbn. apply Forall_app. split; [exact Hb|]. repeat constructor.
  - apply inv_read_line; side.
  - apply inv_new_empty; side.
Qed.

Lemma blank_block (exec : stmt → M unit) body :
  forallb flat_stmt body = true →
  (∀ s, flat_stmt s = true → inv (exec s)) → inv (forM_ body exec).
Proof.
  intros Hb Hexec. induction body as [|s body IH]; cbn [forM_].
  - apply inv_ret; side.
  - cbn [forallb] in Hb. apply andb_prop in Hb. destruct Hb as [Hs Hb].
    apply inv_bind; try side; [apply Hexec, Hs | intros _; apply IH, Hb].
Qed.

Ltac split_flat :=
  repeat match goal with
         | H : _ && _ = true |- _ => apply andb_prop in H; destruct H
         end.

Ltac blank_step :=
  first
    [ apply inv_ret; side | apply inv_raise; side | apply inv_out_of_fuel; side
    | apply inv_unmodelled; side | apply inv_lift; side | apply inv_gets; side
    | apply inv_truthy; side | apply inv_ops; side | apply inv_unary; side
    | apply inv_getattr; side | apply inv_lookup_var; side | apply inv_env_set; side
    | apply inv_copy_globals; side | apply inv_list_obj; side
    | apply inv_new_empty; side
    | apply blank_call_value
    | apply inv_catch_return; try side
    | apply inv_forM_; try side; intros ?
    | apply inv_bind; try side; [|intros ?]
    | match goal with
      | |- pres any_state _ (match ?x with _ => _ end) => destruct x
      | |- pres any_state _ (if ?x then _ else _) => destruct x
      end ].

Lemma interp_blank : ∀ n,
  (∀ env e, flat_expr e = true → inv (eval_expr n env e))
  ∧ (∀ env s, flat_stmt s = true → inv (exec_stmt n env s))
  ∧ (∀ env c b, flat_expr c = true → flat_stmt b = true → inv (while_loop n env c b))
  ∧ (∀ env c p b, flat_opt c = true → flat_opt p = true → flat_stmt b = true →
       inv (for_loop n env c p b))
  ∧ (∀ env name a i b, flat_stmt b = true → inv (foreach_loop n env name a i b)).
Proof.
  induction n as [|n (IHe & IHs & IHw & IHf & IHfe)].
  - split; [|split; [|split; [|split]]].
    + intros env e _. apply inv_out_of_fuel; side.
    + intros env s _. apply inv_out_of_fuel; side.
    + intros env c b _ _. apply inv_out_of_fuel; side.
    + intros env c p b _ _ _. apply inv_out_of_fuel; side.
    + intros env name a i b _. apply inv_out_of_fuel; side.
  - split; [|split; [|split; [|split]]].
    + intros env e Hflat. destruct e; cbn [eval_expr flat_expr] in *; split_flat;
        try discriminate.
      * destruct value0; blank_step.
      * blank_step.
      * blank_step.
      * blank_step.
      * destruct args; [|discriminate]. cbn [mapM].
        destruct (has_dot callee && _); [repeat blank_step|].
        destruct (String.eqb callee "List"); [repeat blank_step|].
        intros st r st' _ H HInv. unfold bind at 1 in H. cbn [gets] in H.
        destruct (functions st !! callee) as [f|] eqn:Ef.
        -- assert (Hbody : forallb flat_stmt (f_body f) = true).
           { destruct HInv as [_ Hf]. exact (Hf _ _ Ef). }
           revert H HInv. generalize I. generalize st r st'.
           change (inv (let* vs := ret [] in
                        let* new_env := copy_globals in
                        bind_params new_env (f_params f) vs;;
                        catch_return (exec_block_with (exec_stmt n new_env) (f_body f)))).
           unfold bind_params, exec_block_with.
           repeat first [apply blank_block; [exact Hbody | intros s Hs; apply IHs, Hs]
                        | blank_step].
        -- revert H HInv. generalize I. generalize st r st'.
           change (inv (let* d := gets (env_dict env) in
                        match d !! callee with
                        | Some fn =>
                            if callable fn
                            then let* vs := ret [] in call_value fn vs
                            else raise (NameError callee)
                        | None => raise (NameError callee)
                        end)).
           repeat blank_step.
      * repeat first [apply IHe; assumption | blank_step].
      * repeat first [apply IHe; assumption | blank_step].
    + intros env s Hflat. destruct s; cbn [exec_stmt]; cbn [flat_stmt] in Hflat;
        split_flat.
      * apply blank_block; [exact Hflat | intros s Hs; apply IHs, Hs].
      * destruct init; cbn [flat_opt] in *;
          repeat first [apply IHe; assumption | blank_step].
      * destruct tgt; [|discriminate].
        repeat first [apply IHe; assumption | blank_step].
      * repeat first [apply IHe; assumption | blank_step].
      * destruct otherwise;
          repeat first [apply IHe; assumption | apply IHs; assumption | blank_step].
      * apply IHw; assumption.
      * apply inv_bind; try side; [|intros _; apply IHf; assumption].
        destruct init as [[ty name i|e]|]; [| |blank_step].
        -- apply IHs. exact H.
        -- repeat first [apply IHe; assumption | blank_step].
      * repeat first [apply IHfe; assumption | apply IHs; assumption | blank_step].
      * destruct value0; cbn [flat_opt] in *;
          repeat first [apply IHe; assumption | blank_step].
      * intros st r st' _ H [Hb Hf]. inversion H; subst. split; [exact Hb|].
        unfold flat_funcs in *. cbn. apply map_Forall_insert_2; [exact Hflat | exact Hf].
    + intros env c b Hc Hb. cbn [while_loop].
      repeat first [apply IHe; assumption | apply IHs; assumption
                   | apply IHw; assumption | blank_step].
    + intros env c p b Hc Hp Hb. cbn [for_loop].
      destruct c, p; cbn [flat_opt] in *;
        repeat first [apply IHe; assumption | apply IHs; assumption
                     | apply IHf; assumption | blank_step].
    + intros env name a i b Hb. cbn [foreach_loop].
      repeat first [apply IHs; assumption | apply IHfe; assumption | blank_step].
Qed.

Lemma run_program_blank n prog :
  forallb flat_stmt prog = true → inv (run_program n prog).
Proof.
  intros Hflat. destruct (interp_blank n) as (IHe & IHs & _).
  unfold run_program, register_funcs, run_items.
  apply inv_bind; try side.
  { apply blank_block; [exact Hflat|]. intros s Hs.
    destruct (is_func s); [apply IHs, Hs | apply inv_ret; side]. }
  intros _. apply inv_bind; try side.
  { apply blank_block; [exact Hflat|]. intros s Hs.
    destruct (negb (is_func s)); [apply IHs, Hs | apply inv_ret; side]. }
  intros _. apply inv_bind; try side; [apply inv_gets; side|]. intros fs.
  destruct (bool_decide _); [|apply inv_ret; side].
  apply inv_same; [side|]. intros st r st' [= _ <-]. reflexivity.
Qed.

End BlankOutput.

(** X15: up to the first step that the evaluator leaves out, a program
    prints nothing but empty lines.  Every call in a program that parses is
    without arguments, so whatever such a program does, each line it has
    printed when it ends, or when it reaches such a step, is the empty one
    of a WriteLine without arguments.  Beyond such a step nothing is said:
    through an attribute such as Console.WriteLine.__globals__ a program
    reaches objects of the host and can print other text. *)
Theorem programs_print_blank_lines (h : Parser.host) (n : nat) (src : pystr)
    (input : list pystr) (r : res value) (st' : Interp.state) :
  Interp.run_source h n src input = (r, st') →
  Forall (λ line, line = []) (Interp.stdout st').
Proof.
  unfold Interp.run_source, Parser.parse_program.
  destruct (Parser.program_items h (Lexer.lex (Parser.unicode_Nd h) src) n [] 0%nat)
    as [p i'] eqn:E. cbn [fst].
  destruct p as [prog|e| |w]; try (intros [= _ <-]; constructor).
  intros H.
  assert (Hflat : forallb flat_stmt prog = true).
  { eapply (returns_program_items h _ n [] eq_refl), E. }
  refine (proj1 (run_program_blank n prog Hflat _ _ _ I H _)).
  split; [constructor | apply map_Forall_empty].
Qed.

Lemma programs_print_blank_lines_witness :
  Forall (λ line, line = [])
    (Interp.stdout (Interp.set_stdout [[]; []] (Interp.Runtime []))).
Proof.
  apply (programs_print_blank_lines Parser.ascii_host 20 (cps Samples.short_circuit_src)
           [] (Val VNone)).
  vm_compute. reflexivity.
Defined.

(** ** The evaluator: returns, calls and loops *)

Section ReturnFacts.
Import Ast Interp.

Lemma exec_return n env rv st v st1 :
  (match rv with
   | Some e => eval_expr n env e st
   | None => (Val VNone, st)
   end) = (Val v, st1) →
  exec_stmt (S n) env (SReturn rv) st = (Exc (ReturnSignal v), st1).
Proof.
  intros H. cbn [exec_stmt]. destruct rv as [e|].
  - rewrite (bind_val _ _ _ _ _ H). reflexivity.
  - unfold bind, ret. injection H as <- <-. reflexivity.
Qed.

Lemma forM_raise {A} (f : A → M unit) pre a post st st1 e st2 :
  forM_ pre f st = (Val tt, st1) → f a st1 = (Exc e, st2) →
  forM_ (pre ++ a :: post) f st = (Exc e, st2).
Proof.
  intros Hpre Ha. rewrite forM_app, (bind_val _ _ _ _ _ Hpre).
  cbn [forM_]. unfold bind. rewrite Ha. reflexivity.
Qed.

Lemma bind_never {A} (m : M A) (k : A → M unit) :
  (∀ a s r s', k a s = (r, s') → r ≠ Val tt) →
  ∀ st r st', bind m k st = (r, st') → r ≠ Val tt.
Proof.
  intros Hk st r st'. unfold bind.
  destruct (m st) as [[a|e| |w] s1]; try (intros [= <- _]; discriminate). apply Hk.
Qed.

Lemma for_loop_none n : ∀ env post body st r st',
  for_loop n env None post body st = (r, st') → r ≠ Val tt.
Proof.
  induction n as [|n IH]; intros env post body st r st'; cbn [for_loop].
  - intros [= <- _]. discriminate.
  - unfold bind at 1. cbn [ret].
    apply bind_never. intros _ s1 r1 s1'.
    apply bind_never. intros _ s2 r2 s2'. apply IH.
Qed.

End ReturnFacts.

(** X16: a return statement at top level ends the program with an
    uncaught return signal.  Once the items before it have run, the value is
    computed and the signal raised; nothing catches it in [run_source], so
    the items after it do not run, Main is not called, and the program has
    no result. *)
Theorem toplevel_return_escapes (n : nat) (pre post : list Ast.stmt)
    (rv : option Ast.expr) (st st2 st3 : Interp.state) (v : value) :
  let prog := pre ++ Ast.SReturn rv :: post in
  let st1 := Interp.set_functions (foldl register_item (Interp.functions st) prog) st in
  Interp.run_items (S n) pre st1 = (Val tt, st2) →
  (match rv with
   | Some e => Interp.eval_expr n Interp.Globals e st2
   | None => (Val VNone, st2)
   end) = (Val v, st3) →
  Interp.run_program (S n) prog st = (Exc (ReturnSignal v), st3).
Proof.
  intros prog st1 Hpre Hv. unfold Interp.run_program.
  rewrite (bind_val _ _ _ _ _ (register_funcs_run n prog st)). fold st1.
  apply bind_exc. unfold Interp.run_items.
  apply (forM_raise _ pre (Ast.SReturn rv) post st1 st2); [exact Hpre|].
  cbn [Ast.is_func negb]. apply exec_return, Hv.
Qed.

Lemma toplevel_return_escapes_witness :
  Parser.parse_program Parser.ascii_host 9 (cps "return 5; Console.WriteLine();")
  = Val [Ast.SReturn (Some (Ast.ENumber (Ast.Int 5)));
         Ast.SExpr (Ast.ECall "Console.WriteLine" [])]
  ∧ Interp.run_program 3
      [Ast.SReturn (Some (Ast.ENumber (Ast.Int 5)));
       Ast.SExpr (Ast.ECall "Console.WriteLine" [])] (Interp.Runtime [])
    = (Exc (ReturnSignal (VInt 5)), Interp.Runtime []).
Proof.
  split; [vm_compute; reflexivity|].
  refine (toplevel_return_escapes 2 [] [Ast.SExpr (Ast.ECall "Console.WriteLine" [])]
            (Some (Ast.ENumber (Ast.Int 5))) (Interp.Runtime []) (Interp.Runtime [])
            (Interp.Runtime []) (VInt 5) _ _); reflexivity.
Defined.

(** X17: the result of a call of a registered function.  With the
    arguments evaluated and the parameters bound, the body runs as a block:
    if it completes, the call yields None; if a return signal leaves it,
    from whatever depth, the call yields the value of the signal and the
    state in which it was raised; any other exception leaves the call as it
    is.  In a block, a return statement reached after the statements before
    it raises the signal with its value, and the statements after it do not
    run. *)
Theorem call_result (n : nat) (env : Interp.envref) (callee : string)
    (args : list Ast.expr) (st st1 : Interp.state) (f : Ast.funcdecl) (vs : list value) :
  Interp.has_dot callee = false → callee ≠ "List" →
  Interp.functions st !! callee = Some f →
  mapM (Interp.eval_expr n env) args st = (Val vs, st1) →
  let callee_env := Interp.Frame (length (Interp.frames st1)) in
  let st2 := Interp.set_frames
               (Interp.frames st1 ++ [bound_env (Ast.f_params f) vs (Interp.globals st1)])
               st1 in
  let call := Interp.eval_expr (S n) env (Ast.ECall callee args) st in
  (∀ sb, Interp.exec_block n callee_env (Ast.f_body f) st2 = (Val tt, sb) →
     call = (Val VNone, sb))
  ∧ (∀ v sb, Interp.exec_block n callee_env (Ast.f_body f) st2 = (Exc (ReturnSignal v), sb) →
       call = (Val v, sb))
  ∧ (∀ e sb, Interp.exec_block n callee_env (Ast.f_body f) st2 = (Exc e, sb) →
       (∀ v, e ≠ ReturnSignal v) → call = (Exc e, sb))
  ∧ (∀ m env' pre rv post sa sb v sc,
       Interp.exec_block (S m) env' pre sa = (Val tt, sb) →
       (match rv with
        | Some e => Interp.eval_expr m env' e sb
        | None => (Val VNone, sb)
        end) = (Val v, sc) →
       Interp.exec_block (S m) env' (pre ++ Ast.SReturn rv :: post) sa
       = (Exc (ReturnSignal v), sc)).
Proof.
  intros Hdot Hl Hf Hargs callee_env st2 call.
  assert (Hcall : call = Interp.catch_return
                           (Interp.exec_block n callee_env (Ast.f_body f)) st2).
  { apply call_user; try assumption. rewrite Hdot. reflexivity. }
  split; [|split; [|split]].
  - intros sb H. rewrite Hcall. unfold Interp.catch_return. rewrite H. reflexivity.
  - intros v sb H. rewrite Hcall. unfold Interp.catch_return. rewrite H. reflexivity.
  - intros e sb H Hne. rewrite Hcall. unfold Interp.catch_return. rewrite H.
    destruct e; try reflexivity. exfalso. eapply Hne. reflexivity.
  - intros m env' pre rv post sa sb v sc Hpre Hv.
    unfold Interp.exec_block, Interp.exec_block_with in *.
    apply (forM_raise _ pre (Ast.SReturn rv) post sa sb); [exact Hpre|].
    apply exec_return, Hv.
Qed.

Lemma call_result_witness :
  Interp.eval_expr 5 Interp.Globals
    (Ast.ECall "first" [Ast.ENumber (Ast.Int 1); Ast.ENumber (Ast.Int 2)])
    Samples.first_declared
  = (Val (VInt 1), Interp.set_frames [{[ "a" := VInt 1 ]}] Samples.first_declared).
Proof.
  refine (proj1 (proj2 (call_result 4 Interp.Globals "first"
            [Ast.ENumber (Ast.Int 1); Ast.ENumber (Ast.Int 2)]
            Samples.first_declared Samples.first_declared
            (Ast.mkFunc "first" ["a"] [Ast.SReturn (Some (Ast.EVar "a"))] (cps "int"))
            [VInt 1; VInt 2] _ _ _ _)) (VInt 1) _ _).
  - reflexivity.
  - discriminate.
  - reflexivity.
  - reflexivity.
  - vm_compute. reflexivity.
Defined.

(** X18: a for statement without a condition never completes.  Whatever
    its initialiser, its step and its body are, and whatever the budget, the
    statement does not end normally: the only ways out of the loop are an
    exception and a return signal. *)
Theorem for_without_condition_never_completes (n : nat) (env : Interp.envref)
    (init : option Ast.for_init) (post : option Ast.expr) (body : Ast.stmt)
    (st st' : Interp.state) (r : res unit) :
  Interp.exec_stmt n env (Ast.SFor init None post body) st = (r, st') → r ≠ Val tt.
Proof.
  destruct n as [|n]; cbn [Interp.exec_stmt]; [intros [= <- _]; discriminate|].
  apply bind_never. intros _ s1 r1 s1'. apply for_loop_none.
Qed.

Lemma for_without_condition_never_completes_witness :
  Parser.parse_program Parser.ascii_host 9 (cps "for (;;) {}")
  = Val [Ast.SFor None None None (Ast.SBlock [])]
  ∧ fst (Interp.exec_stmt 50 Interp.Globals (Ast.SFor None None None (Ast.SBlock []))
           (Interp.Runtime [])) ≠ Val tt.
Proof.
  split; [vm_compute; reflexivity|].
  eapply (for_without_condition_never_completes 50 Interp.Globals None None
            (Ast.SBlock []) (Interp.Runtime [])).
  apply surjective_pairing.
Defined.

(** ** The evaluator: names, operators and the standard library *)

Section NameFacts.
Import Ast Interp.

Lemma split_dot_plain s : has_dot s = false → split_dot s = [s].
Proof.
  unfold has_dot. induction s as [|c s IH]; [reflexivity|].
  cbn [list_ascii_of_string existsb split_dot]. intros H.
  apply orb_false_elim in H. destruct H as [Hc Hs].
  rewrite Ascii.eqb_sym, Hc, (IH Hs). reflexivity.
Qed.

Lemma split_dot_cons c r :
  Ascii.eqb c "." = false →
  split_dot (String c r) =
    match split_dot r with
    | h :: t => String c h :: t
    | [] => [String c EmptyString]
    end.
Proof. intros H. cbn [split_dot]. rewrite H. reflexivity. Qed.

Lemma split_dot_Console part :
  has_dot part = false → split_dot ("Console." ++ part) = ["Console"%string; part].
Proof.
  intros H. cbv [append]. rewrite !split_dot_cons by reflexivity.
  cbn [split_dot]. simpl (Ascii.eqb "." "."). cbv iota.
  rewrite (split_dot_plain _ H). reflexivity.
Qed.

Lemma stdlib_get_other name :
  name ≠ "Console"%string → name ≠ "List"%string → stdlib_get name = None.
Proof.
  intros H1 H2. unfold stdlib_get, load_stdlib. cbn [find fst].
  apply not_eq_sym, String.eqb_neq in H1. apply not_eq_sym, String.eqb_neq in H2.
  rewrite H1, H2. reflexivity.
Qed.

End NameFacts.

(** X19: reading a name that is bound nowhere raises NameError with the
    whole name.  This is so for a simple name other than Console and List,
    and for a dotted name whose first segment is neither of them: a member
    of a variable of the program cannot be read. *)
Theorem unbound_name_raises (n : nat) (env : Interp.envref) (name : string)
    (st : Interp.state) :
  Interp.env_dict env st !! name = None →
  Interp.globals st !! name = None →
  hd EmptyString (Interp.split_dot name) ≠ "Console"%string →
  hd EmptyString (Interp.split_dot name) ≠ "List"%string →
  Interp.eval_expr (S n) env (Ast.EVar name) st = (Exc (NameError name), st).
Proof.
  intros He Hg Hc Hl. cbn [Interp.eval_expr]. unfold Interp.lookup_var, bind, gets.
  rewrite He, Hg. destruct (Interp.has_dot name) eqn:Hdot.
  - rewrite (stdlib_get_other _ Hc Hl). reflexivity.
  - rewrite (split_dot_plain _ Hdot) in Hc, Hl. cbn [hd] in Hc, Hl.
    rewrite (stdlib_get_other _ Hc Hl). reflexivity.
Qed.

Lemma unbound_name_raises_witness :
  Interp.eval_expr 1 Interp.Globals (Ast.EVar "xs.size") Samples.xs_declared
  = (Exc (NameError "xs.size"), Samples.xs_declared).
Proof.
  apply (unbound_name_raises 0 Interp.Globals "xs.size" Samples.xs_declared);
    [reflexivity | reflexivity | discriminate | discriminate].
Defined.

(** X20: the edges of a foreach statement.  The sequence is looked up by
    name in the current environment, then globally, and is None when the
    name is bound nowhere.  When it is None, a number, a boolean, one of
    the library's functions or the Console object, the statement raises
    TypeError, not NameError, and touches nothing; over the empty string
    and over an empty list it completes without running the body and
    without binding the variable. *)
Theorem foreach_edge_cases (n : nat) (env : Interp.envref) (name seq : string)
    (body : Ast.stmt) (st : Interp.state) :
  let v := default (default VNone (Interp.globals st !! seq))
             (Interp.env_dict env st !! seq) in
  (no_sequence v = true →
   Interp.exec_stmt (S n) env (Ast.SForeach name seq body) st = (Exc TypeError, st))
  ∧ (Interp.env_dict env st !! seq = None → Interp.globals st !! seq = None →
     v = VNone)
  ∧ (v = VStr [] →
     Interp.exec_stmt (S n) env (Ast.SForeach name seq body) st = (Val tt, st))
  ∧ (∀ a, v = VList a → Interp.lists st !! a = Some [] →
       Interp.exec_stmt (S (S n)) env (Ast.SForeach name seq body) st = (Val tt, st)).
Proof.
  intros v. split; [|split; [|split]].
  - intros Hv. cbn [Interp.exec_stmt]. unfold bind, gets. fold v.
    destruct v; try reflexivity; discriminate Hv.
  - intros Hd Hg. unfold v. rewrite Hd, Hg. reflexivity.
  - intros Hv. cbn [Interp.exec_stmt]. unfold bind at 1 2, gets. fold v. rewrite Hv.
    reflexivity.
  - intros a Hv Ha. cbn [Interp.exec_stmt]. unfold bind at 1 2, gets. fold v. rewrite Hv.
    cbn [Interp.foreach_loop]. unfold bind, Interp.list_obj. rewrite Ha. reflexivity.
Qed.

(** X21: division and remainder.  The operator [/] never yields an
    integer: whenever it has a value, the value is a float.  An integer
    divided by the integer zero, with [/] or with [%], raises
    ZeroDivisionError.  The remainder of two integers takes the sign of the
    divisor. *)
Theorem division_and_remainder (x y : Z) (st : Interp.state) :
  (∀ a b v st', Interp.ops Ast.Div a b st = (Val v, st') → ∃ f, v = VFloat f)
  ∧ Interp.ops Ast.Div (VInt x) (VInt 0) st = (Exc ZeroDivisionError, st)
  ∧ Interp.ops Ast.Mod (VInt x) (VInt 0) st = (Exc ZeroDivisionError, st)
  ∧ (y ≠ 0%Z →
     ∃ r, Interp.ops Ast.Mod (VInt x) (VInt y) st = (Val (VInt r), st)
          ∧ (x = y * (x / y) + r)%Z
          ∧ ((0 < y → 0 ≤ r < y) ∧ (y < 0 → y < r ≤ 0))%Z).
Proof.
  split; [|split; [|split]].
  - intros a b v st'. cbn [Interp.ops]. unfold Interp.op_div.
    destruct (Interp.as_num a) as [p|]; [|discriminate].
    destruct (Interp.as_num b) as [q|]; [|destruct p; discriminate].
    unfold lift, Interp.true_div, Interp.with_floats.
    destruct p as [p|p], q as [q|q]; cbn [Interp.to_float];
      repeat match goal with
             | |- context [float_of_Z ?z] => destruct (float_of_Z z)
             | |- context [if ?c then _ else _] => destruct c
             end;
      intros [= <- _]; eauto.
  - reflexivity.
  - reflexivity.
  - intros Hy. exists (x mod y)%Z. split; [|split].
    + cbn [Interp.ops]. unfold Interp.op_mod. cbn [Interp.as_num lift Interp.modulo].
      destruct (Z.eqb_spec y 0); [contradiction | reflexivity].
    + apply Z.div_mod. exact Hy.
    + split; intros H; [apply Z.mod_pos_bound | apply Z.mod_neg_bound]; exact H.
Qed.

(** X22: the members of Console.  WriteLine prints the values of its
    arguments, evaluated from left to right, as one line and yields None;
    ReadLine without arguments takes the next line of input, or yields the
    empty string and leaves the state alone when no input is left; any
    other member whose name does not start with an underscore raises
    AttributeError before an argument is evaluated.  (A name that starts
    with an underscore is an attribute of the host's, such as __dir__, and
    is not described.) *)
Theorem console_members (n : nat) (env : Interp.envref) (args : list Ast.expr)
    (st : Interp.state) :
  (∀ vs st1, mapM (Interp.eval_expr n env) args st = (Val vs, st1) →
     Interp.eval_expr (S n) env (Ast.ECall "Console.WriteLine" args) st
     = (Val VNone, Interp.set_stdout (Interp.stdout st1 ++ [vs]) st1))
  ∧ Interp.eval_expr (S n) env (Ast.ECall "Console.ReadLine" []) st
    = match Interp.stdin st with
      | line :: rest => (Val (VStr line), Interp.set_stdin rest st)
      | [] => (Val (VStr []), st)
      end
  ∧ (∀ part, Interp.has_dot part = false →
       Interp.starts_with_underscore part = false →
       part ≠ "WriteLine"%string → part ≠ "ReadLine"%string →
       Interp.eval_expr (S n) env (Ast.ECall ("Console." ++ part) args) st
       = (Exc (AttributeError part), st)).
Proof.
  split; [|split].
  - intros vs st1 H. cbn [Interp.eval_expr].
    change (Interp.has_dot "Console.WriteLine"
            && String.eqb (hd EmptyString (Interp.split_dot "Console.WriteLine")) "Console")
      with true. cbv iota.
    change (nth 1 (Interp.split_dot "Console.WriteLine") EmptyString)
      with "WriteLine"%string.
    unfold bind at 1. cbn [Interp.getattr Interp.starts_with_underscore Ascii.eqb].
    change (Interp.getattr VConsole "WriteLine" st) with (Val (VBuiltin WriteLine), st).
    cbv iota beta. rewrite (bind_val _ _ _ _ _ H). reflexivity.
  - destruct (Interp.stdin st) eqn:E; cbn; unfold bind; cbn; unfold Interp.read_line;
      rewrite E; reflexivity.
  - intros part Hdot Hu Hw Hr. cbn [Interp.eval_expr].
    assert (Hs : Interp.split_dot ("Console." ++ part) = ["Console"%string; part]).
    { apply split_dot_Console, Hdot. }
    assert (Hd : Interp.has_dot ("Console." ++ part) = true) by reflexivity.
    rewrite Hd, Hs. cbn [hd nth andb]. simpl (String.eqb "Console" "Console"). cbv iota.
    unfold bind at 1. unfold Interp.getattr. rewrite Hu.
    apply String.eqb_neq in Hw, Hr. rewrite Hw, Hr. reflexivity.
Qed.

(** X23: a block opens no scope.  A variable declared inside a block is
    bound in the environment the block runs in, and is still bound there
    when the block has ended. *)
Theorem block_opens_no_scope (n : nat) (env : Interp.envref) (ty : pystr) (x : string)
    (e : Ast.expr) (st st1 : Interp.state) (v : value) :
  Interp.eval_expr n env e st = (Val v, st1) →
  env_valid env st →
  ∃ st',
    Interp.exec_stmt (S (S n)) env (Ast.SBlock [Ast.SVarDecl ty x (Some e)]) st
    = (Val tt, st')
    ∧ Interp.env_dict env st' = <[x := v]> (Interp.env_dict env st).
Proof.
  intros Hv Hvalid.
  destruct (eval_expr_frame _ _ _ _ _ _ Hv) as (Hg & Hlen & Hfr).
  eexists. split.
  - cbn [Interp.exec_stmt]. unfold Interp.exec_block_with. cbn [forM_].
    unfold bind at 1. cbn [Interp.exec_stmt]. rewrite (bind_val _ _ _ _ _ Hv).
    reflexivity.
  - destruct env as [|k]; cbn.
    + rewrite Hg. reflexivity.
    + cbn in Hvalid. rewrite list_lookup_alter_eq, (Hfr k Hvalid).
      destruct (lookup_lt_is_Some_2 (Interp.frames st) k Hvalid) as [d ->]. reflexivity.
Qed.

Lemma block_opens_no_scope_witness :
  ∃ st',
    Interp.exec_stmt 3 Interp.Globals
      (Ast.SBlock [Ast.SVarDecl (cps "var") "y" (Some (Ast.ENumber (Ast.Int 2)))])
      Samples.x_is_1
    = (Val tt, st')
    ∧ Interp.env_dict Interp.Globals st' = <["y" := VInt 2]> {[ "x" := VInt 1 ]}.
Proof.
  apply (block_opens_no_scope 1 Interp.Globals (cps "var") "y" (Ast.ENumber (Ast.Int 2))
           Samples.x_is_1 Samples.x_is_1 (VInt 2)); [reflexivity | exact I].
Defined.

(** X24: the functions of a namespace are not registered ahead.  The first
    loop of [run_source] looks at the top-level items only, and a namespace
    is a block: a call that stands before the namespace of the function it
    names raises NameError, before any argument is evaluated, although
    running the block does register the function. *)
Theorem namespace_functions_not_hoisted (n : nat) (name : string) (ps : list string)
    (body more : list Ast.stmt) (rt : pystr) (args : list Ast.expr) (input : list pystr) :
  Interp.has_dot name = false → name ≠ "List"%string →
  Interp.run_program (S (S n))
    [Ast.SExpr (Ast.ECall name args); Ast.SBlock (Ast.SFunc name ps body rt :: more)]
    (Interp.Runtime input)
  = (Exc (NameError name), Interp.Runtime input)
  ∧ Interp.exec_stmt (S (S n)) Interp.Globals (Ast.SBlock [Ast.SFunc name ps body rt])
      (Interp.Runtime input)
    = (Val tt, Interp.set_functions {[ name := Ast.mkFunc name ps body rt ]}
                 (Interp.Runtime input)).
Proof.
  intros Hdot Hl. split; [|reflexivity].
  unfold Interp.run_program, Interp.register_funcs, Interp.run_items.
  cbn [forM_ Ast.is_func negb]. unfold bind at 1. unfold bind at 1. cbn [ret].
  unfold bind at 1. cbn [ret]. apply bind_exc. apply bind_exc.
  cbn [Interp.exec_stmt]. apply bind_exc. cbn [Interp.eval_expr].
  rewrite Hdot. cbn [andb]. apply String.eqb_neq in Hl. rewrite Hl.
  reflexivity.
Qed.

Lemma namespace_functions_not_hoisted_witness :
  Parser.parse_program Parser.ascii_host 9 (cps "Hello(); namespace N { void Hello() { } }")
  = Val [Ast.SExpr (Ast.ECall "Hello" []); Ast.SBlock [Ast.SFunc "Hello" [] [] (cps "void")]]
  ∧ Interp.run_program 2
      [Ast.SExpr (Ast.ECall "Hello" []); Ast.SBlock [Ast.SFunc "Hello" [] [] (cps "void")]]
      (Interp.Runtime [])
    = (Exc (NameError "Hello"), Interp.Runtime []).
Proof.
  split; [vm_compute; reflexivity|].
  refine (proj1 (namespace_functions_not_hoisted 0 "Hello" [] [] [] (cps "void") [] [] _ _));
    [reflexivity | discriminate].
Defined.

(** X25: strings do not mix with other values.  The operator [+] on a
    string and a number, a boolean, None, a list, one of the library's
    functions or the Console object raises TypeError, in either order, and
    so do the four ordering comparisons; [==] between them is false and
    [!=] true, in either order; [-] and [/] raise TypeError whenever an
    operand is a string; [+] on two strings concatenates them.  (The
    operator [*] repeats a string, and [%] with a string on the left is the
    host's string formatting, which is not described.) *)
Theorem strings_do_not_mix (s : pystr) (v : value) (st : Interp.state) :
  no_string v = true →
  Interp.ops Ast.Add (VStr s) v st = (Exc TypeError, st)
  ∧ Interp.ops Ast.Add v (VStr s) st = (Exc TypeError, st)
  ∧ (∀ op, op ∈ [Ast.Lt; Ast.Gt; Ast.Le; Ast.Ge] →
       Interp.ops op (VStr s) v st = (Exc TypeError, st)
       ∧ Interp.ops op v (VStr s) st = (Exc TypeError, st))
  ∧ Interp.ops Ast.Eq (VStr s) v st = (Val (VBool false), st)
  ∧ Interp.ops Ast.Eq v (VStr s) st = (Val (VBool false), st)
  ∧ Interp.ops Ast.Ne (VStr s) v st = (Val (VBool true), st)
  ∧ Interp.ops Ast.Ne v (VStr s) st = (Val (VBool true), st)
  ∧ (∀ op w, op ∈ [Ast.Sub; Ast.Div] →
       Interp.ops op (VStr s) w st = (Exc TypeError, st)
       ∧ Interp.ops op w (VStr s) st = (Exc TypeError, st))
  ∧ (∀ t, Interp.ops Ast.Add (VStr s) (VStr t) st = (Val (VStr (s ++ t)), st)).
Proof.
  intros Hv.
  split; [|split; [|split; [|split; [|split; [|split; [|split; [|split]]]]]]].
  1,2,4,5,6,7: destruct v; try reflexivity; discriminate Hv.
  - intros op Hop. apply list_elem_of_In in Hop. cbn [In] in Hop.
    destruct Hop as [<-|[<-|[<-|[<-|[]]]]];
      (split; destruct v; try reflexivity; discriminate Hv).
  - intros op w Hop. apply list_elem_of_In in Hop. cbn [In] in Hop.
    destruct Hop as [<-|[<-|[]]]; (split; destruct w; reflexivity).
  - intros t. reflexivity.
Qed.

Lemma strings_do_not_mix_witness :
  Interp.ops Ast.Add (VStr (cps "a")) (VInt 1) (Interp.Runtime [])
  = (Exc TypeError, Interp.Runtime []).
Proof.
  refine (proj1 (strings_do_not_mix (cps "a") (VInt 1) (Interp.Runtime []) _)).
  reflexivity.
Defined.

(** ** Identifiers are maximal *)

Section LexerMunch.
Import Lexer.
Variable Nd : N → bool.

Lemma span_take p s : Forall (λ c, p c = true) (take (span p s) s).
Proof.
  induction s as [|c s IH]; cbn [span]; [constructor|].
  destruct (p c) eqn:E; cbn [take]; constructor; assumption.
Qed.

Lemma span_stop p s c : drop (span p s) s !! 0%nat = Some c → p c = false.
Proof.
  induction s as [|d s IH]; cbn [span]; [discriminate|].
  destruct (p d) eqn:E; cbn [drop]; [exact IH|]. intros [= <-]. exact E.
Qed.

Lemma finditer_from_master s : ∀ skip p,
  Forall (λ m, ∃ k, mstart m = (p + k)%nat
                    ∧ MASTER Nd (drop k s) = Some (lastgroup m, length (mgroup m))
                    ∧ mgroup m = take (length (mgroup m)) (drop k s))
    (finditer_from Nd skip p s).
Proof.
  induction s as [|c s IH]; intros skip p; [constructor|].
  assert (Hshift : ∀ sk, Forall (λ m, ∃ k, mstart m = (p + k)%nat
                    ∧ MASTER Nd (drop k (c :: s)) = Some (lastgroup m, length (mgroup m))
                    ∧ mgroup m = take (length (mgroup m)) (drop k (c :: s)))
                    (finditer_from Nd sk (S p) s)).
  { intros sk. eapply Forall_impl; [apply (IH sk (S p))|].
    intros m (k & H1 & H2 & H3). exists (S k). cbn [drop].
    split; [lia|]. split; assumption. }
  destruct skip as [|sk]; cbn [finditer_from]; [|apply Hshift].
  destruct (MASTER Nd (c :: s)) as [[g n]|] eqn:E; [|apply Hshift].
  constructor; [|apply Hshift].
  pose proof (MASTER_bounds Nd _ _ _ E) as Hn.
  exists 0%nat. cbn [mstart mgroup lastgroup drop]. rewrite length_take.
  replace (n `min` length (c :: s))%nat with n by lia.
  split; [lia|]. split; [exact E | reflexivity].
Qed.

Lemma MASTER_ID s n :
  MASTER Nd s = Some (ID, n) →
  ∃ c r, s = c :: r ∧ is_id_start c = true ∧ n = S (span is_id_char r).
Proof.
  unfold MASTER, TOKEN_SPEC. cbn [first_match].
  destruct (match_NUMBER Nd s); [discriminate|].
  destruct (match_STRING s); [discriminate|].
  destruct (match_ID s) as [k|] eqn:E.
  - intros [= <-]. destruct s as [|c r]; [discriminate|]. unfold match_ID in E.
    destruct (is_id_start c) eqn:Ec; [|discriminate]. injection E as <-. eauto.
  - destruct (match_OP s); [discriminate|].
    destruct (match_WS s); [discriminate|].
    destruct (match_COMMENT s); discriminate.
Qed.

End LexerMunch.

(** X26: an identifier token is a maximal identifier.  A token of type ID
    starts with a letter or an underscore, consists of letters, digits and
    underscores, and the character that follows it in the source, if there
    is one, is none of these. *)
Theorem identifiers_are_maximal (Nd : N → bool) (src : pystr) :
  Forall (λ t, Lexer.type t = "ID"%string →
               (∃ c r, Lexer.val t = c :: r ∧ Lexer.is_id_start c = true
                       ∧ Forall (λ x, Lexer.is_id_char x = true) r)
               ∧ (∀ c, src !! (Lexer.pos t + length (Lexer.val t))%nat = Some c →
                    Lexer.is_id_char c = false))
    (Lexer.lex Nd src).
Proof.
  unfold Lexer.lex. apply Forall_app. split; [|repeat constructor; discriminate].
  pose proof (finditer_from_master Nd src 0 0) as Hm. fold (Lexer.finditer Nd src) in Hm.
  induction Hm as [|m ms (k & H1 & H2 & H3) _ IH]; cbn [Lexer.lex_loop]; [constructor|].
  destruct (Lexer.is_skipped (Lexer.lastgroup m)) eqn:Es; [exact IH|].
  constructor; [|exact IH]. cbn [Lexer.type Lexer.val Lexer.pos]. intros Hty.
  assert (Hg : Lexer.lastgroup m = Lexer.ID).
  { destruct (Lexer.lastgroup m); cbn [Lexer.is_ID andb Lexer.group_name] in Hty;
      try discriminate. reflexivity. }
  rewrite Hg in *. cbn in H1. subst k.
  destruct (MASTER_ID Nd _ _ H2) as (c & r & Hs & Hc & Hlen).
  split.
  - exists c, (take (Lexer.span Lexer.is_id_char r) r).
    rewrite H3, Hs, Hlen. cbn [take]. split; [reflexivity|]. split; [exact Hc|].
    apply span_take.
  - intros x Hx. apply (span_stop Lexer.is_id_char r).
    rewrite lookup_drop, Nat.add_0_r.
    rewrite Hlen in Hx.
    assert (Hr : r = drop (S (Lexer.mstart m)) src).
    { replace (S (Lexer.mstart m)) with (Lexer.mstart m + 1)%nat by lia.
      rewrite <- drop_drop, Hs. reflexivity. }
    assert (Hri : ∀ j, r !! j = src !! (S (Lexer.mstart m) + j)%nat).
    { intros j. rewrite Hr at 1. apply lookup_drop. }
    rewrite Hri, <- Hx. f_equal. lia.
Qed.

(** X27: an expression binds nothing.  However the evaluation of an
    expression ends, the global dictionary and the current environment hold
    the bindings they held before: a function that is called works on its
    own copy of the global dictionary, so no call can assign to a global
    variable or to a variable of its caller. *)
Theorem expressions_bind_nothing (n : nat) (env : Interp.envref) (e : Ast.expr)
    (st st' : Interp.state) (r : res value) :
  Interp.eval_expr n env e st = (r, st') →
  env_valid env st →
  Interp.globals st' = Interp.globals st
  ∧ Interp.env_dict env st' = Interp.env_dict env st.
Proof.
  intros H Hvalid. destruct (eval_expr_frame _ _ _ _ _ _ H) as (Hg & _ & Hfr).
  split; [exact Hg|]. destruct env as [|k]; cbn; [exact Hg|].
  cbn in Hvalid. rewrite (Hfr k Hvalid). reflexivity.
Qed.

Lemma expressions_bind_nothing_witness :
  Interp.eval_expr 4 Interp.Globals (Ast.ECall "set" []) x_with_set
  = (Val VNone, Interp.set_frames [{[ "x" := VInt 2 ]}] x_with_set)
  ∧ Interp.globals (Interp.set_frames [{[ "x" := VInt 2 ]}] x_with_set) !! "x"
    = Some (VInt 1).
Proof.
  assert (H : Interp.eval_expr 4 Interp.Globals (Ast.ECall "set" []) x_with_set
              = (Val VNone, Interp.set_frames [{[ "x" := VInt 2 ]}] x_with_set))
    by (vm_compute; reflexivity).
  split; [exact H|].
  rewrite (proj1 (expressions_bind_nothing 4 Interp.Globals (Ast.ECall "set" [])
                    x_with_set _ _ H I)).
  reflexivity.
Defined.

(** ** The parser terminates *)

Section DecodeBudget.
Import Literal.
Variable getcode : list N → option N.

Lemma res_map_fuel {A B} (f : A → B) (r : res A) :
  r ≠ OutOfFuel → res_map f r ≠ OutOfFuel.
Proof. destruct r; cbn; congruence. Qed.

Lemma hexescape_length : ∀ count ch s ch' s',
  hexescape count ch s = Val (ch', s') → (length s' ≤ length s)%nat.
Proof.
  induction count as [|k IH]; intros ch s ch' s'; cbn [hexescape].
  - intros [= _ <-]. lia.
  - destruct s as [|c r]; [discriminate|]. destruct (hexval c); [|discriminate].
    intros H. apply IH in H. cbn [length]. lia.
Qed.

Lemma hexescape_fuel : ∀ count ch s, hexescape count ch s ≠ OutOfFuel.
Proof.
  induction count as [|k IH]; intros ch s; cbn [hexescape]; [discriminate|].
  destruct s as [|c r]; [discriminate|]. destruct (hexval c); [apply IH|discriminate].
Qed.

Lemma octalescape_length c s : (length (snd (octalescape c s)) ≤ length s)%nat.
Proof.
  unfold octalescape. destruct s as [|d1 r1]; cbn [snd length]; [lia|].
  destruct (is_octal d1); cbn [snd length]; [|lia].
  destruct r1 as [|d2 r2]; cbn [snd length]; [lia|].
  destruct (is_octal d2); cbn [snd length]; lia.
Qed.

Lemma decode_loop_fuel : ∀ fuel s,
  (length s ≤ fuel)%nat → decode_loop getcode fuel s ≠ OutOfFuel.
Proof.
  induction fuel as [|fuel IH]; intros s Hs; destruct s as [|c r];
    cbn [decode_loop]; try discriminate; cbn [length] in Hs; [lia|].
  destruct (negb (c =? 92)); [apply res_map_fuel, IH; lia|].
  destruct r as [|e r']; [discriminate|]. cbn [length] in Hs.
  destruct (e =? 10); [apply IH; lia|].
  destruct (simple_escape e); [apply res_map_fuel, IH; lia|].
  destruct (is_octal e).
  { pose proof (octalescape_length e r') as Ho.
    destruct (octalescape e r') as [ch r'']. cbn [snd] in Ho.
    apply res_map_fuel, IH. lia. }
  destruct ((e =? 120) || (e =? 117) || (e =? 85)).
  { destruct (hexescape _ 0 r') as [[ch r'']|x| |w] eqn:Eh; cbn [res_bind];
      try discriminate.
    - apply hexescape_length in Eh. destruct (1114111 <? ch); [discriminate|].
      apply res_map_fuel, IH. lia.
    - destruct (hexescape_fuel _ _ _ Eh). }
  destruct (e =? 78); [|apply res_map_fuel, IH; lia].
  destruct r' as [|b r'']; [discriminate|]. cbn [length] in Hs.
  destruct (b =? 123); [|discriminate].
  destruct (drop _ r'') as [|x r3] eqn:Ed; [discriminate|].
  destruct (_ =? 0)%nat; [discriminate|].
  destruct (getcode _); [|discriminate].
  apply res_map_fuel, IH.
  assert (Hd : (length (x :: r3) ≤ length r'')%nat) by (rewrite <- Ed, length_drop; lia).
  cbn [length] in Hd. lia.
Qed.

Lemma utf8_encode_fuel : ∀ s, utf8_encode s ≠ OutOfFuel.
Proof.
  induction s as [|c r IH]; cbn [utf8_encode]; [discriminate|].
  unfold utf8_encode_cp.
  repeat match goal with |- context [if ?b then _ else _] => destruct b end;
    cbn [res_bind]; try discriminate; apply res_map_fuel, IH.
Qed.

Lemma string_value_fuel v : string_value getcode v ≠ OutOfFuel.
Proof.
  unfold string_value.
  destruct (utf8_encode (strip_quotes v)) as [bs|x| |w] eqn:E; cbn [res_bind];
    try discriminate.
  - apply decode_loop_fuel. lia.
  - destruct (utf8_encode_fuel _ E).
Qed.

End DecodeBudget.

Section ParserTermination.
Import Lexer Ast Parser.
Variable h : host.
Variable toks : list Token.
Local Notation L := (length toks).

Lemma number_value_fuel v : number_value h v ≠ OutOfFuel.
Proof.
  unfold number_value.
  repeat match goal with
         | |- context [if ?b then _ else _] => destruct b
         | |- context [match ?o with Some _ => _ | None => _ end] => destruct o
         end; discriminate.
Qed.

Ltac wfacts := split; [lia|]; split; [lia|]; split; [intros; first [congruence | lia]|];
               intros; first [congruence | tauto].

Lemma within_ret {A} E (a : A) i : (i ≤ L)%nat → within L E i (ret a) i.
Proof. intros Hi r i' [= <- <-]. wfacts. Qed.

Lemma within_gets {A} E (f : nat → A) i : (i ≤ L)%nat → within L E i (gets f) i.
Proof. intros Hi r i' [= <- <-]. wfacts. Qed.

Lemma within_raise {A} E lo e i : (i ≤ L)%nat → within L E lo (raise e : ST nat A) i.
Proof. intros Hi r i' [= <- <-]. wfacts. Qed.

Lemma within_unmodelled {A} E lo w i :
  (i ≤ L)%nat → within L E lo (unmodelled w : ST nat A) i.
Proof. intros Hi r i' [= <- <-]. wfacts. Qed.

Lemma within_out_of_fuel {A} (E : Prop) lo i :
  (i ≤ L)%nat → ¬ E → within L E lo (out_of_fuel : ST nat A) i.
Proof. intros Hi HE r i' [= <- <-]. wfacts. Qed.

Lemma within_lift {A} E (x : res A) i :
  (i ≤ L)%nat → x ≠ OutOfFuel → within L E i (lift x) i.
Proof. intros Hi Hx r i' [= <- <-]. wfacts. Qed.

Lemma within_tok_at E j i : (i ≤ L)%nat → within L E i (tok_at toks j) i.
Proof.
  intros Hi r i'. unfold tok_at. destruct (toks !! j); intros [= <- <-]; wfacts.
Qed.

Lemma within_peek E i : (i ≤ L)%nat → within L E i (peek toks) i.
Proof.
  intros Hi r i'. unfold peek, bind, gets, tok_at, id.
  destruct (toks !! i); intros [= <- <-]; wfacts.
Qed.

Lemma within_eat E ty v i : (i ≤ L)%nat → within L E (S i) (eat toks ty v) i.
Proof.
  intros Hi r i'. unfold eat, peek, bind, gets, tok_at, id.
  destruct (toks !! i) as [t|] eqn:Et; cbn; [|intros [= <- <-]; wfacts].
  apply lookup_lt_Some in Et.
  repeat match goal with |- context [if ?b then _ else _] => destruct b end;
    cbn; intros [= <- <-]; wfacts.
Qed.

Lemma within_match E ty v i : (i ≤ L)%nat → within L E i (match_ toks ty v) i.
Proof.
  intros Hi r i'. unfold match_, peek, bind, gets, tok_at, id.
  destruct (toks !! i) as [t|] eqn:Et; cbn; [|intros [= <- <-]; wfacts].
  apply lookup_lt_Some in Et.
  repeat match goal with |- context [if ?b then _ else _] => destruct b end;
    cbn; intros [= <- <-]; wfacts.
Qed.

Lemma within_bind {A B} E lo1 lo (m : ST nat A) (f : A → ST nat B) i :
  within L E lo1 m i →
  (∀ a i1, m i = (Val a, i1) → (i ≤ i1)%nat → (lo1 ≤ i1)%nat → (i1 ≤ L)%nat →
     within L E lo (f a) i1) →
  within L E lo (bind m f) i.
Proof.
  intros Hm Hf r i'. unfold bind.
  destruct (m i) as [[a|e| |w] i1] eqn:Em;
    destruct (Hm _ _ Em) as (H1 & H2 & H3 & H4).
  - intros Hk.
    destruct (Hf a i1 eq_refl H1 (H3 a eq_refl) H2 _ _ Hk) as (K1 & K2 & K3 & K4).
    split; [lia|]. split; [lia|]. split; assumption.
  - intros [= <- <-]. wfacts.
  - intros [= <- <-]. split; [lia|]. split; [lia|]. split; [congruence|].
    intros He. destruct (H4 He eq_refl).
  - intros [= <- <-]. wfacts.
Qed.

Lemma within_bind0 {A B} E lo (m : ST nat A) (f : A → ST nat B) i :
  within L E i m i →
  (∀ a i1, m i = (Val a, i1) → (i ≤ i1)%nat → (i1 ≤ L)%nat → within L E lo (f a) i1) →
  within L E lo (bind m f) i.
Proof.
  intros Hm Hf. apply (within_bind E i lo m f i Hm). intros a i1 Ha H1 _ H2.
  exact (Hf a i1 Ha H1 H2).
Qed.

Lemma within_use {A} (E E' : Prop) lo lo' (m : ST nat A) i :
  within L E' lo' m i → (E → E') → (lo ≤ lo')%nat → within L E lo m i.
Proof.
  intros Hm HE Hlo r i' Hr. destruct (Hm _ _ Hr) as (H1 & H2 & H3 & H4).
  split; [lia|]. split; [lia|]. split.
  - intros a Ha. specialize (H3 a Ha). lia.
  - intros He. apply H4, HE, He.
Qed.

Lemma within_try_pass {A} E lo (m : ST nat (option A)) i :
  within L E i m i → (lo ≤ i)%nat → within L E lo (try_pass m) i.
Proof.
  intros Hm Hlo r i'. unfold try_pass.
  destruct (m i) as [[a|e| |w] i1] eqn:Em;
    destruct (Hm _ _ Em) as (H1 & H2 & H3 & H4); intros [= <- <-].
  - split; [lia|]. split; [lia|]. split; [intros; lia | exact H4].
  - wfacts.
  - split; [lia|]. split; [lia|]. split; [congruence | exact H4].
  - wfacts.
Qed.

(** A step whose bound is known: the primitive steps of the parser. *)
Ltac wprim :=
  first [ apply within_eat | apply within_match | apply within_peek | apply within_gets
        | apply within_tok_at | apply within_ret
        | apply within_lift; [|apply number_value_fuel]
        | apply within_lift; [|apply string_value_fuel] ]; lia.

(** A call of a parsing function whose bound is known. *)
Ltac wcall :=
  match goal with
  | H : context [within] |- within _ _ _ _ _ => apply H; lia
  end.

Ltac whead :=
  first [ wprim
        | eapply within_use; [ wcall | intros; lia | apply Nat.le_refl ] ].

Ltac wtail :=
  first [ apply within_raise; lia
        | apply within_unmodelled; lia
        | apply within_out_of_fuel; lia
        | eapply within_use; [ wprim | intros HE; exact HE | lia ]
        | eapply within_use; [ wcall | intros; lia | lia ] ].

Ltac wstep :=
  lazymatch goal with
  | |- within _ _ _ (bind _ _) _ =>
      first [ eapply within_bind; [ solve [ whead ] | intros ? ? ? ? ? ? ]
            | eapply within_bind0; [ | intros ? ? ? ? ? ] ]
  | |- within _ _ _ (try_pass _) _ => eapply within_try_pass; [ | lia ]
  | |- within _ _ _ (if ?c then _ else _) _ => destruct c eqn:?
  | |- within _ _ _ (match ?x with _ => _ end) _ => destruct x eqn:?
  | |- within _ _ _ _ _ => solve [ wtail ]
  end.

Lemma within_dotted_tail : ∀ n parts i,
  (i ≤ L)%nat →
  within L (3 * (L - i) + 1 ≤ n)%nat i (dotted_tail toks n parts) i.
Proof.
  induction n as [|n IH]; intros parts i Hi; cbn [dotted_tail];
    [apply within_out_of_fuel; lia|].
  repeat wstep.
Qed.

Lemma within_call_args : ∀ n args i,
  (i ≤ L)%nat →
  within L (3 * (L - i) + 1 ≤ n)%nat i (call_args toks n args) i.
Proof.
  induction n as [|n IH]; intros args i Hi; cbn [call_args];
    [apply within_out_of_fuel; lia|].
  unfold parse_expression_no_arg. repeat wstep.
Qed.

Lemma within_parse_primary n i :
  (i ≤ L)%nat →
  within L (3 * (L - i) + 1 ≤ n)%nat (S i) (parse_primary h toks n) i.
Proof.
  intros Hi. pose proof within_dotted_tail as Hd. pose proof within_call_args as Hc.
  unfold parse_primary, parse_expression_no_arg.
  repeat wstep.
Qed.

Lemma within_parse_unary : ∀ n i,
  (i ≤ L)%nat →
  within L (3 * (L - i) + 2 ≤ n)%nat (S i) (parse_unary h toks n) i.
Proof.
  pose proof within_parse_primary as Hp.
  induction n as [|n IH]; intros i Hi; cbn [parse_unary];
    [apply within_out_of_fuel; lia|].
  repeat wstep.
Qed.

Lemma peek_token i t i1 : peek toks i = (Val t, i1) → i1 = i ∧ toks !! i = Some t.
Proof.
  unfold peek, bind, gets, tok_at, id. destruct (toks !! i); intros [= <- <-].
  split; reflexivity.
Qed.

Lemma within_parse_binop : ∀ n,
  (∀ minp lhs i, (i ≤ L)%nat →
     within L (3 * (L - i) + 1 ≤ n)%nat (i + opens toks minp i)
       (parse_binop h toks n minp lhs) i)
  ∧ (∀ prec rhs i, (i ≤ L)%nat →
       within L (3 * (L - i) + 2 ≤ n)%nat i (tighter h toks n prec rhs) i).
Proof.
  pose proof within_parse_unary as Hu.
  induction n as [|n [IHb IHt]]; (split; [intros minp lhs i Hi | intros prec rhs i Hi]);
    cbn [parse_binop tighter]; try (apply within_out_of_fuel; lia).
  - eapply within_bind; [apply within_peek; lia|]. intros t i1 Ht _ _ _.
    apply peek_token in Ht. destruct Ht as [-> Ht].
    unfold opens. rewrite Ht.
    destruct (binary_op t) as [[p op]|]; [|repeat wstep].
    destruct (p <? minp)%nat; [repeat wstep|].
    eapply within_bind; [apply within_eat; lia|]. intros _ i2 _ H2 H2' HL2.
    eapply within_bind; [eapply within_use; [apply Hu; lia | intros; lia | apply Nat.le_refl]|].
    intros r1 i3 _ H3 H3' HL3.
    eapply within_bind0; [eapply within_use; [apply IHt; lia | intros; lia | lia]|].
    intros r2 i4 _ H4 HL4.
    eapply within_use; [apply IHb; lia | intros; lia | lia].
  - eapply within_bind; [apply within_peek; lia|]. intros t i1 Ht _ _ _.
    apply peek_token in Ht. destruct Ht as [-> Ht].
    destruct (binary_op t) as [[p op]|] eqn:Eb; [|repeat wstep].
    destruct (prec <? p)%nat; [|repeat wstep].
    eapply within_bind; [eapply within_use; [apply IHb; lia | intros; lia | apply Nat.le_refl]|].
    intros r1 i2 _ H2 H2' HL2.
    unfold opens in H2'. rewrite Ht, Eb, Nat.ltb_irrefl in H2'.
    eapply within_use; [apply IHt; lia | intros; lia | lia].
Qed.

Lemma within_parse_expression n i :
  (i ≤ L)%nat →
  within L (3 * (L - i) + 2 ≤ n)%nat (S i) (parse_expression h toks n) i.
Proof.
  intros Hi. unfold parse_expression.
  eapply within_bind; [apply within_parse_unary; lia|]. intros lhs i1 _ H1 H1' HL1.
  eapply within_use; [apply (proj1 (within_parse_binop n)); lia | intros; lia | lia].
Qed.

Lemma within_skip_generic : ∀ n i,
  (i ≤ L)%nat →
  within L (3 * (L - i) + 1 ≤ n)%nat i (skip_generic toks n) i.
Proof.
  induction n as [|n IH]; intros i Hi; cbn [skip_generic];
    [apply within_out_of_fuel; lia|].
  repeat wstep.
Qed.

Lemma within_parse_var_decl_fields n i :
  (i ≤ L)%nat →
  within L (3 * (L - i) + 2 ≤ n)%nat (S i) (parse_var_decl_fields h toks n) i.
Proof.
  intros Hi. pose proof within_skip_generic as Hs. pose proof within_parse_expression as He.
  unfold parse_var_decl_fields. repeat wstep.
Qed.

Lemma within_parse_var_decl n i :
  (i ≤ L)%nat →
  within L (3 * (L - i) + 2 ≤ n)%nat (S i) (parse_var_decl h toks n) i.
Proof.
  intros Hi. pose proof within_parse_var_decl_fields as Hf.
  unfold parse_var_decl. repeat wstep.
Qed.

Lemma within_parse_stmt_or_expr n i :
  (i ≤ L)%nat →
  within L (3 * (L - i) + 2 ≤ n)%nat (S i) (parse_stmt_or_expr h toks n) i.
Proof.
  intros Hi. pose proof within_parse_expression as He.
  unfold parse_stmt_or_expr. cbv zeta. repeat wstep.
Qed.

Lemma within_parse_params : ∀ n params i,
  (i ≤ L)%nat →
  within L (3 * (L - i) + 1 ≤ n)%nat (S i) (parse_params toks n params) i.
Proof.
  induction n as [|n IH]; intros params i Hi; cbn [parse_params];
    [apply within_out_of_fuel; lia|].
  repeat wstep.
Qed.

Lemma try_pass_some {A} (m : P (option A)) i a i1 :
  try_pass m i = (Val (Some a), i1) → m i = (Val (Some a), i1).
Proof.
  unfold try_pass. destruct (m i) as [[x|e| |w] i2]; intros [= <- <-]; reflexivity.
Qed.

Lemma tok_at_stays j i t i1 : tok_at toks j i = (Val t, i1) → i1 = i.
Proof. unfold tok_at. destruct (toks !! j); intros [= <- <-]; reflexivity. Qed.

Lemma within_statements : ∀ n,
  (∀ i, (i ≤ L)%nat →
     within L (3 * (L - i) + 4 ≤ n)%nat (S i) (parse_statement h toks n) i)
  ∧ (∀ i, (i ≤ L)%nat →
       within L (3 * (L - i) + 3 ≤ n)%nat (S i) (parse_block h toks n) i)
  ∧ (∀ items i, (i ≤ L)%nat →
       within L (3 * (L - i) + 5 ≤ n)%nat i (block_items h toks n items) i)
  ∧ (∀ i, (i ≤ L)%nat →
       within L (3 * (L - i) + 3 ≤ n)%nat (S i) (parse_if h toks n) i)
  ∧ (∀ i, (i ≤ L)%nat →
       within L (3 * (L - i) + 3 ≤ n)%nat (S i) (parse_for h toks n) i)
  ∧ (∀ i, (i ≤ L)%nat →
       within L (3 * (L - i) + 3 ≤ n)%nat (S i) (parse_foreach h toks n) i)
  ∧ (∀ i, (i ≤ L)%nat →
       within L (3 * (L - i) + 3 ≤ n)%nat (S i) (parse_function h toks n) i).
Proof.
  pose proof within_parse_expression as He.
  pose proof within_parse_var_decl_fields as Hf.
  pose proof within_parse_var_decl as Hv.
  pose proof within_parse_stmt_or_expr as Hs.
  pose proof within_parse_params as Hp.
  induction n as [|n (IHs & IHb & IHi & IHif & IHfor & IHfe & IHfn)].
  - split; [|split; [|split; [|split; [|split; [|split]]]]]; intros;
      apply within_out_of_fuel; lia.
  - split; [|split; [|split; [|split; [|split; [|split]]]]].
    + intros i Hi. cbn [parse_statement]. repeat wstep.
      match goal with
      | Ht : try_pass _ _ = (Val (Some _), _) |- _ =>
          apply try_pass_some in Ht;
          apply bind_val_inv in Ht; destruct Ht as (t1 & j1 & Ht1 & Ht);
          apply bind_val_inv in Ht; destruct Ht as (t2 & j2 & Ht2 & Ht);
          apply bind_val_inv in Ht; destruct Ht as (t3 & j3 & Ht3 & Ht);
          apply tok_at_stays in Ht1, Ht2, Ht3; subst j1 j2 j3;
          destruct (_ && _) in Ht; [|discriminate];
          apply bind_val_inv in Ht; destruct Ht as (s' & j4 & Hfn & Ht);
          injection Ht as _ <-;
          eapply IHfn in Hfn; [|lia];
          destruct Hfn as (_ & _ & Hfn & _); specialize (Hfn _ eq_refl)
      end.
      eapply within_use; [apply within_ret; lia | intros HE; exact HE | lia].
    + intros i Hi. cbn [parse_block]. repeat wstep.
    + intros items i Hi. cbn [block_items]. repeat wstep.
    + intros i Hi. cbn [parse_if]. repeat wstep.
    + intros i Hi. cbn [parse_for]. repeat wstep.
    + intros i Hi. cbn [parse_foreach]. repeat wstep.
    + intros i Hi. cbn [parse_function]. repeat wstep.
Qed.

Lemma within_using_dots : ∀ n i,
  (i ≤ L)%nat →
  within L (3 * (L - i) + 1 ≤ n)%nat i (using_dots toks n) i.
Proof.
  induction n as [|n IH]; intros i Hi; cbn [using_dots];
    [apply within_out_of_fuel; lia|].
  repeat wstep.
Qed.

Lemma within_program_items : ∀ n items i,
  (i ≤ L)%nat →
  within L (3 * (L - i) + 5 ≤ n)%nat i (program_items h toks n items) i.
Proof.
  pose proof within_using_dots as Hu.
  pose proof (λ n, proj1 (within_statements n)) as Hs.
  pose proof (λ n, proj1 (proj2 (within_statements n))) as Hb.
  induction n as [|n IH]; intros items i Hi; cbn [program_items];
    [apply within_out_of_fuel; lia|].
  repeat wstep.
Qed.

End ParserTermination.

Section LexerLength.
Import Lexer.
Variable Nd : N → bool.

Lemma finditer_from_length : ∀ s skip p,
  (length (finditer_from Nd skip p s) ≤ length s)%nat.
Proof.
  induction s as [|c s IH]; intros skip p; cbn [finditer_from length]; [lia|].
  destruct skip as [|k]; [|specialize (IH k (S p)); lia].
  destruct (MASTER Nd (c :: s)) as [[g n]|]; cbn [length].
  - specialize (IH (n - 1)%nat (S p)). lia.
  - specialize (IH 0%nat (S p)). lia.
Qed.

Lemma lex_loop_length : ∀ ms, (length (lex_loop ms) ≤ length ms)%nat.
Proof.
  induction ms as [|m ms IH]; cbn [lex_loop length]; [lia|].
  destruct (is_skipped (lastgroup m)); cbn [length]; lia.
Qed.

Lemma lex_length src : (length (lex Nd src) ≤ S (length src))%nat.
Proof.
  unfold lex, finditer. rewrite length_app. cbn [length].
  pose proof (lex_loop_length (finditer_from Nd 0 0 src)).
  pose proof (finditer_from_length src 0 0). lia.
Qed.

End LexerLength.

(** X28: the parser terminates.  Every loop and every recursive call of
    the parser is preceded by the consumption of a token, so the steps it
    takes are bounded by the length of the source: with a step budget of
    three times the number of characters plus 8, [parse_program] never
    stops for want of steps. *)
Theorem parser_terminates (h : Parser.host) (n : nat) (src : pystr) :
  (3 * length src + 8 ≤ n)%nat → Parser.parse_program h n src ≠ OutOfFuel.
Proof.
  intros Hn. unfold Parser.parse_program.
  pose proof (lex_length (Parser.unicode_Nd h) src) as Hl.
  destruct (Parser.program_items h (Lexer.lex (Parser.unicode_Nd h) src) n [] 0%nat)
    as [r i'] eqn:E.
  apply within_program_items in E; [|lia].
  destruct E as (_ & _ & _ & HE). cbn [fst]. apply HE. lia.
Qed.

Lemma parser_terminates_witness :
  Parser.parse_program Parser.ascii_host 38 (cps "x = y + 1;") ≠ OutOfFuel.
Proof. apply parser_terminates. vm_compute. lia. Defined.

(** X29: parsing moves forward.  From an offset within the token list,
    [parse_statement] and [parse_expression] leave the parser at an offset
    that is not before the one they started from and not past the end of
    the list, however they end; and when they return a statement or an
    expression, they have consumed at least one token. *)
Theorem parsing_moves_forward (h : Parser.host) (toks : list Lexer.Token) (n i : nat) :
  (i ≤ length toks)%nat →
  (∀ r i', Parser.parse_statement h toks n i = (r, i') →
     (i ≤ i' ≤ length toks)%nat ∧ (∀ s, r = Val s → (i < i')%nat))
  ∧ (∀ r i', Parser.parse_expression h toks n i = (r, i') →
       (i ≤ i' ≤ length toks)%nat ∧ (∀ e, r = Val e → (i < i')%nat)).
Proof.
  intros Hi. split; intros r i' E.
  - apply (proj1 (within_statements h toks n) i Hi) in E.
    destruct E as (H1 & H2 & H3 & _). split; [lia|]. intros s Hs. apply (H3 s Hs).
  - apply (within_parse_expression h toks n i Hi) in E.
    destruct E as (H1 & H2 & H3 & _). split; [lia|]. intros e He. apply (H3 e He).
Qed.

Lemma parsing_moves_forward_witness :
  (0 < snd (Parser.parse_statement Parser.ascii_host
              (Lexer.lex Lexer.ascii_Nd (cps "x = y + 1;")) 10%nat 0%nat))%nat.
Proof.
  destruct (parsing_moves_forward Parser.ascii_host
              (Lexer.lex Lexer.ascii_Nd (cps "x = y + 1;")) 10%nat 0%nat) as [Hs _];
    [vm_compute; lia|].
  destruct (Hs _ _ (surjective_pairing _)) as [_ Hadv].
  apply (Hadv (Ast.SAssign (Ast.TVar "x")
                 (Ast.EBin Ast.Add (Ast.EVar "y") (Ast.ENumber (Ast.Int 1))))).
  vm_compute. reflexivity.
Defined.

(** ** The names of functions, and calls above their declaration *)

Section FunctionNames.
Import Lexer Ast Parser.

Lemma keyword_type_not_ID v :
  pystr_in v KEYWORDS = true → ascii_string (upper v) ≠ "ID"%string.
Proof.
  intros H. unfold pystr_in in H. apply existsb_exists in H. destruct H as (k & Hin & Hk).
  apply bool_decide_eq_true in Hk. subst k.
  assert (Hall : Forall (λ k, ascii_string (upper k) ≠ "ID"%string) KEYWORDS).
  { repeat constructor; discriminate. }
  rewrite Forall_forall in Hall. apply Hall, list_elem_of_In, Hin.
Qed.

(** An identifier token is made of identifier characters and is no
    reserved word. *)
Lemma ID_token_chars (Nd : N → bool) (src : pystr) (t : Token) :
  t ∈ lex Nd src → type t = "ID"%string →
  Forall (λ c, is_id_char c = true) (val t) ∧ pystr_in (val t) KEYWORDS = false.
Proof.
  unfold lex. intros Hin Hty. apply elem_of_app in Hin. destruct Hin as [Hin|Hin].
  2:{ apply list_elem_of_singleton in Hin. subst t. discriminate Hty. }
  pose proof (finditer_from_master Nd src 0 0) as Hm. fold (finditer Nd src) in Hm.
  induction Hm as [|m ms (k & H1 & H2 & H3) _ IH]; cbn [lex_loop] in Hin.
  - inversion Hin.
  - destruct (is_skipped (lastgroup m)) eqn:Es; [exact (IH Hin)|].
    apply elem_of_cons in Hin. destruct Hin as [->|Hin]; [|exact (IH Hin)].
    cbn [type val] in *.
    destruct (is_ID (lastgroup m) && pystr_in (mgroup m) KEYWORDS) eqn:Ek.
    + apply andb_true_iff in Ek. destruct Ek as [_ Ek].
      destruct (keyword_type_not_ID _ Ek Hty).
    + assert (Hg : lastgroup m = ID).
      { destruct (lastgroup m); cbn [group_name] in Hty; try discriminate. reflexivity. }
      rewrite Hg in *. cbn [is_ID andb] in Ek. split; [|exact Ek].
      destruct (MASTER_ID Nd _ _ H2) as (c & r & Hs & Hc & Hlen).
      rewrite H3, Hs, Hlen. cbn [take]. constructor.
      * unfold is_id_char. rewrite Hc. reflexivity.
      * apply span_take.
Qed.

Lemma id_char_byte c : is_id_char c = true → c < 256 ∧ c ≠ 46.
Proof.
  unfold is_id_char, is_id_start, between. intros H.
  repeat match goal with
         | H : (_ || _) = true |- _ => apply orb_true_iff in H; destruct H as [H|H]
         | H : (_ && _) = true |- _ => apply andb_true_iff in H; destruct H as [? ?]
         | H : (_ <=? _) = true |- _ => apply N.leb_le in H
         | H : (_ =? _) = true |- _ => apply N.eqb_eq in H
         end; lia.
Qed.

Lemma cps_name_of v :
  Forall (λ c, is_id_char c = true) v → cps (name_of v) = v.
Proof.
  unfold cps, name_of, ascii_string. rewrite list_ascii_of_string_of_list_ascii.
  induction 1 as [|c v Hc _ IH]; [reflexivity|]. cbn [map].
  rewrite IH, N_ascii_embedding by (apply id_char_byte, Hc). reflexivity.
Qed.

(** The name made of an identifier token has no dot and is not List. *)
Lemma identifier_name v :
  Forall (λ c, is_id_char c = true) v → pystr_in v KEYWORDS = false →
  Interp.has_dot (name_of v) = false ∧ name_of v ≠ "List"%string.
Proof.
  intros Hv Hk. pose proof (cps_name_of v Hv) as Hc. split.
  - unfold Interp.has_dot. apply not_true_is_false. intros H.
    apply existsb_exists in H. destruct H as (x & Hx & Hdot).
    apply Ascii.eqb_eq in Hdot. subst x.
    assert (H46 : 46 ∈ cps (name_of v)).
    { unfold cps. apply list_elem_of_In. apply (in_map N_of_ascii) in Hx. exact Hx. }
    rewrite Hc in H46. rewrite Forall_forall in Hv.
    destruct (id_char_byte 46 (Hv _ H46)) as [_ Hne]. apply Hne. reflexivity.
  - intros HL. rewrite HL in Hc. subst v. discriminate Hk.
Qed.

Variable h : host.
Variable toks : list Token.

Lemma returns_eat_ID v :
  returns (λ t, t ∈ toks ∧ type t = "ID"%string) (eat toks (Some "ID"%string) v).
Proof.
  intros i t i'. unfold eat, peek, bind, gets, tok_at, id.
  destruct (toks !! i) as [t0|] eqn:Et; [|discriminate]. cbn.
  destruct (String.eqb_spec (type t0) "ID"); cbn; [|discriminate].
  destruct (match v with Some x => negb (pystr_eqb (val t0) x) | None => false end);
    cbn; [discriminate|].
  intros [= <- _]. split; [eapply list_elem_of_lookup_2, Et | assumption].
Qed.

Ltac named_step :=
  first
    [ apply returns_raise | apply returns_out_of_fuel | apply returns_unmodelled
    | apply returns_ret; exact I
    | match goal with
      | |- returns _ (if ?c then _ else _) => destruct c
      | |- returns _ (match ?x with _ => _ end) => destruct x
      end
    | apply returns_seq; intros ? ].

Lemma named_parse_block n : returns (named_by_ID toks) (parse_block h toks n).
Proof. destruct n; cbn [parse_block]; repeat named_step. Qed.

Lemma named_parse_if n : returns (named_by_ID toks) (parse_if h toks n).
Proof. destruct n; cbn [parse_if]; repeat named_step. Qed.

Lemma named_parse_for n : returns (named_by_ID toks) (parse_for h toks n).
Proof. destruct n; cbn [parse_for]; repeat named_step. Qed.

Lemma named_parse_foreach n : returns (named_by_ID toks) (parse_foreach h toks n).
Proof. destruct n; cbn [parse_foreach]; repeat named_step. Qed.

Lemma named_parse_var_decl n : returns (named_by_ID toks) (parse_var_decl h toks n).
Proof. unfold parse_var_decl. repeat named_step. Qed.

Lemma named_parse_stmt_or_expr n :
  returns (named_by_ID toks) (parse_stmt_or_expr h toks n).
Proof. unfold parse_stmt_or_expr. cbv zeta. repeat named_step. Qed.

Lemma named_parse_function n : returns (named_by_ID toks) (parse_function h toks n).
Proof.
  destruct n; cbn [parse_function]; [apply returns_out_of_fuel|].
  apply returns_seq. intros t. apply returns_seq. intros rettype.
  apply (returns_bind (λ t, t ∈ toks ∧ type t = "ID"%string)); [apply returns_eat_ID|].
  intros name [Hin Hty]. apply returns_seq. intros _. apply returns_seq. intros closed.
  apply returns_seq. intros params. apply returns_seq. intros body.
  destruct body; try apply returns_unmodelled.
  apply returns_ret. cbn [named_by_ID]. exists name. auto.
Qed.

Lemma named_parse_statement n : returns (named_by_ID toks) (parse_statement h toks n).
Proof.
  destruct n; cbn [parse_statement]; [apply returns_out_of_fuel|].
  apply returns_seq. intros t.
  destruct (_ && _); [apply named_parse_block|].
  destruct (String.eqb (type t) "IF"); [apply named_parse_if|].
  destruct (String.eqb (type t) "WHILE"); [repeat named_step|].
  destruct (String.eqb (type t) "FOR"); [apply named_parse_for|].
  destruct (String.eqb (type t) "FOREACH"); [apply named_parse_foreach|].
  destruct (String.eqb (type t) "RETURN"); [repeat named_step|].
  destruct (type_in t DECL_TYPES); [|apply named_parse_stmt_or_expr].
  apply returns_seq. intros j.
  apply (returns_bind (λ o, match o with Some s => named_by_ID toks s | None => True end)).
  - apply returns_try_pass; [exact I|].
    apply returns_seq. intros tok1. apply returns_seq. intros tok2.
    apply returns_seq. intros tok3.
    destruct (_ && _); [|apply returns_ret; exact I].
    apply (returns_bind (named_by_ID toks)); [apply named_parse_function|].
    intros s Hs. apply returns_ret. exact Hs.
  - intros [s|] Hs; [apply returns_ret; exact Hs|].
    apply returns_seq. intros i. apply returns_seq. intros next.
    destruct (String.eqb (type next) "ID");
      [apply named_parse_var_decl | apply named_parse_stmt_or_expr].
Qed.

Lemma named_program_items : ∀ n items,
  Forall (named_by_ID toks) items →
  returns (Forall (named_by_ID toks)) (program_items h toks n items).
Proof.
  induction n as [|n IH]; intros items Hitems; cbn [program_items];
    [apply returns_out_of_fuel|].
  apply returns_seq. intros t.
  destruct (String.eqb (type t) "EOF"); [apply returns_ret; exact Hitems|].
  destruct (String.eqb (type t) "USING").
  { repeat (apply returns_seq; intros ?). apply IH, Hitems. }
  destruct (String.eqb (type t) "NAMESPACE").
  { apply returns_seq. intros _. apply returns_seq. intros _.
    apply (returns_bind (named_by_ID toks)); [apply named_parse_block|].
    intros b Hb. apply IH. apply Forall_app. split; [exact Hitems|].
    constructor; [exact Hb | constructor]. }
  apply (returns_bind (named_by_ID toks)); [apply named_parse_statement|].
  intros s Hs. apply IH. apply Forall_app. split; [exact Hitems|].
  constructor; [exact Hs | constructor].
Qed.

End FunctionNames.

(** In a program that parses, the name of every top-level function has no
    dot and is not List. *)
Lemma parsed_function_names (h : Parser.host) (m : nat) (src : pystr)
    (prog : list Ast.stmt) (name : string) (ps : list string) (b : list Ast.stmt)
    (r : pystr) :
  Parser.parse_program h m src = Val prog →
  Ast.SFunc name ps b r ∈ prog →
  Interp.has_dot name = false ∧ name ≠ "List"%string.
Proof.
  unfold Parser.parse_program. intros Hp Hin.
  destruct (Parser.program_items h (Lexer.lex (Parser.unicode_Nd h) src) m [] 0%nat)
    as [p i'] eqn:E. cbn [fst] in Hp. subst p.
  pose proof (named_program_items h _ m [] (Forall_nil_2 _) _ _ _ E) as Hall.
  rewrite Forall_forall in Hall. destruct (Hall _ Hin) as (t & Ht & Hty & ->).
  destruct (ID_token_chars _ _ _ Ht Hty) as [Hc Hk].
  apply identifier_name; assumption.
Qed.

(** C8: the first loop of [run_source] registers every top-level func
    item, the last declaration of a name winning, and touches nothing else;
    the second loop, which runs the other items, starts from that function
    table.  Whenever the second loop has run some of the items, every name
    with a top-level declaration, above or below, is still in the table:
    under it stands the last top-level declaration of the name, unless a
    statement that ran before registered another function under it.  So
    when the second loop reaches a top-level call of such a name, the
    callee is found: the call runs the body of that function in a copy of
    the global dictionary with the parameters bound, and the program goes
    on from the outcome of the body with the items after the call.  No
    statement and no expression takes a name out of the table, and a call
    of a registered name, from any state, runs the body of the function.
    The name of a function is an identifier: in every program that parses
    it has no dot and is not the reserved word List, the two names that a
    call resolves before it looks at the function table. *)
Theorem funcs_registered_first (n : nat) (prog : list Ast.stmt) (st : Interp.state) :
  let st1 := Interp.set_functions (foldl register_item (Interp.functions st) prog) st in
  let finish := λ _ : unit,
    bind (gets Interp.functions)
      (λ fs, if bool_decide (is_Some (fs !! "Main"))
             then Interp.call_Main (S (S n)) else ret VNone) in
  Interp.register_funcs (S (S n)) prog st = (Val tt, st1)
  ∧ Interp.run_program (S (S n)) prog st = bind (Interp.run_items (S (S n)) prog) finish st1
  ∧ (∀ name ps b r, Ast.SFunc name ps b r ∈ prog →
       ∃ ps' b' r',
         Interp.functions st1 !! name = Some (Ast.mkFunc name ps' b' r')
         ∧ Ast.SFunc name ps' b' r' ∈ prog)
  ∧ (∀ pre post name ps b r o st2,
       prog = pre ++ post →
       Ast.SFunc name ps b r ∈ prog →
       Interp.run_items (S (S n)) pre st1 = (o, st2) →
       ∃ f, Interp.functions st2 !! name = Some f
            ∧ (Interp.functions st2 !! name = Interp.functions st1 !! name →
               ∃ ps' b' r', f = Ast.mkFunc name ps' b' r'
                            ∧ Ast.SFunc name ps' b' r' ∈ prog))
  ∧ (∀ pre post callee args ps b r st2 vs st3,
       prog = pre ++ Ast.SExpr (Ast.ECall callee args) :: post →
       Ast.SFunc callee ps b r ∈ prog →
       Interp.has_dot callee = false → callee ≠ "List" →
       Interp.run_items (S (S n)) pre st1 = (Val tt, st2) →
       mapM (Interp.eval_expr n Interp.Globals) args st2 = (Val vs, st3) →
       ∃ f, Interp.functions st2 !! callee = Some f
            ∧ Interp.run_program (S (S n)) prog st =
                bind (Interp.catch_return
                        (Interp.exec_block n (Interp.Frame (length (Interp.frames st3)))
                           (Ast.f_body f)))
                  (λ _, bind (Interp.run_items (S (S n)) post) finish)
                  (Interp.set_frames
                     (Interp.frames st3
                      ++ [bound_env (Ast.f_params f) vs (Interp.globals st3)]) st3))
  ∧ (∀ m env,
       (∀ s sa o sb, Interp.exec_stmt m env s sa = (o, sb) →
          dom (Interp.functions sa) ⊆ dom (Interp.functions sb))
       ∧ (∀ e sa o sb, Interp.eval_expr m env e sa = (o, sb) →
            dom (Interp.functions sa) ⊆ dom (Interp.functions sb)))
  ∧ (∀ m env callee args sa f vs sb,
       Interp.has_dot callee = false → callee ≠ "List" →
       Interp.functions sa !! callee = Some f →
       mapM (Interp.eval_expr m env) args sa = (Val vs, sb) →
       Interp.eval_expr (S m) env (Ast.ECall callee args) sa =
         Interp.catch_return
           (Interp.exec_block m (Interp.Frame (length (Interp.frames sb))) (Ast.f_body f))
           (Interp.set_frames
              (Interp.frames sb ++ [bound_env (Ast.f_params f) vs (Interp.globals sb)]) sb))
  ∧ (∀ h m src name ps b r,
       Parser.parse_program h m src = Val prog →
       Ast.SFunc name ps b r ∈ prog →
       Interp.has_dot name = false ∧ name ≠ "List"%string).
Proof.
  intros st1 finish. pose proof (register_funcs_run (S n) prog st) as Hreg.
  assert (Hdecl : ∀ name ps b r, Ast.SFunc name ps b r ∈ prog →
            ∃ ps' b' r',
              Interp.functions st1 !! name = Some (Ast.mkFunc name ps' b' r')
              ∧ Ast.SFunc name ps' b' r' ∈ prog).
  { intros name ps b r Hin. apply (declared_registered prog _ name ps b r Hin). }
  assert (Hrun : Interp.run_program (S (S n)) prog st
                 = bind (Interp.run_items (S (S n)) prog) finish st1).
  { unfold Interp.run_program. rewrite (bind_val _ _ _ _ _ Hreg). reflexivity. }
  assert (Hat : ∀ pre name ps b r o st2,
            Ast.SFunc name ps b r ∈ prog →
            Interp.run_items (S (S n)) pre st1 = (o, st2) →
            ∃ f, Interp.functions st2 !! name = Some f
                 ∧ (Interp.functions st2 !! name = Interp.functions st1 !! name →
                    ∃ ps' b' r', f = Ast.mkFunc name ps' b' r'
                                 ∧ Ast.SFunc name ps' b' r' ∈ prog)).
  { intros pre name ps b r o st2 Hin Hpre.
    destruct (Hdecl name ps b r Hin) as (ps' & b' & r' & Hf1 & Hin').
    pose proof (run_items_functions_grow _ _ _ _ _ Hpre) as Hgrow.
    assert (Hf2 : is_Some (Interp.functions st2 !! name)).
    { apply elem_of_dom, Hgrow, elem_of_dom. rewrite Hf1. eauto. }
    destruct Hf2 as [f Hf2]. exists f. split; [exact Hf2|].
    intros Heq. rewrite Hf2, Hf1 in Heq. injection Heq as ->. eauto. }
  split; [exact Hreg|]. split; [exact Hrun|]. split; [exact Hdecl|].
  split; [|split; [|split; [|split]]].
  - intros pre post name ps b r o st2 _ Hin Hpre. exact (Hat pre name ps b r o st2 Hin Hpre).
  - intros pre post callee args ps b r st2 vs st3 Hprog Hin Hdot Hl Hpre Hargs.
    destruct (Hat pre callee ps b r _ st2 Hin Hpre) as (f & Hf2 & _).
    exists f. split; [exact Hf2|].
    rewrite Hrun, Hprog. unfold bind at 1.
    rewrite (run_items_call _ _ _ _ _ _ _ Hpre). unfold bind at 1.
    rewrite (call_user n Interp.Globals callee args st2 f vs st3);
      [|rewrite Hdot; reflexivity|exact Hl|exact Hf2|exact Hargs].
    unfold bind.
    destruct (Interp.catch_return _ _) as [[u|e| |w] s']; reflexivity.
  - intros m env. split.
    + intros s sa o sb H. eapply (proj2 (interp_functions_grow m)); [exact I | exact H].
    + intros e sa o sb H. eapply (proj1 (interp_functions_grow m)); [exact I | exact H].
  - intros m env callee args sa f vs sb Hdot Hl Hf Hargs.
    apply call_user; try assumption. rewrite Hdot. reflexivity.
  - intros h m src name ps b r. apply parsed_function_names.
Qed.

Lemma funcs_registered_first_witness :
  ∃ f, Interp.run_program 3 Samples.call_before_decl (Interp.Runtime []) =
         bind (Interp.catch_return (Interp.exec_block 1 (Interp.Frame 0) (Ast.f_body f)))
           (λ _, bind (Interp.run_items 3
                         [Ast.SFunc "Hello" []
                            [Ast.SExpr (Ast.ECall "Console.WriteLine" [])] (cps "void")])
                   (λ _, bind (gets Interp.functions)
                           (λ fs, if bool_decide (is_Some (fs !! "Main"))
                                  then Interp.call_Main 3 else ret VNone)))
           (Interp.set_frames
              [bound_env (Ast.f_params f) [] ∅]
              (Interp.set_functions
                 (foldl register_item ∅ Samples.call_before_decl) (Interp.Runtime []))).
Proof.
  destruct (proj1 (proj2 (proj2 (proj2 (proj2
              (funcs_registered_first 1 Samples.call_before_decl (Interp.Runtime []))))))
              []
              [Ast.SFunc "Hello" [] [Ast.SExpr (Ast.ECall "Console.WriteLine" [])]
                 (cps "void")]
              "Hello"%string [] []
              [Ast.SExpr (Ast.ECall "Console.WriteLine" [])] (cps "void")
              (Interp.set_functions
                 (foldl register_item ∅ Samples.call_before_decl) (Interp.Runtime []))
              []
              (Interp.set_functions
                 (foldl register_item ∅ Samples.call_before_decl) (Interp.Runtime [])))
    as (f & _ & Hrun).
  - reflexivity.
  - unfold Samples.call_before_decl. apply list_elem_of_In. cbn [In]. right. left.
    reflexivity.
  - reflexivity.
  - discriminate.
  - reflexivity.
  - reflexivity.
  - exists f. exact Hrun.
Defined.

